(** * Opinet oil-price forecast: decomposition, anomaly detection and
      ensemble core, embedded from the Python sources.

    Python floats are embedded as exact rationals ([Q]).  Quantities that
    the sources obtain through a square root (standard deviations) are
    never computed here: where the source only compares them, the
    comparison is made on the squares; where the source stores them, the
    value is a parameter of the embedding. *)

From Stdlib Require Import QArith Qminmax Qround Qabs Lqa Lia List ZArith String.
From Stdlib Require Import Sorted Permutation.
From stdpp Require Import gmap strings.

Open Scope Q_scope.

(** ** Shared numeric helpers (numpy / pandas primitives) *)
Module Num.

Definition Qlt_bool (a b : Q) : bool := negb (Qle_bool b a).

Fixpoint Qsum (l : list Q) : Q :=
  match l with
  | [] => 0
  | x :: t => x + Qsum t
  end.

Definition Qlen (l : list Q) : Q := inject_Z (Z.of_nat (length l)).

(** [np.mean] *)
Definition mean (l : list Q) : Q := Qsum l / Qlen l.

(** [np.clip(x, lo, hi)] is [minimum(maximum(x, lo), hi)]. *)
Definition clip (lo hi x : Q) : Q := Qmin (Qmax x lo) hi.

(** [Series.dropna()] on a series whose missing values are [None]. *)
Fixpoint dropna (l : list (option Q)) : list Q :=
  match l with
  | [] => []
  | Some x :: t => x :: dropna t
  | None :: t => dropna t
  end.

(** Python's two-argument [min] and [max]: the first argument is kept
    unless the second is strictly smaller (larger). *)
Definition py_min (a b : Q) : Q := if Qlt_bool b a then b else a.
Definition py_max (a b : Q) : Q := if Qlt_bool a b then b else a.

Fixpoint insert_sorted (x : Q) (l : list Q) : list Q :=
  match l with
  | [] => [x]
  | y :: t => if Qle_bool x y then x :: l else y :: insert_sorted x t
  end.

Fixpoint sort (l : list Q) : list Q :=
  match l with
  | [] => []
  | x :: t => insert_sorted x (sort t)
  end.

(** [Series.quantile(q)] / [np.percentile] with linear interpolation:
    position [h = (n-1) q] in the sorted values, interpolating between the
    two neighbours. *)
Definition quantile (q : Q) (l : list Q) : Q :=
  let s := sort l in
  let h := inject_Z (Z.of_nat (length l - 1)) * q in
  let lo := Z.to_nat (Qfloor h) in
  let frac := h - inject_Z (Qfloor h) in
  let a := nth lo s 0 in
  let b := nth (Nat.min (lo + 1) (length l - 1)) s 0 in
  a + frac * (b - a).

(** [np.median] *)
Definition median (l : list Q) : Q := quantile (1 # 2) l.

(** Sum of squared deviations from the mean. *)
Definition sum_sq_dev (l : list Q) : Q :=
  Qsum (map (fun x => (x - mean l) * (x - mean l)) l).

(** [np.var] (population variance, ddof = 0). *)
Definition pvariance (l : list Q) : Q := sum_sq_dev l / Qlen l.

(** [Series.var()] (sample variance, ddof = 1, missing values skipped);
    [None] is NaN, returned for fewer than two observations. *)
Definition svariance (l : list (option Q)) : option Q :=
  let xs := dropna l in
  if (length xs <? 2)%nat then None
  else Some (sum_sq_dev xs / (Qlen xs - 1)).

(** Values that may be NaN or (positive) infinity: the results of
    [pct_change().abs()] and the scores derived from them. *)
Inductive ext :=
  | NaN
  | Inf
  | Fin (x : Q).

(** [e > t]; any comparison with NaN is false. *)
Definition ext_gt (e : ext) (t : Q) : bool :=
  match e with
  | NaN => false
  | Inf => true
  | Fin x => Qlt_bool t x
  end.

Definition ext_plus (a b : ext) : ext :=
  match a, b with
  | NaN, _ | _, NaN => NaN
  | Inf, _ | _, Inf => Inf
  | Fin x, Fin y => Fin (x + y)
  end.

(** Division by a positive count. *)
Definition ext_div_nat (a : ext) (n : nat) : ext :=
  match a with
  | Fin x => Fin (x / inject_Z (Z.of_nat n))
  | other => other
  end.

(** [|cur / prev - 1|] in floating point: a zero [prev] gives infinity,
    or NaN when [cur] is zero too. *)
Definition pct_abs (prev cur : Q) : ext :=
  if Qeq_bool prev 0 then (if Qeq_bool cur 0 then NaN else Inf)
  else Fin (Qabs (cur / prev - 1)).

Fixpoint pct_from (prev : Q) (l : list Q) : list ext :=
  match l with
  | [] => []
  | x :: t => pct_abs prev x :: pct_from x t
  end.

(** [series.pct_change().abs()]: the first entry is NaN. *)
Definition pct_change_abs (l : list Q) : list ext :=
  match l with
  | [] => []
  | x :: t => NaN :: pct_from x t
  end.

Fixpoint where_from (i : nat) (mask : list bool) : list nat :=
  match mask with
  | [] => []
  | b :: t => if b then i :: where_from (S i) t else where_from (S i) t
  end.

(** [np.where(mask)[0]] *)
Definition np_where (mask : list bool) : list nat := where_from 0 mask.

(** Sample variance of the window of [w] values ending at position [i]
    ([rolling(window=w)] before the square root); NaN on the first
    [w - 1] positions. *)
Definition rolling_svar (w : nat) (l : list Q) (i : nat) : option Q :=
  if (i + 1 <? w)%nat then None
  else svariance (map Some (firstn w (skipn (i + 1 - w) l))).

Lemma Qlt_bool_iff a b : Qlt_bool a b = true <-> a < b.
Proof.
  unfold Qlt_bool. rewrite negb_true_iff. split; intros H.
  - apply Qnot_le_lt. intros Hle. apply Qle_bool_iff in Hle. congruence.
  - destruct (Qle_bool b a) eqn:E; [|reflexivity].
    apply Qle_bool_iff in E. lra.
Qed.

Lemma Qsum_app l1 l2 : Qsum (l1 ++ l2) == Qsum l1 + Qsum l2.
Proof. induction l1 as [|x l1 IH]; simpl; [lra | rewrite IH; lra]. Qed.

Lemma Qsum_nonneg l : Forall (fun x => 0 <= x) l -> 0 <= Qsum l.
Proof. induction 1; simpl; lra. Qed.

Lemma Qsum_map_scale (c : Q) l : Qsum (map (fun x => x * c) l) == Qsum l * c.
Proof. induction l as [|x l IH]; simpl; [lra | rewrite IH; lra]. Qed.

Lemma clip_bounds lo hi x : lo <= hi -> lo <= clip lo hi x /\ clip lo hi x <= hi.
Proof.
  intros H. unfold clip. split.
  - apply Q.min_glb; [apply Q.le_max_r | exact H].
  - apply Q.le_min_r.
Qed.

Lemma py_min_le a b : py_min a b <= a /\ py_min a b <= b.
Proof.
  unfold py_min. destruct (Qlt_bool b a) eqn:E.
  - apply Qlt_bool_iff in E. lra.
  - assert (~ b < a) by (rewrite <- Qlt_bool_iff; congruence). lra.
Qed.

Lemma py_max_ge a b : a <= py_max a b /\ b <= py_max a b.
Proof.
  unfold py_max. destruct (Qlt_bool a b) eqn:E.
  - apply Qlt_bool_iff in E. lra.
  - assert (~ a < b) by (rewrite <- Qlt_bool_iff; congruence). lra.
Qed.

Lemma dropna_map_Some l : dropna (map Some l) = l.
Proof. induction l as [|x l IH]; simpl; congruence. Qed.

Lemma clip_id lo hi x : lo <= x -> x <= hi -> clip lo hi x == x.
Proof.
  intros H1 H2. unfold clip.
  rewrite (Q.max_l x lo) by exact H1. apply Q.min_l. exact H2.
Qed.

(** *** Positions selected by a mask *)

Lemma where_from_In mask : forall i k,
  In k (where_from i mask) <-> (i <= k)%nat /\ mask !! (k - i)%nat = Some true.
Proof.
  induction mask as [|b t IH]; intros i k; simpl.
  - split; [tauto | intros [_ H]; discriminate].
  - assert (Hstep : In k (where_from (S i) t) <->
                    (i < k)%nat /\ (b :: t) !! (k - i)%nat = Some true).
    { rewrite IH. split.
      - intros [H1 H2]. split; [lia|].
        replace (k - i)%nat with (S (k - S i)) by lia. exact H2.
      - intros [H1 H2]. split; [lia|].
        replace (k - i)%nat with (S (k - S i)) in H2 by lia. exact H2. }
    destruct b; simpl; rewrite Hstep.
    + split.
      * intros [->|[H1 H2]]; [|split; [lia | exact H2]].
        split; [lia|]. by rewrite Nat.sub_diag.
      * intros [H1 H2]. destruct (decide (i = k)) as [->|Hne]; [by left|].
        right. split; [lia | exact H2].
    + split.
      * intros [H1 H2]. split; [lia | exact H2].
      * intros [H1 H2]. split; [|exact H2].
        destruct (decide (i = k)) as [->|Hne]; [|lia].
        rewrite Nat.sub_diag in H2. discriminate.
Qed.

Lemma np_where_In mask k : In k (np_where mask) <-> mask !! k = Some true.
Proof.
  unfold np_where. rewrite where_from_In, Nat.sub_0_r.
  split; [tauto | intros H; split; [lia | exact H]].
Qed.

Lemma where_from_length_le (m1 m2 : list bool) : forall i,
  Forall2 (fun a b => a = true -> b = true) m1 m2 ->
  (length (where_from i m1) <= length (where_from i m2))%nat.
Proof.
  intros i H. revert i. induction H as [|a b m1 m2 Hab _ IH]; intros i; simpl; [lia|].
  specialize (IH (S i)). destruct a.
  - rewrite (Hab eq_refl). simpl. lia.
  - destruct b; simpl; lia.
Qed.

Lemma mask_map_le {A} (f g : A -> bool) (l : list A) :
  (forall x, f x = true -> g x = true) ->
  (length (np_where (map f l)) <= length (np_where (map g l)))%nat.
Proof.
  intros Hfg. apply where_from_length_le.
  induction l as [|x l IH]; simpl; constructor; auto.
Qed.

(** *** Sorting and quantiles *)

Inductive ascending : list Q -> Prop :=
  | ascending_nil : ascending []
  | ascending_cons x l :
      Forall (fun y => x <= y) l -> ascending l -> ascending (x :: l).

Lemma insert_sorted_Forall (P : Q -> Prop) x l :
  P x -> Forall P l -> Forall P (insert_sorted x l).
Proof.
  intros Hx Hl. induction Hl as [|y l Hy Hl IH]; simpl.
  - by constructor.
  - destruct (Qle_bool x y); constructor; auto.
Qed.

Lemma insert_sorted_ascending x l : ascending l -> ascending (insert_sorted x l).
Proof.
  induction 1 as [|y l Hy Hl IH]; simpl.
  - constructor; constructor.
  - destruct (Qle_bool x y) eqn:E.
    + apply Qle_bool_iff in E. constructor; [|by constructor].
      constructor; [exact E|].
      eapply List.Forall_impl; [|exact Hy]. simpl. intros z Hz. lra.
    + assert (Hyx : y <= x).
      { destruct (Qlt_le_dec y x) as [Hlt|Hle]; [lra|].
        apply Qle_bool_iff in Hle. congruence. }
      constructor; [|exact IH]. by apply insert_sorted_Forall.
Qed.

Lemma sort_ascending l : ascending (sort l).
Proof.
  induction l as [|x l IH]; simpl; [constructor | by apply insert_sorted_ascending].
Qed.

Lemma insert_sorted_length x l : length (insert_sorted x l) = S (length l).
Proof.
  induction l as [|y l IH]; simpl; [reflexivity|].
  destruct (Qle_bool x y); simpl; [reflexivity | by rewrite IH].
Qed.

Lemma sort_length l : length (sort l) = length l.
Proof.
  induction l as [|x l IH]; simpl; [reflexivity|].
  by rewrite insert_sorted_length, IH.
Qed.

Lemma ascending_nth s : ascending s -> forall i j,
  (i <= j)%nat -> (j < length s)%nat -> nth i s 0 <= nth j s 0.
Proof.
  induction 1 as [|x l Hx Hl IH]; intros i j Hij Hj; simpl in Hj; [lia|].
  destruct i as [|i], j as [|j]; simpl; try lia.
  - lra.
  - rewrite List.Forall_forall in Hx. apply Hx. apply nth_In. lia.
  - apply IH; lia.
Qed.

Lemma Qfloor_nonneg h : 0 <= h -> (0 <= Qfloor h)%Z.
Proof.
  intros H. change 0%Z with (Qfloor 0). by apply Qfloor_resp_le.
Qed.

(** The quantile grows with the requested fraction. *)
Lemma quantile_mono q1 q2 l :
  0 <= q1 -> q1 <= q2 -> q2 <= 1 -> quantile q1 l <= quantile q2 l.
Proof.
  intros H0 H12 H1. unfold quantile. cbv zeta.
  pose proof (sort_ascending l) as Hs. pose proof (sort_length l) as Hn.
  set (s := sort l) in *. set (n1 := (length l - 1)%nat).
  destruct (decide (length l = 0%nat)) as [Hz|Hnz].
  { assert (Hs0 : s = []) by (destruct s; [reflexivity | simpl in Hn; lia]).
    assert (Hnil : forall i, nth i ([] : list Q) 0 = 0) by (intros []; reflexivity).
    rewrite Hs0, !Hnil. lra. }
  assert (HN : 0 <= inject_Z (Z.of_nat n1)).
  { change 0 with (inject_Z 0). rewrite <- Zle_Qle. lia. }
  set (h1 := inject_Z (Z.of_nat n1) * q1). set (h2 := inject_Z (Z.of_nat n1) * q2).
  assert (Hh1 : 0 <= h1) by (unfold h1; nra).
  assert (Hh12 : h1 <= h2) by (unfold h1, h2; nra).
  assert (Hh2 : h2 <= inject_Z (Z.of_nat n1)) by (unfold h2; nra).
  pose proof (Qfloor_le h1) as Hf1. pose proof (Qlt_floor h1) as Hc1.
  pose proof (Qfloor_le h2) as Hf2. pose proof (Qlt_floor h2) as Hc2.
  rewrite inject_Z_plus in Hc1, Hc2. change (inject_Z 1) with 1 in Hc1, Hc2.
  pose proof (Qfloor_nonneg h1 Hh1) as Hp1.
  pose proof (Qfloor_resp_le h1 h2 Hh12) as Hfl.
  assert (Hz2 : (Qfloor h2 <= Z.of_nat n1)%Z) by (rewrite Zle_Qle; lra).
  set (z1 := Qfloor h1) in *. set (z2 := Qfloor h2) in *.
  assert (Hlt : forall i, (i <= n1)%nat -> (i < length s)%nat).
  { intros i Hi. rewrite Hn. unfold n1 in *. lia. }
  assert (Hnb : forall lo, (lo <= n1)%nat ->
                           nth lo s 0 <= nth (Nat.min (lo + 1) n1) s 0).
  { intros lo Hlo. apply ascending_nth; [exact Hs | lia | apply Hlt; lia]. }
  pose proof (Hnb (Z.to_nat z1) ltac:(lia)) as Hab1.
  pose proof (Hnb (Z.to_nat z2) ltac:(lia)) as Hab2.
  destruct (decide (z1 = z2)) as [E|E].
  - rewrite <- E in *.
    set (a := nth (Z.to_nat z1) s 0) in *.
    set (b := nth (Nat.min (Z.to_nat z1 + 1) n1) s 0) in *. nra.
  - assert (Hmid : nth (Nat.min (Z.to_nat z1 + 1) n1) s 0 <= nth (Z.to_nat z2) s 0).
    { apply ascending_nth; [exact Hs | lia | apply Hlt; lia]. }
    set (a1 := nth (Z.to_nat z1) s 0) in *.
    set (b1 := nth (Nat.min (Z.to_nat z1 + 1) n1) s 0) in *.
    set (a2 := nth (Z.to_nat z2) s 0) in *.
    set (b2 := nth (Nat.min (Z.to_nat z2 + 1) n1) s 0) in *. nra.
Qed.

Lemma Qlen_nonneg l : 0 <= Qlen l.
Proof. unfold Qlen. change 0 with (inject_Z 0). rewrite <- Zle_Qle. lia. Qed.

Lemma Qdiv_nonneg a b : 0 <= a -> 0 <= b -> 0 <= a / b.
Proof.
  intros Ha Hb. destruct (Qeq_dec b 0) as [E|E].
  - unfold Qdiv. rewrite E. change (/ 0) with 0. lra.
  - apply Qle_shift_div_l; lra.
Qed.

Lemma sum_sq_dev_nonneg l : 0 <= sum_sq_dev l.
Proof.
  unfold sum_sq_dev. apply Qsum_nonneg. apply List.Forall_forall.
  intros y Hy. apply in_map_iff in Hy. destruct Hy as [x [<- _]].
  generalize (x - mean l). intros d. nra.
Qed.

Lemma pvariance_nonneg l : 0 <= pvariance l.
Proof. apply Qdiv_nonneg; [apply sum_sq_dev_nonneg | apply Qlen_nonneg]. Qed.

Lemma Qsum_zeros (l : list Q) : Forall (fun x => x == 0) l -> Qsum l == 0.
Proof. induction 1 as [|x l Hx _ IH]; simpl; [reflexivity | rewrite Hx, IH; lra]. Qed.

Lemma mean_repeat c n : (0 < n)%nat -> mean (repeat c n) == c.
Proof.
  intros Hn. unfold mean, Qlen. rewrite repeat_length.
  assert (E : Qsum (repeat c n) == inject_Z (Z.of_nat n) * c).
  { clear Hn. induction n as [|n IH]; [simpl; change (inject_Z 0) with 0; ring|].
    simpl repeat. simpl Qsum. rewrite IH, Nat2Z.inj_succ. unfold Z.succ.
    rewrite inject_Z_plus. change (inject_Z 1) with 1. ring. }
  rewrite E. field.
  change 0 with (inject_Z 0). rewrite inject_Z_injective. lia.
Qed.

Lemma zip_with_repeat_r {A} (f : A -> Q -> Q) (c : Q) (xs : list A) :
  zip_with f xs (repeat c (length xs)) = map (fun x => f x c) xs.
Proof. induction xs as [|x xs IH]; simpl; [reflexivity | by rewrite IH]. Qed.

Lemma skipn_repeat (c : Q) n k : skipn k (repeat c n) = repeat c (n - k).
Proof.
  revert k. induction n as [|n IH]; intros [|k]; simpl; try reflexivity.
  apply IH.
Qed.

Lemma sum_sq_dev_repeat c n : sum_sq_dev (repeat c n) == 0.
Proof.
  unfold sum_sq_dev. destruct n as [|n]; [reflexivity|].
  apply Qsum_zeros. apply List.Forall_forall. intros t Ht.
  apply in_map_iff in Ht. destruct Ht as [x [<- Hx]].
  apply repeat_spec in Hx. subst x. rewrite mean_repeat by lia. ring.
Qed.

Lemma pvariance_repeat c n : pvariance (repeat c n) == 0.
Proof. unfold pvariance. rewrite sum_sq_dev_repeat. unfold Qdiv. ring. Qed.

Lemma quantile_bounds q l lo hi :
  0 <= q -> q <= 1 -> l <> [] ->
  Forall (fun x => lo <= x /\ x <= hi) l ->
  lo <= quantile q l /\ quantile q l <= hi.
Proof.
  intros H0 H1 Hne Hall. unfold quantile. cbv zeta.
  pose proof (sort_ascending l) as Hs. pose proof (sort_length l) as Hn.
  assert (Hsall : Forall (fun x => lo <= x /\ x <= hi) (sort l)).
  { clear - Hall. induction Hall as [|x l Hx _ IH]; simpl; [constructor|].
    by apply insert_sorted_Forall. }
  set (s := sort l) in *. set (n1 := (length l - 1)%nat).
  assert (Hlen : (0 < length l)%nat) by (destruct l; [congruence | simpl; lia]).
  assert (HN : 0 <= inject_Z (Z.of_nat n1)).
  { change 0 with (inject_Z 0). rewrite <- Zle_Qle. lia. }
  set (h := inject_Z (Z.of_nat n1) * q).
  assert (Hh0 : 0 <= h) by (unfold h; nra).
  assert (Hh1 : h <= inject_Z (Z.of_nat n1)) by (unfold h; nra).
  pose proof (Qfloor_le h) as Hf. pose proof (Qlt_floor h) as Hc.
  rewrite inject_Z_plus in Hc. change (inject_Z 1) with 1 in Hc.
  pose proof (Qfloor_nonneg h Hh0) as Hp.
  assert (Hz : (Qfloor h <= Z.of_nat n1)%Z) by (rewrite Zle_Qle; lra).
  set (z := Qfloor h) in *.
  assert (Hin : forall i, (i <= n1)%nat -> lo <= nth i s 0 /\ nth i s 0 <= hi).
  { intros i Hi. rewrite List.Forall_forall in Hsall. apply Hsall.
    apply nth_In. rewrite Hn. unfold n1 in *. lia. }
  assert (Hab : nth (Z.to_nat z) s 0 <= nth (Nat.min (Z.to_nat z + 1) n1) s 0).
  { apply ascending_nth; [exact Hs | lia | rewrite Hn; unfold n1 in *; lia]. }
  destruct (Hin (Z.to_nat z) ltac:(lia)) as [Ha1 Ha2].
  destruct (Hin (Nat.min (Z.to_nat z + 1) n1) ltac:(lia)) as [Hb1 Hb2].
  set (a := nth (Z.to_nat z) s 0) in *.
  set (b := nth (Nat.min (Z.to_nat z + 1) n1) s 0) in *.
  split; nra.
Qed.

Lemma quantile_ge q l lo :
  0 <= q -> q <= 1 -> l <> [] -> Forall (fun x => lo <= x) l -> lo <= quantile q l.
Proof.
  intros H0 H1 Hne Hall. unfold quantile. cbv zeta.
  pose proof (sort_ascending l) as Hs. pose proof (sort_length l) as Hn.
  assert (Hsall : Forall (fun x => lo <= x) (sort l)).
  { clear - Hall. induction Hall as [|x l Hx _ IH]; simpl; [constructor|].
    by apply insert_sorted_Forall. }
  set (s := sort l) in *. set (n1 := (length l - 1)%nat).
  assert (Hlen : (0 < length l)%nat) by (destruct l; [congruence | simpl; lia]).
  assert (HN : 0 <= inject_Z (Z.of_nat n1)).
  { change 0 with (inject_Z 0). rewrite <- Zle_Qle. lia. }
  set (h := inject_Z (Z.of_nat n1) * q).
  assert (Hh0 : 0 <= h) by (unfold h; nra).
  assert (Hh1 : h <= inject_Z (Z.of_nat n1)) by (unfold h; nra).
  pose proof (Qfloor_le h) as Hf. pose proof (Qlt_floor h) as Hc.
  rewrite inject_Z_plus in Hc. change (inject_Z 1) with 1 in Hc.
  pose proof (Qfloor_nonneg h Hh0) as Hp.
  assert (Hz : (Qfloor h <= Z.of_nat n1)%Z) by (rewrite Zle_Qle; lra).
  set (z := Qfloor h) in *.
  assert (Ha : lo <= nth (Z.to_nat z) s 0).
  { rewrite List.Forall_forall in Hsall. apply Hsall.
    apply nth_In. rewrite Hn. unfold n1 in *. lia. }
  assert (Hab : nth (Z.to_nat z) s 0 <= nth (Nat.min (Z.to_nat z + 1) n1) s 0).
  { apply ascending_nth; [exact Hs | lia | rewrite Hn; unfold n1 in *; lia]. }
  set (a := nth (Z.to_nat z) s 0) in *.
  set (b := nth (Nat.min (Z.to_nat z + 1) n1) s 0) in *.
  nra.
Qed.

Lemma mean_all_equal l v :
  l <> [] -> Forall (fun x => x == v) l -> mean l == v.
Proof.
  intros Hne Hall. unfold mean, Qlen.
  assert (E : Qsum l == inject_Z (Z.of_nat (length l)) * v).
  { clear Hne. induction Hall as [|x l Hx _ IH];
      [simpl; change (inject_Z 0) with 0; ring|].
    simpl Qsum. rewrite IH, Hx. simpl length. rewrite Nat2Z.inj_succ. unfold Z.succ.
    rewrite inject_Z_plus. change (inject_Z 1) with 1. ring. }
  rewrite E. field.
  change 0 with (inject_Z 0). rewrite inject_Z_injective.
  destruct l; [congruence | simpl; lia].
Qed.

Lemma pvariance_all_equal l v : Forall (fun x => x == v) l -> pvariance l == 0.
Proof.
  intros Hall. unfold pvariance.
  assert (E : sum_sq_dev l == 0).
  { destruct l as [|y l]; [reflexivity|].
    pose proof (mean_all_equal (y :: l) v ltac:(discriminate) Hall) as Hm.
    unfold sum_sq_dev. apply Qsum_zeros. apply List.Forall_forall. intros t Ht.
    apply in_map_iff in Ht. destruct Ht as [x [<- Hx]].
    rewrite List.Forall_forall in Hall. rewrite (Hall x Hx), Hm. ring. }
  rewrite E. unfold Qdiv. ring.
Qed.



End Num.

(** ** backend/app/models/oil_price_forecaster.py : [ensemble_predict] *)
Module Ensemble.
Import Num.

(** [self.model_performance]: target column -> model name -> metric -> value. *)
Abbreviation Performance := (gmap string (gmap string (gmap string Q))).

(** A 2-D array, row major. *)
Abbreviation Array2 := (list (list Q)).

(** The branch taken for a model name inside the loop of
    [ensemble_predict]: tree models always predict, the LSTM only when
    TensorFlow was importable, every other name hits [continue]. *)
Definition survives (tensorflow_available : bool) (model_name : string) : bool :=
  if String.eqb model_name "random_forest" then true
  else if String.eqb model_name "gradient_boosting" then true
  else if String.eqb model_name "lstm" then tensorflow_available
  else false.

(** Lines 395-400: the weight appended for one surviving model. *)
Definition model_weight (model_performance : Performance)
    (target_col model_name : string) : Q :=
  match model_performance !! target_col with
  | Some table =>
      let perf := default ∅ (table !! model_name) in
      1 / (1 + default 1 (perf !! "mae"%string))
  | None => 1
  end.

(** [models.items()] in insertion order; each model is paired with the
    array [pred] its branch computes on [X_new]. *)
Definition survivors (tf : bool) (models : list (string * Array2)) :
    list (string * Array2) :=
  List.filter (fun m => survives tf (fst m)) models.

Definition raw_weights (tf : bool) (mp : Performance)
    (models : list (string * Array2)) (target_col : string) : list Q :=
  map (fun m => model_weight mp target_col (fst m)) (survivors tf models).

(** Line 407: [weights = weights / weights.sum()]. *)
Definition normalize (weights : list Q) : list Q :=
  map (fun w => w / Qsum weights) weights.

Definition ensemble_weights (tf : bool) (mp : Performance)
    (models : list (string * Array2)) (target_col : string) : list Q :=
  normalize (raw_weights tf mp models target_col).

Definition scale_array (w : Q) (a : Array2) : Array2 :=
  map (map (fun x => w * x)) a.

Definition add_array (a b : Array2) : Array2 :=
  zip_with (zip_with Qplus) a b.

Fixpoint weighted_sum (preds : list Array2) (ws : list Q) : Array2 :=
  match preds, ws with
  | p :: [], w :: _ => scale_array w p
  | p :: ps, w :: ws' => add_array (scale_array w p) (weighted_sum ps ws')
  | _, _ => []
  end.

(** [np.average(predictions, axis=0, weights=weights)]. *)
Definition np_average (preds : list Array2) (ws : list Q) : Array2 :=
  map (map (fun x => x / Qsum ws)) (weighted_sum preds ws).

(** [ensemble_predict]; the empty list is [np.array([])]. *)
Definition ensemble_predict (tf : bool) (mp : Performance)
    (models : list (string * Array2)) (target_col : string) : Array2 :=
  let predictions := map snd (survivors tf models) in
  match predictions with
  | [] => []
  | _ => np_average predictions (ensemble_weights tf mp models target_col)
  end.

(** The per-fuel body of [forecast] after training: [trained fuel] is the
    dictionary returned by [train_models] paired with each model's
    prediction on the latest sequence; an empty dictionary or an empty
    prediction leaves the fuel without an entry. *)
Definition forecast_unit (tf : bool) (mp : Performance)
    (trained : string -> list (string * Array2)) (fuel_type : string) :
    option (list Q) :=
  match trained fuel_type with
  | [] => None
  | models =>
      match ensemble_predict tf mp models fuel_type with
      | [] => None
      | row :: _ => Some row
      end
  end.

(** [forecast]: the dictionary of per-fuel forecasts ('prices' only). *)
Definition forecast (tf : bool) (mp : Performance)
    (trained : string -> list (string * Array2)) (columns : list string) :
    gmap string (list Q) :=
  foldl (fun forecasts fuel_type =>
           if bool_decide (fuel_type ∈ columns) then
             match forecast_unit tf mp trained fuel_type with
             | Some prices => <[fuel_type := prices]> forecasts
             | None => forecasts
             end
           else forecasts)
        ∅ ["gasoline"%string; "diesel"%string].

(** Recording MAE [m] for model [n] under target [t]:
    [model_performance[t][n]['mae'] = m]. *)
Definition set_mae (mp : Performance) (t n : string) (m : Q) : Performance :=
  let table := default ∅ (mp !! t) in
  let perf := default ∅ (table !! n) in
  <[t := <[n := <["mae"%string := m]> perf]> table]> mp.

(** Every MAE recorded under target [t] is non-negative. *)
Definition maes_nonneg (mp : Performance) (t : string) : Prop :=
  forall table n p m,
    mp !! t = Some table -> table !! n = Some p ->
    p !! "mae"%string = Some m -> 0 <= m.

(** The weight [ensemble_predict] gives the model named [n]. *)
Definition weight_of (tf : bool) (mp : Performance)
    (models : list (string * Array2)) (t n : string) : Q :=
  model_weight mp t n / Qsum (raw_weights tf mp models t).

Lemma model_weight_recorded mp t table n p m :
  mp !! t = Some table -> table !! n = Some p -> p !! "mae"%string = Some m ->
  model_weight mp t n = 1 / (1 + m).
Proof. intros Ht Hn Hm. unfold model_weight. rewrite Ht, Hn. simpl. rewrite Hm. reflexivity. Qed.

Lemma model_weight_no_model mp t table n :
  mp !! t = Some table -> table !! n = None -> model_weight mp t n = 1 / (1 + 1).
Proof. intros Ht Hn. unfold model_weight. rewrite Ht, Hn. simpl. rewrite lookup_empty. reflexivity. Qed.

Lemma model_weight_no_target mp t n :
  mp !! t = None -> model_weight mp t n = 1.
Proof. intros Ht. unfold model_weight. rewrite Ht. reflexivity. Qed.

Lemma inv_one_plus_pos m : 0 <= m -> 0 < 1 / (1 + m).
Proof. intros H. apply Qlt_shift_div_l; lra. Qed.

Lemma model_weight_pos mp t n : maes_nonneg mp t -> 0 < model_weight mp t n.
Proof.
  intros Hnn. unfold model_weight.
  destruct (mp !! t) as [table|] eqn:Ht; [|lra].
  destruct (table !! n) as [p|] eqn:Hn; simpl.
  - destruct (p !! "mae"%string) as [m|] eqn:Hm; simpl.
    + apply inv_one_plus_pos. eapply Hnn; eauto.
    + apply inv_one_plus_pos. lra.
  - rewrite lookup_empty. simpl. apply inv_one_plus_pos. lra.
Qed.

Lemma raw_weights_pos tf mp models t :
  maes_nonneg mp t -> Forall (fun w => 0 < w) (raw_weights tf mp models t).
Proof.
  intros Hnn. unfold raw_weights. apply List.Forall_forall. intros w Hin.
  apply in_map_iff in Hin. destruct Hin as [m [<- _]]. by apply model_weight_pos.
Qed.

Lemma Qsum_pos l : l <> [] -> Forall (fun w => 0 < w) l -> 0 < Qsum l.
Proof.
  intros Hne Hall. destruct Hall as [|x l Hx Hl]; [congruence|].
  simpl. assert (0 <= Qsum l); [|lra].
  apply Qsum_nonneg. eapply List.Forall_impl; [|exact Hl]. simpl. intros; lra.
Qed.

Lemma normalize_sum l : ~ Qsum l == 0 -> Qsum (normalize l) == 1.
Proof.
  intros Hs. unfold normalize.
  change (Qsum (map (fun w => w * / Qsum l) l) == 1).
  rewrite Qsum_map_scale. field. exact Hs.
Qed.

Lemma normalize_nonneg l :
  Forall (fun w => 0 < w) l -> Forall (fun w => 0 <= w) (normalize l).
Proof.
  intros Hall. unfold normalize. apply List.Forall_forall. intros w Hin.
  apply in_map_iff in Hin. destruct Hin as [x [<- Hx]].
  assert (Hl : l <> []) by (intros ->; inversion Hx).
  pose proof (Qsum_pos l Hl Hall) as Hpos.
  apply Qle_shift_div_l; [exact Hpos|].
  rewrite List.Forall_forall in Hall. specialize (Hall x Hx). lra.
Qed.

Lemma ensemble_weights_weight_of tf mp models t :
  ensemble_weights tf mp models t =
  map (fun m => weight_of tf mp models t (fst m)) (survivors tf models).
Proof. unfold ensemble_weights, normalize, raw_weights. rewrite map_map. reflexivity. Qed.

Lemma set_mae_weight_same mp t n m :
  model_weight (set_mae mp t n m) t n = 1 / (1 + m).
Proof.
  unfold model_weight, set_mae. rewrite lookup_insert_eq, lookup_insert_eq. simpl.
  rewrite lookup_insert_eq. reflexivity.
Qed.

Lemma set_mae_weight_other mp t n n' m :
  is_Some (mp !! t) -> n' <> n ->
  model_weight (set_mae mp t n m) t n' = model_weight mp t n'.
Proof.
  intros [table Ht] Hne. unfold model_weight, set_mae.
  rewrite lookup_insert_eq, Ht. simpl. rewrite lookup_insert_ne by congruence.
  reflexivity.
Qed.

Lemma set_mae_nonneg mp t n m :
  0 <= m -> maes_nonneg mp t -> maes_nonneg (set_mae mp t n m) t.
Proof.
  intros Hm Hnn table n' p m' Ht Hn Hp. unfold set_mae in Ht.
  rewrite lookup_insert_eq in Ht. injection Ht as <-.
  destruct (decide (n' = n)) as [->|Hne].
  - rewrite lookup_insert_eq in Hn. injection Hn as <-.
    rewrite lookup_insert_eq in Hp. injection Hp as <-. exact Hm.
  - rewrite lookup_insert_ne in Hn by congruence.
    destruct (mp !! t) as [table|] eqn:Ht; simpl in Hn.
    + eapply Hnn; eauto.
    + rewrite lookup_empty in Hn. discriminate.
Qed.

(** Splitting the sum of the raw weights at the (unique) model [n]. *)
Lemma Qsum_split_at (g h : string -> Q) (n : string) (names : list string) :
  List.NoDup names -> In n names ->
  (forall n', n' <> n -> g n' = h n') ->
  Qsum (map g names) ==
  g n + Qsum (map h (List.filter (fun n' => negb (String.eqb n' n)) names)).
Proof.
  intros Hnd Hin Hgh. induction Hnd as [|x l Hx Hnd IH]; [inversion Hin|].
  simpl. destruct (String.eqb x n) eqn:E.
  - apply String.eqb_eq in E. subst x. simpl.
    assert (Hrest : Qsum (map g l) ==
              Qsum (map h (List.filter (fun n' => negb (String.eqb n' n)) l))).
    { clear IH Hin Hnd. induction l as [|y l IHl]; simpl; [reflexivity|].
      assert (y <> n). { intros ->. apply Hx. by left. }
      assert (E : String.eqb y n = false) by (by apply String.eqb_neq).
      rewrite E. simpl. rewrite Hgh by assumption.
      rewrite IHl; [reflexivity|]. intros Hin. apply Hx. by right. }
    rewrite Hrest. reflexivity.
  - simpl. apply String.eqb_neq in E.
    destruct Hin as [->|Hin]; [congruence|].
    rewrite IH by exact Hin. rewrite Hgh by exact E. lra.
Qed.

Lemma raw_weights_names tf mp models t :
  raw_weights tf mp models t =
  map (model_weight mp t) (map fst (survivors tf models)).
Proof. unfold raw_weights. rewrite map_map. reflexivity. Qed.

Lemma survivors_names_NoDup tf models :
  List.NoDup (map fst models) -> List.NoDup (map fst (survivors tf models)).
Proof.
  unfold survivors. induction models as [|[n p] l IH]; simpl; intros Hnd; [constructor|].
  inversion Hnd as [|? ? Hn Hl]; subst.
  destruct (survives tf n); simpl; [|by apply IH].
  constructor; [|by apply IH].
  intros Hin. apply Hn. apply in_map_iff in Hin. destruct Hin as [[n' p'] [Heq Hin]].
  apply filter_In in Hin. apply in_map_iff. exists (n', p'). tauto.
Qed.

(** The normalized weight of a model does not grow with its MAE. *)
Lemma weight_of_antitone tf mp models t n m m' :
  List.NoDup (map fst models) -> In n (map fst (survivors tf models)) ->
  is_Some (mp !! t) -> maes_nonneg mp t -> 0 <= m -> m <= m' ->
  weight_of tf (set_mae mp t n m') models t n <=
  weight_of tf (set_mae mp t n m) models t n.
Proof.
  intros Hnd Hin Ht Hnn Hm Hmm'. unfold weight_of.
  set (others := List.filter (fun n' => negb (String.eqb n' n))
                   (map fst (survivors tf models))).
  set (R := Qsum (map (model_weight mp t) others)).
  assert (HR : 0 <= R).
  { apply Qsum_nonneg. apply List.Forall_forall. intros w Hw.
    apply in_map_iff in Hw. destruct Hw as [x [<- _]].
    apply Qlt_le_weak. by apply model_weight_pos. }
  assert (Hsum : forall k, Qsum (raw_weights tf (set_mae mp t n k) models t)
                           == 1 / (1 + k) + R).
  { intros k. rewrite raw_weights_names.
    rewrite (Qsum_split_at (model_weight (set_mae mp t n k) t) (model_weight mp t) n).
    - rewrite set_mae_weight_same. reflexivity.
    - by apply survivors_names_NoDup.
    - exact Hin.
    - intros n' Hne. by apply set_mae_weight_other. }
  rewrite !Hsum, !set_mae_weight_same.
  assert (Ha : 0 < 1 / (1 + m)) by (by apply inv_one_plus_pos).
  assert (Ha' : 0 < 1 / (1 + m')) by (apply inv_one_plus_pos; lra).
  assert (Hle : 1 / (1 + m') <= 1 / (1 + m)).
  { apply Qle_shift_div_l; [lra|].
    assert (E : 1 / (1 + m') * (1 + m) == (1 + m) / (1 + m')) by (field; lra).
    rewrite E.
    apply Qle_shift_div_r; lra. }
  set (a := 1 / (1 + m)) in *. set (a' := 1 / (1 + m')) in *.
  apply Qle_shift_div_l; [lra|].
  assert (E : a' / (a' + R) * (a + R) == a' * (a + R) / (a' + R)) by (field; lra).
  rewrite E.
  apply Qle_shift_div_r; [lra|]. nra.
Qed.

(** Executable check of [maes_nonneg]. *)
Definition mae_ok (p : gmap string Q) : bool :=
  match p !! "mae"%string with
  | Some m => Qle_bool 0 m
  | None => true
  end.

Definition maes_nonneg_b (mp : Performance) (t : string) : bool :=
  match mp !! t with
  | Some table => forallb (fun kv => mae_ok (snd kv)) (map_to_list table)
  | None => true
  end.

Lemma maes_nonneg_b_spec mp t : maes_nonneg_b mp t = true -> maes_nonneg mp t.
Proof.
  unfold maes_nonneg_b. intros Hb table n p m Ht Hn Hp. rewrite Ht in Hb.
  rewrite forallb_forall in Hb.
  assert (Hin : In (n, p) (map_to_list table)).
  { apply list_elem_of_In. by apply elem_of_map_to_list. }
  specialize (Hb _ Hin). unfold mae_ok in Hb. simpl in Hb. rewrite Hp in Hb.
  by apply Qle_bool_iff.
Qed.

Lemma forecast_lookup tf mp trained columns f :
  forecast tf mp trained columns !! f =
  if bool_decide (f ∈ ["gasoline"%string; "diesel"%string]) && bool_decide (f ∈ columns)
  then forecast_unit tf mp trained f else None.
Proof.
  unfold forecast. simpl.
  destruct (decide (f = "gasoline"%string)) as [->|Hg];
    [|destruct (decide (f = "diesel"%string)) as [->|Hd]].
  - rewrite (bool_decide_eq_true_2 (_ ∈ [_; _]))
      by (rewrite !elem_of_cons; tauto). simpl.
    repeat case_bool_decide; repeat (destruct (forecast_unit _ _ _ _));
      rewrite ?lookup_insert_eq, ?lookup_insert_ne, ?lookup_empty by done; done.
  - rewrite (bool_decide_eq_true_2 (_ ∈ [_; _]))
      by (rewrite !elem_of_cons; tauto). simpl.
    repeat case_bool_decide; repeat (destruct (forecast_unit _ _ _ _));
      rewrite ?lookup_insert_eq, ?lookup_insert_ne, ?lookup_empty by done; done.
  - rewrite (bool_decide_eq_false_2 (_ ∈ [_; _]))
      by (rewrite !elem_of_cons, elem_of_nil; tauto). simpl.
    repeat case_bool_decide; repeat (destruct (forecast_unit _ _ _ _));
      rewrite ?lookup_insert_eq, ?lookup_insert_ne, ?lookup_empty by done; done.
Qed.

(** A performance table in which only the random forest has a recorded MAE. *)
Definition mp_rf_only : Performance :=
  {[ "gasoline"%string := {[ "random_forest"%string := {[ "mae"%string := 3 ]} ]} ]}.

Definition two_trees : list (string * Array2) :=
  [("random_forest"%string, [[1500]]); ("gradient_boosting"%string, [[1600]])].

(** C1, as stated, fails: under a target whose performance table lacks a
    model, that model's pre-normalization weight is 1/(1+1) = 1/2 and not
    1.0, so the returned weights are (1/3, 2/3) and not (1/5, 4/5). *)
Lemma C1_counterexample :
  (mp_rf_only !! "gasoline"%string) ≫= (fun table => table !! "gradient_boosting"%string) = None /\
  raw_weights false mp_rf_only two_trees "gasoline" = [1 / (1 + 3); 1 / (1 + 1)] /\
  ~ model_weight mp_rf_only "gasoline" "gradient_boosting" == 1 /\
  Forall2 Qeq (ensemble_weights false mp_rf_only two_trees "gasoline") [1 # 3; 2 # 3] /\
  ~ Forall2 Qeq (ensemble_weights false mp_rf_only two_trees "gasoline") [1 # 5; 4 # 5].
Proof.
  split; [reflexivity|]. split; [reflexivity|]. split.
  - vm_compute. discriminate.
  - split.
    + repeat constructor.
    + intros H. inversion H as [|? ? ? ? H1 _]. vm_compute in H1. discriminate.
Qed.

(** C1 (amended): for a non-empty set of surviving models and recorded
    MAEs >= 0, a model's pre-normalization weight is 1/(1+MAE) when its MAE
    is recorded, 1/(1+1) when the target has a performance table without an
    MAE for it, and 1.0 when the target has no performance table at all; the
    normalized weights sum to 1, each is >= 0, and a model's normalized
    weight does not increase when its recorded MAE increases. *)
Theorem C1_ensemble_weights tf (mp : Performance) models t :
  survivors tf models <> [] -> maes_nonneg mp t -> List.NoDup (map fst models) ->
  (forall n table p m, mp !! t = Some table -> table !! n = Some p ->
     p !! "mae"%string = Some m -> model_weight mp t n = 1 / (1 + m)) /\
  (forall n table, mp !! t = Some table ->
     table !! n ≫= (fun p => p !! "mae"%string) = None ->
     model_weight mp t n = 1 / (1 + 1)) /\
  (forall n, mp !! t = None -> model_weight mp t n = 1) /\
  ensemble_weights tf mp models t =
    map (fun m => model_weight mp t (fst m) / Qsum (raw_weights tf mp models t))
        (survivors tf models) /\
  Qsum (ensemble_weights tf mp models t) == 1 /\
  Forall (fun w => 0 <= w) (ensemble_weights tf mp models t) /\
  (forall n m m', In n (map fst (survivors tf models)) -> is_Some (mp !! t) ->
     0 <= m -> m <= m' ->
     weight_of tf (set_mae mp t n m') models t n <=
     weight_of tf (set_mae mp t n m) models t n).
Proof.
  intros Hne Hnn Hnd.
  assert (Hraw : raw_weights tf mp models t <> []).
  { unfold raw_weights. intros H. apply map_eq_nil in H. contradiction. }
  pose proof (raw_weights_pos tf mp models t Hnn) as Hpos.
  repeat split.
  - intros. eapply model_weight_recorded; eauto.
  - intros n table Ht Hn. unfold model_weight. rewrite Ht.
    destruct (table !! n) as [p|]; simpl in *.
    + rewrite Hn. reflexivity.
    + rewrite lookup_empty. reflexivity.
  - intros. by apply model_weight_no_target.
  - apply ensemble_weights_weight_of.
  - apply normalize_sum. pose proof (Qsum_pos _ Hraw Hpos). lra.
  - by apply normalize_nonneg.
  - intros n m m' Hin Ht Hm Hmm'. by apply weight_of_antitone.
Qed.

Lemma C1_ensemble_weights_witness :
  survivors false two_trees <> [] /\
  maes_nonneg mp_rf_only "gasoline" /\
  List.NoDup (map fst two_trees) /\
  Qsum (ensemble_weights false mp_rf_only two_trees "gasoline") == 1 /\
  weight_of false (set_mae mp_rf_only "gasoline" "random_forest" 5) two_trees
            "gasoline" "random_forest" <=
  weight_of false (set_mae mp_rf_only "gasoline" "random_forest" 3) two_trees
            "gasoline" "random_forest".
Proof.
  assert (H1 : survivors false two_trees <> []) by (vm_compute; discriminate).
  assert (H2 : maes_nonneg mp_rf_only "gasoline")
    by (apply maes_nonneg_b_spec; vm_compute; reflexivity).
  assert (H3 : List.NoDup (map fst two_trees)).
  { simpl. constructor.
    - simpl. intros [H|[]]. discriminate.
    - constructor; [intros []|constructor]. }
  destruct (C1_ensemble_weights false mp_rf_only two_trees "gasoline" H1 H2 H3)
    as (_ & _ & _ & _ & Hsum & _ & Hmono).
  split; [exact H1|]. split; [exact H2|]. split; [exact H3|]. split; [exact Hsum|].
  apply Hmono.
  - simpl. left. reflexivity.
  - exists {[ "random_forest"%string := {[ "mae"%string := 3 ]} ]}. reflexivity.
  - vm_compute. discriminate.
  - vm_compute. discriminate.
Defined.

(** *** No surviving model *)

(** The spec's outcomes for one unit of work (a fuel): a forecast, the
    [NoSurvivingModelError] of its error taxonomy ("surfaced to the caller
    as an explicit failure for that unit"), or no attempt at all (the
    column is missing or nothing was trained). *)
Inductive UnitOutcome :=
  | UnitForecast (prices : list Q)
  | NoSurvivingModelError
  | NotAttempted.

(** The outcome the spec's words give a unit. *)
Definition spec_unit_outcome (tf : bool) (mp : Performance)
    (trained : string -> list (string * Array2)) (columns : list string)
    (fuel_type : string) : UnitOutcome :=
  if bool_decide (fuel_type ∈ columns) then
    match trained fuel_type with
    | [] => NotAttempted
    | models =>
        match survivors tf models with
        | [] => NoSurvivingModelError
        | _ => UnitForecast (hd [] (ensemble_predict tf mp models fuel_type))
        end
    end
  else NotAttempted.

(** [train_models] returned nothing for the fuel [t]. *)
Definition untrained (trained : string -> list (string * Array2)) (t : string) :
    string -> list (string * Array2) :=
  fun g => if String.eqb g t then [] else trained g.

(** A dictionary of models of which none survives without TensorFlow. *)
Definition lstm_only : list (string * Array2) := [("lstm"%string, [[1500]])].

(** C3, as stated, fails: with an LSTM as the only model and TensorFlow
    missing, the spec's outcome for gasoline is the explicit
    [NoSurvivingModelError], but [forecast] returns the very dictionary
    it returns when nothing was trained for gasoline (the empty one): no
    failure is raised or recorded for the unit. *)
Lemma C3_counterexample :
  spec_unit_outcome false ∅ (fun _ => lstm_only) ["gasoline"%string] "gasoline"
    = NoSurvivingModelError /\
  spec_unit_outcome false ∅ (fun _ => []) ["gasoline"%string] "gasoline"
    = NotAttempted /\
  forecast false ∅ (fun _ => lstm_only) ["gasoline"%string] = ∅ /\
  forecast false ∅ (fun _ => []) ["gasoline"%string] = ∅.
Proof. repeat split; reflexivity. Qed.

(** C3 (amended): when no component model survives, [ensemble_predict]
    returns the empty array (of length 0, hence never a zero-filled array
    of forecast shape); [forecast] then leaves that fuel without an entry
    and signals nothing: its result is the dictionary it returns when no
    model was trained for that fuel; the other fuel is still forecast. *)
Theorem C3_no_surviving_model tf (mp : Performance) trained columns t :
  survivors tf (trained t) = [] ->
  ensemble_predict tf mp (trained t) t = [] /\
  (forall (n : nat) row, (0 < n)%nat ->
     ensemble_predict tf mp (trained t) t <> repeat row n) /\
  forecast_unit tf mp trained t = None /\
  forecast tf mp trained columns !! t = None /\
  forecast tf mp trained columns = forecast tf mp (untrained trained t) columns /\
  (forall g prices, g <> t -> g ∈ columns ->
     g ∈ ["gasoline"%string; "diesel"%string] ->
     forecast_unit tf mp trained g = Some prices ->
     forecast tf mp trained columns !! g = Some prices).
Proof.
  intros Hs.
  assert (He : ensemble_predict tf mp (trained t) t = []).
  { unfold ensemble_predict. rewrite Hs. reflexivity. }
  assert (Hu : forecast_unit tf mp trained t = None).
  { unfold forecast_unit. destruct (trained t); [reflexivity|]. by rewrite He. }
  split; [exact He|]. split.
  - intros n row Hn. rewrite He. destruct n; [lia|discriminate].
  - split; [exact Hu|]. split; [|split].
    + rewrite forecast_lookup, Hu. by destruct (_ && _).
    + apply map_eq. intros f. rewrite !forecast_lookup.
      destruct (_ && _); [|reflexivity].
      unfold forecast_unit at 2. unfold untrained.
      destruct (String.eqb_spec f t) as [->|Hft]; [exact Hu | reflexivity].
    + intros g prices Hg Hc Hf Hp. rewrite forecast_lookup.
      rewrite !bool_decide_eq_true_2 by assumption. exact Hp.
Qed.

Lemma C3_no_surviving_model_witness :
  survivors false ([("lstm"%string, [[1500]])] : list (string * Array2)) = [] /\
  ensemble_predict false ∅ [("lstm"%string, [[1500]])] "gasoline" = [].
Proof.
  split; [reflexivity|].
  apply (C3_no_surviving_model false ∅
           (fun _ => [("lstm"%string, [[1500]])]) ["gasoline"%string] "gasoline").
  reflexivity.
Defined.

(** *** The combined forecast, cell by cell *)

(** The value at row [r], column [c] of an array. *)
Definition cell (a : Array2) (r c : nat) : Q := nth c (nth r a []) 0.

(** An [R] x [C] array. *)
Definition shape (R C : nat) (a : Array2) : Prop :=
  length a = R /\ Forall (fun row => length row = C) a.

Lemma nth_map_zero (f : Q -> Q) (row : list Q) c :
  f 0 == 0 -> nth c (map f row) 0 == f (nth c row 0).
Proof.
  intros Hf. revert c. induction row as [|x row IH]; intros [|c]; simpl;
    try (symmetry; exact Hf); [reflexivity | apply IH].
Qed.

Lemma cell_map (f : Q -> Q) a r c :
  f 0 == 0 -> cell (map (map f) a) r c == f (cell a r c).
Proof.
  intros Hf. unfold cell. revert r. induction a as [|row a IH]; intros [|r]; simpl.
  - destruct c; simpl; symmetry; exact Hf.
  - destruct c; simpl; symmetry; exact Hf.
  - by apply nth_map_zero.
  - apply IH.
Qed.

Lemma shape_map (f : Q -> Q) R C a : shape R C a -> shape R C (map (map f) a).
Proof.
  intros [Hl Hr]. split; [by rewrite length_map|].
  apply List.Forall_forall. intros row Hrow. apply in_map_iff in Hrow.
  destruct Hrow as [x [<- Hx]]. rewrite length_map.
  rewrite List.Forall_forall in Hr. by apply Hr.
Qed.

Lemma nth_zip_plus (x y : list Q) c :
  length x = length y ->
  nth c (zip_with Qplus x y) 0 == nth c x 0 + nth c y 0.
Proof.
  revert y c. induction x as [|a x IH]; intros [|b y] c Hlen; simpl in Hlen;
    try discriminate.
  - destruct c; simpl; ring.
  - destruct c as [|c]; simpl; [reflexivity|]. apply IH. lia.
Qed.

Lemma cell_add R C a b r c :
  shape R C a -> shape R C b ->
  shape R C (add_array a b) /\
  cell (add_array a b) r c == cell a r c + cell b r c.
Proof.
  unfold shape, cell, add_array. revert R b r.
  induction a as [|x a IH]; intros R [|y b] r [Ha1 Ha2] [Hb1 Hb2];
    simpl in *; try (subst R; discriminate).
  - split; [split; [exact Ha1 | constructor]|]. destruct r, c; simpl; ring.
  - apply List.Forall_cons_iff in Ha2. apply List.Forall_cons_iff in Hb2.
    destruct Ha2 as [Hx Ha2], Hb2 as [Hy Hb2].
    destruct R as [|R]; [discriminate|].
    destruct (IH R b (Nat.pred r) (conj (eq_add_S _ _ Ha1) Ha2)
                (conj (eq_add_S _ _ Hb1) Hb2)) as [[Hl Hf] Hc].
    split.
    + split; [simpl; by rewrite Hl|]. constructor; [|exact Hf].
      rewrite length_zip_with. lia.
    + destruct r as [|r]; simpl; [apply nth_zip_plus; congruence|].
      exact Hc.
Qed.

(** The weighted sum of the cells of the component arrays. *)
Definition dot (ws : list Q) (preds : list Array2) (r c : nat) : Q :=
  Qsum (zip_with (fun w p => w * cell p r c) ws preds).

Lemma weighted_sum_cell R C preds : forall ws r c,
  preds <> [] -> length ws = length preds -> Forall (shape R C) preds ->
  shape R C (weighted_sum preds ws) /\
  cell (weighted_sum preds ws) r c == dot ws preds r c.
Proof.
  induction preds as [|p ps IH]; intros ws r c Hne Hlen Hall; [congruence|].
  destruct ws as [|w ws]; [discriminate|].
  apply List.Forall_cons_iff in Hall. destruct Hall as [Hp Hps].
  assert (Hzero : forall w : Q, w * 0 == 0) by (intros; ring).
  destruct ps as [|p' ps'].
  - simpl. split; [by apply shape_map|].
    unfold dot. simpl. unfold scale_array. rewrite cell_map by apply Hzero.
    destruct ws; simpl; ring.
  - destruct (IH ws r c ltac:(discriminate) ltac:(simpl in *; lia) Hps) as [Hs Hc].
    change (weighted_sum (p :: p' :: ps') (w :: ws))
      with (add_array (scale_array w p) (weighted_sum (p' :: ps') ws)).
    destruct (cell_add R C (scale_array w p) (weighted_sum (p' :: ps') ws) r c
                (shape_map _ R C p Hp) Hs) as [Hs' Hc'].
    split; [exact Hs'|]. rewrite Hc', Hc.
    unfold scale_array. rewrite cell_map by apply Hzero.
    unfold dot. simpl. reflexivity.
Qed.

Lemma dot_bounds lo hi ws preds r c :
  length ws = length preds ->
  Forall (fun w => 0 <= w) ws ->
  Forall (fun p => lo <= cell p r c /\ cell p r c <= hi) preds ->
  lo * Qsum ws <= dot ws preds r c /\ dot ws preds r c <= hi * Qsum ws.
Proof.
  unfold dot. revert preds. induction ws as [|w ws IH]; intros [|p ps] Hlen Hw Hp;
    simpl in Hlen; try discriminate.
  - simpl. lra.
  - apply List.Forall_cons_iff in Hw. apply List.Forall_cons_iff in Hp.
    destruct Hw as [Hw0 Hw], Hp as [[Hp1 Hp2] Hp].
    destruct (IH ps ltac:(lia) Hw Hp) as [H1 H2]. simpl.
    set (x := cell p r c) in *. nra.
Qed.

Lemma ensemble_predict_cell tf mp models t R C r c :
  survivors tf models <> [] -> maes_nonneg mp t ->
  Forall (shape R C) (map snd (survivors tf models)) ->
  shape R C (ensemble_predict tf mp models t) /\
  cell (ensemble_predict tf mp models t) r c ==
  dot (ensemble_weights tf mp models t) (map snd (survivors tf models)) r c.
Proof.
  intros Hne Hnn Hsh. unfold ensemble_predict.
  destruct (map snd (survivors tf models)) as [|p0 ps] eqn:Epreds.
  { apply map_eq_nil in Epreds. contradiction. }
  rewrite <- Epreds in *.
  assert (Hlen : length (ensemble_weights tf mp models t) =
                 length (map snd (survivors tf models))).
  { unfold ensemble_weights, normalize, raw_weights. by rewrite !length_map. }
  assert (Hne' : map snd (survivors tf models) <> []) by (rewrite Epreds; discriminate).
  destruct (weighted_sum_cell R C _ _ r c Hne' Hlen Hsh) as [Hs Hc].
  assert (Hsum : Qsum (ensemble_weights tf mp models t) == 1).
  { apply normalize_sum.
    assert (Hraw : raw_weights tf mp models t <> []).
    { unfold raw_weights. intros H. apply map_eq_nil in H. contradiction. }
    pose proof (Qsum_pos _ Hraw (raw_weights_pos tf mp models t Hnn)). lra. }
  unfold np_average. split; [by apply shape_map|].
  rewrite (cell_map (fun x => x / Qsum (ensemble_weights tf mp models t)))
    by (unfold Qdiv; ring).
  rewrite Hc, Hsum. unfold Qdiv. change (/ 1) with 1. ring.
Qed.

(** X17: when the surviving models predict arrays of one shape and the
    recorded MAEs are non-negative, the ensemble forecast has that shape
    and each of its cells lies between the smallest and the largest
    component forecast of that cell. *)
Theorem X17_ensemble_between (tf : bool) (mp : Performance)
    (models : list (string * Array2)) (t : string) (R C r c : nat) (lo hi : Q) :
  survivors tf models <> [] -> maes_nonneg mp t ->
  Forall (shape R C) (map snd (survivors tf models)) ->
  Forall (fun p => lo <= cell p r c /\ cell p r c <= hi) (map snd (survivors tf models)) ->
  shape R C (ensemble_predict tf mp models t) /\
  lo <= cell (ensemble_predict tf mp models t) r c /\
  cell (ensemble_predict tf mp models t) r c <= hi.
Proof.
  intros Hne Hnn Hsh Hb.
  destruct (ensemble_predict_cell tf mp models t R C r c Hne Hnn Hsh) as [Hs Hc].
  split; [exact Hs|]. rewrite Hc.
  assert (Hraw : raw_weights tf mp models t <> []).
  { unfold raw_weights. intros H. apply map_eq_nil in H. contradiction. }
  pose proof (raw_weights_pos tf mp models t Hnn) as Hpos.
  assert (Hsum : Qsum (ensemble_weights tf mp models t) == 1).
  { apply normalize_sum. pose proof (Qsum_pos _ Hraw Hpos). lra. }
  destruct (dot_bounds lo hi (ensemble_weights tf mp models t)
              (map snd (survivors tf models)) r c) as [H1 H2].
  - unfold ensemble_weights, normalize, raw_weights. by rewrite !length_map.
  - by apply normalize_nonneg.
  - exact Hb.
  - rewrite Hsum in H1, H2. lra.
Qed.

Lemma X17_ensemble_between_witness :
  1500 <= cell (ensemble_predict false mp_rf_only two_trees "gasoline") 0 0 /\
  cell (ensemble_predict false mp_rf_only two_trees "gasoline") 0 0 <= 1600.
Proof.
  refine (proj2 (X17_ensemble_between false mp_rf_only two_trees "gasoline"
                   1 1 0 0 1500 1600 _ _ _ _)).
  - vm_compute. discriminate.
  - apply maes_nonneg_b_spec. vm_compute. reflexivity.
  - repeat constructor.
  - repeat constructor; vm_compute; discriminate.
Defined.

(** *** Tree models only: a flat forecast *)

(** Line 378: [np.repeat(pred.reshape(-1, 1), 28, axis=1)], the one value
    a tree model predicts for a sample copied into 28 columns. *)
Definition expand_prediction (pred : list Q) : Array2 :=
  map (fun x => repeat x 28) pred.

(** [_calculate_confidence_intervals]: the lists under 'lower' and
    'upper'; [std] is the value of [np.std(predictions)]. *)
Definition _calculate_confidence_intervals (std : Q) (predictions : list Q) :
    list Q * list Q :=
  let margin := (196 # 100) * std in
  (map (fun p => p - margin) predictions, map (fun p => p + margin) predictions).

Lemma nth_repeat_lt (x : Q) n c : (c < n)%nat -> nth c (repeat x n) 0 = x.
Proof.
  revert c. induction n as [|n IH]; intros c Hc; [lia|].
  destruct c as [|c]; simpl; [reflexivity | apply IH; lia].
Qed.

Lemma cell_expand v r c : (c < 28)%nat -> cell (expand_prediction v) r c = nth r v 0.
Proof.
  intros Hc. unfold cell, expand_prediction. revert r.
  induction v as [|x v IH]; intros [|r]; cbn [map nth].
  - by destruct c.
  - by destruct c.
  - by apply nth_repeat_lt.
  - apply IH.
Qed.

Lemma shape_expand v : shape (length v) 28 (expand_prediction v).
Proof.
  unfold shape, expand_prediction. rewrite length_map. split; [reflexivity|].
  apply List.Forall_forall. intros row Hrow. apply in_map_iff in Hrow.
  destruct Hrow as [x [<- _]]. apply repeat_length.
Qed.

Lemma dot_same_cells ws preds r c c' :
  Forall (fun p => cell p r c = cell p r c') preds ->
  dot ws preds r c = dot ws preds r c'.
Proof.
  unfold dot. intros H. revert ws. induction H as [|p ps Hp _ IH]; intros [|w ws];
    simpl; try reflexivity.
  by rewrite Hp, IH.
Qed.

Lemma shape_row R C a r : shape R C a -> (r < R)%nat -> length (nth r a []) = C.
Proof.
  intros [Hl Hr] Hlt. rewrite List.Forall_forall in Hr. apply Hr.
  apply nth_In. lia.
Qed.

(** X18: when every model that enters the ensemble is a tree model (its
    array is one predicted value per sample copied into 28 columns), the
    ensemble forecast of each sample is the same on all 28 days; its
    population variance is 0, so the confidence interval computed from its
    standard deviation has zero width: lower and upper bound both equal
    the forecast. *)
Theorem X18_tree_forecast_flat (tf : bool) (mp : Performance)
    (models : list (string * Array2)) (t : string) (R : nat) :
  survivors tf models <> [] -> maes_nonneg mp t ->
  Forall (fun m => exists v, length v = R /\ snd m = expand_prediction v)
         (survivors tf models) ->
  let ens := ensemble_predict tf mp models t in
  shape R 28 ens /\
  forall r, (r < R)%nat ->
    (forall c c', (c < 28)%nat -> (c' < 28)%nat -> cell ens r c == cell ens r c') /\
    pvariance (nth r ens []) == 0 /\
    forall std, std * std == pvariance (nth r ens []) ->
      Forall2 Qeq (fst (_calculate_confidence_intervals std (nth r ens []))) (nth r ens []) /\
      Forall2 Qeq (snd (_calculate_confidence_intervals std (nth r ens []))) (nth r ens []).
Proof.
  intros Hne Hnn Htree ens.
  assert (Hsh : Forall (shape R 28) (map snd (survivors tf models))).
  { apply List.Forall_forall. intros p Hp. apply in_map_iff in Hp.
    destruct Hp as [m [<- Hm]]. rewrite List.Forall_forall in Htree.
    destruct (Htree m Hm) as [v [<- ->]]. apply shape_expand. }
  assert (Hflat : forall r c c', (c < 28)%nat -> (c' < 28)%nat ->
            cell ens r c == cell ens r c').
  { intros r c c' Hc Hc'. unfold ens.
    destruct (ensemble_predict_cell tf mp models t R 28 r c Hne Hnn Hsh) as [_ E1].
    destruct (ensemble_predict_cell tf mp models t R 28 r c' Hne Hnn Hsh) as [_ E2].
    rewrite E1, E2.
    rewrite (dot_same_cells _ _ r c c'); [reflexivity|].
    apply List.Forall_forall. intros p Hp. apply in_map_iff in Hp.
    destruct Hp as [m [<- Hm]]. rewrite List.Forall_forall in Htree.
    destruct (Htree m Hm) as [v [_ ->]]. by rewrite !cell_expand. }
  destruct (ensemble_predict_cell tf mp models t R 28 0 0 Hne Hnn Hsh) as [Hs _].
  fold ens in Hs. split; [exact Hs|]. intros r Hr.
  split; [intros c c'; apply Hflat|].
  pose proof (shape_row R 28 ens r Hs Hr) as Hlen.
  assert (Hall : Forall (fun x => x == cell ens r 0) (nth r ens [])).
  { apply List.Forall_forall. intros x Hx.
    destruct (In_nth _ _ 0 Hx) as [c [Hc <-]]. apply (Hflat r c 0%nat); lia. }
  pose proof (pvariance_all_equal _ _ Hall) as Hvar.
  split; [exact Hvar|]. intros std Hstd. rewrite Hvar in Hstd.
  assert (Hz : std == 0).
  { destruct (Qeq_dec std 0) as [E|E]; [exact E|].
    exfalso. apply E. destruct (Qmult_integral _ _ Hstd); assumption. }
  unfold _calculate_confidence_intervals. cbn [fst snd].
  generalize (nth r ens []). intros row.
  split; induction row as [|x row IH]; simpl; constructor; try exact IH;
    rewrite Hz; ring.
Qed.

Lemma X18_tree_forecast_flat_witness :
  pvariance
    (nth 0 (ensemble_predict false mp_rf_only
              [("random_forest"%string, expand_prediction [1500]);
               ("gradient_boosting"%string, expand_prediction [1600])]
              "gasoline") []) == 0.
Proof.
  refine (proj1 (proj2 (proj2 (X18_tree_forecast_flat false mp_rf_only
    [("random_forest"%string, expand_prediction [1500]);
     ("gradient_boosting"%string, expand_prediction [1600])]
    "gasoline" 1 _ _ _) 0%nat _))).
  - vm_compute. discriminate.
  - apply maes_nonneg_b_spec. vm_compute. reflexivity.
  - repeat constructor; eexists; (split; [|reflexivity]); reflexivity.
  - lia.
Defined.

(** *** The training windows *)

(** [l[a:b]] for [0 <= a <= b]. *)
Definition slice {A} (a b : nat) (l : list A) : list A :=
  firstn (b - a) (skipn a l).

(** [l[-1:]]. *)
Definition latest {A} (l : list A) : list A := skipn (length l - 1) l.

Definition sequence_length : nat := 30.

(** The loop of [prepare_ml_data], lines 227-235.  A row of the frame is
    its (imputed) feature vector paired with its target value;
    [range(30, len(X) - forecast_horizon + 1)] is empty when the bound is
    not above 30, which the truncated subtraction gives too. *)
Definition prepare_ml_data {A} (rows : list (A * Q)) (forecast_horizon : nat) :
    list (list A) * list (list Q) :=
  let X := map fst rows in
  let y := map snd rows in
  let range := seq sequence_length
                   (length X + 1 - forecast_horizon - sequence_length) in
  (map (fun i => slice (i - sequence_length) i X) range,
   map (fun i => slice i (i + forecast_horizon) y) range).

Lemma slice_length {A} (a b : nat) (l : list A) :
  (a <= b)%nat -> (b <= length l)%nat -> length (slice a b l) = (b - a)%nat.
Proof.
  intros H1 H2. unfold slice. rewrite length_firstn, length_skipn. lia.
Qed.

(** X19: [prepare_ml_data] on [n] rows with horizon [h] yields
    [n - h - 29] feature windows and as many target windows (none when
    [n < h + 30]); window [j] is the 30 rows [j .. j+29], its target the
    [h] values that follow them; and the latest window, the one [forecast]
    predicts from, is rows [n-h-30 .. n-h-1]: the most recent [h] rows of
    the frame are in no feature window. *)
Theorem X19_training_windows {A} (rows : list (A * Q)) (h : nat) :
  let n := length rows in
  let Xs := fst (prepare_ml_data rows h) in
  let ys := snd (prepare_ml_data rows h) in
  length Xs = (n + 1 - h - 30)%nat /\ length ys = length Xs /\
  ((n < h + 30)%nat -> Xs = []) /\
  (forall j, (j < length Xs)%nat ->
     Xs !! j = Some (slice j (j + 30) (map fst rows)) /\
     length (slice j (j + 30) (map fst rows)) = 30%nat /\
     ys !! j = Some (slice (j + 30) (j + 30 + h) (map snd rows)) /\
     length (slice (j + 30) (j + 30 + h) (map snd rows)) = h) /\
  ((h + 30 <= n)%nat ->
     latest Xs = [slice (n - h - 30) (n - h) (map fst rows)]).
Proof.
  intros n Xs ys. unfold Xs, ys, prepare_ml_data, sequence_length. cbn [fst snd].
  rewrite !length_map, !length_seq. fold n.
  split; [reflexivity|]. split; [reflexivity|]. split; [|split].
  - intros Hlt. replace (n + 1 - h - 30)%nat with 0%nat by lia. reflexivity.
  - intros j Hj. rewrite !list_lookup_fmap.
    rewrite (lookup_seq_lt _ _ _ Hj). cbn [fmap option_fmap option_map].
    replace (30 + j - 30)%nat with j by lia.
    replace (30 + j)%nat with (j + 30)%nat by lia.
    split; [reflexivity|]. split; [|split; [reflexivity|]].
    + rewrite slice_length; rewrite ?length_map; fold n; lia.
    + rewrite slice_length; rewrite ?length_map; fold n; lia.
  - intros Hle. unfold latest. rewrite length_map, length_seq.
    rewrite skipn_map, skipn_seq.
    replace (n + 1 - h - 30 - (n + 1 - h - 30 - 1))%nat with 1%nat by lia.
    cbn [seq map].
    replace (30 + (n + 1 - h - 30 - 1) - 30)%nat with (n - h - 30)%nat by lia.
    replace (30 + (n + 1 - h - 30 - 1))%nat with (n - h)%nat by lia.
    reflexivity.
Qed.

End Ensemble.

(** ** forecasting/analysis/decomposition.py *)
Module Decomposition.
Import Num.

(** The [ValueError] raised for a too-short series carries the number of
    clean observations in its message. *)
Inductive Exception :=
  | ValueError (observations : nat).

(** The literal 100 of [_prepare_series]. *)
Definition MIN_LENGTH : nat := 100.

(** [_prepare_series]: drop missing values, reject short series, clip to
    the [1st, 99th] percentile band. *)
Definition _prepare_series (series : list (option Q)) : Exception + list Q :=
  let clean_series := dropna series in
  if (length clean_series <? MIN_LENGTH)%nat then
    inl (ValueError (length clean_series))
  else
    let q99 := quantile (99 # 100) clean_series in
    let q01 := quantile (1 # 100) clean_series in
    inr (map (clip q01 q99) clean_series).

(** The component dictionary the decomposition methods return. *)
Record Components := {
  trend : list (option Q);
  seasonal : list (option Q);
  residual : list (option Q)
}.

(** [_calculate_seasonal_strength].  A NaN variance makes both the test
    against 0 and the comparison inside [min(1.0, strength)] false, so
    [max(0.0, min(1.0, nan))] evaluates to 1.0. *)
Definition strength_of (component_var residual_var : option Q) : Q :=
  match component_var, residual_var with
  | Some cv, Some rv =>
      if Qeq_bool (cv + rv) 0 then 0
      else py_max 0 (py_min 1 (cv / (cv + rv)))
  | _, _ => py_max 0 (py_min 1 1)
  end.

Definition _calculate_seasonal_strength (result : Components) : Q :=
  strength_of (svariance (seasonal result)) (svariance (residual result)).

(** [_calculate_trend_strength] drops missing values first. *)
Definition _calculate_trend_strength (result : Components) : Q :=
  let trend := map Some (dropna (trend result)) in
  let residual := map Some (dropna (residual result)) in
  strength_of (svariance trend) (svariance residual).

(** The loop state of [_cusum_detection]: the accumulators at the current
    index and the breaks reported so far, each break being the position of
    its date in the index and its significance. *)
Record CusumState := {
  cusum_pos : Q;
  cusum_neg : Q;
  breaks : list (nat * Q)
}.

(** The test [i - breaks[-1][1] >= min_segment_length] of line 469: the
    second component of the last break is its significance. *)
Definition gap_ok (min_segment_length i : nat) (breaks : list (nat * Q)) : bool :=
  match last breaks with
  | None => true
  | Some b =>
      Qle_bool (inject_Z (Z.of_nat min_segment_length))
               (inject_Z (Z.of_nat i) - snd b)
  end.

(** One iteration of the loop; [std] stands for [np.std(values)]. *)
Definition cusum_step (mean_val std : Q) (min_segment_length : nat)
    (st : CusumState) (iv : nat * Q) : CusumState :=
  let '(i, v) := iv in
  let h := 4 * std in
  let p := py_max 0 (cusum_pos st + v - mean_val - (1 # 2) * std) in
  let n := py_max 0 (cusum_neg st - v + mean_val - (1 # 2) * std) in
  if (Qlt_bool h p || Qlt_bool h n)
     && (min_segment_length <=? i)%nat
     && gap_ok min_segment_length i (breaks st)
  then {| cusum_pos := 0; cusum_neg := 0;
          breaks := breaks st ++ [(i, py_max p n / h)] |}
  else {| cusum_pos := p; cusum_neg := n; breaks := breaks st |}.

Definition cusum_run (std : Q) (values : list Q) (min_segment_length : nat) :
    CusumState :=
  foldl (cusum_step (mean values) std min_segment_length)
        {| cusum_pos := 0; cusum_neg := 0; breaks := [] |}
        (tail (imap (fun i v => (i, v)) values)).

(** [_cusum_detection], with [std = np.std(values)] supplied. *)
Definition _cusum_detection (std : Q) (values : list Q)
    (min_segment_length : nat) : list (nat * Q) :=
  breaks (cusum_run std values min_segment_length).

(** [std] is the population standard deviation of [values]. *)
Definition is_np_std (values : list Q) (std : Q) : Prop :=
  0 <= std /\ std * std == pvariance values.

(** [decompose_series]: preparation first, then the selected method
    (a parameter here: the methods are library calls), then the strengths. *)
Record DecompositionResult := {
  original : list Q;
  components : Components;
  seasonal_strength : Q;
  trend_strength : Q
}.

Definition decompose_series (method : list Q -> Components)
    (series : list (option Q)) : Exception + DecompositionResult :=
  match _prepare_series series with
  | inl e => inl e
  | inr clean_series =>
      let result := method clean_series in
      inr {| original := clean_series;
             components := result;
             seasonal_strength := _calculate_seasonal_strength result;
             trend_strength := _calculate_trend_strength result |}
  end.

(** *** Preparation *)

(** C2: a series with fewer than 100 clean observations is rejected with
    the too-short [ValueError] (the source's insufficient-data error), and
    decomposition propagates it instead of proceeding. *)
Theorem C2_short_series_rejected (series : list (option Q)) :
  (length (dropna series) < 100)%nat ->
  _prepare_series series = inl (ValueError (length (dropna series))) /\
  forall method,
    decompose_series method series = inl (ValueError (length (dropna series))).
Proof.
  intros Hlen.
  assert (H : _prepare_series series = inl (ValueError (length (dropna series)))).
  { unfold _prepare_series, MIN_LENGTH.
    destruct (Nat.ltb_spec (length (dropna series)) 100); [reflexivity | lia]. }
  split; [exact H|]. intros method. unfold decompose_series. rewrite H. reflexivity.
Qed.

Definition ten_points : list (option Q) :=
  [Some 1500; Some 1502; None; Some 1501; Some 1499; Some 1503; Some 1500;
   Some 1498; Some 1502; Some 1501; Some 1500].

Lemma C2_short_series_rejected_witness :
  (length (dropna ten_points) < 100)%nat /\
  _prepare_series ten_points = inl (ValueError 10).
Proof.
  assert (H : (length (dropna ten_points) < 100)%nat) by (simpl; lia).
  split; [exact H|].
  exact (proj1 (C2_short_series_rejected ten_points H)).
Defined.

Lemma prepare_ok series :
  (100 <= length (dropna series))%nat ->
  _prepare_series series =
  inr (map (clip (quantile (1 # 100) (dropna series))
                 (quantile (99 # 100) (dropna series))) (dropna series)).
Proof.
  intros H. unfold _prepare_series, MIN_LENGTH.
  destruct (Nat.ltb_spec (length (dropna series)) 100); [lia | reflexivity].
Qed.

Lemma prepare_inr series once :
  _prepare_series series = inr once ->
  (100 <= length (dropna series))%nat /\
  once = map (clip (quantile (1 # 100) (dropna series))
                   (quantile (99 # 100) (dropna series))) (dropna series).
Proof.
  unfold _prepare_series, MIN_LENGTH.
  destruct (Nat.ltb_spec (length (dropna series)) 100); [discriminate|].
  intros [= <-]. split; [assumption | reflexivity].
Qed.

(** The series 0, 1, ..., 99. *)
Definition ramp : list Q := map (fun i => inject_Z (Z.of_nat i)) (seq 0 100).

(** C8, as stated, fails: preparing 0..99 clips the first value to 0.99
    and the last to 98.01; preparing that output again recomputes the
    percentiles and clips them to 0.9999 and 98.0001. *)
Lemma C8_counterexample :
  match _prepare_series (map Some ramp) with
  | inr once =>
      match _prepare_series (map Some once) with
      | inr twice =>
          nth 0 once 0 == 99 # 100 /\ nth 0 twice 0 == 9999 # 10000 /\
          ~ Forall2 Qeq twice once
      | inl _ => False
      end
  | inl _ => False
  end.
Proof.
  vm_compute. split; [reflexivity|]. split; [reflexivity|].
  intros H. inversion H as [|? ? ? ? Hhd _]. vm_compute in Hhd. discriminate.
Qed.

(** C8 (amended): preparing an already prepared series never fails and
    keeps its length (nothing is dropped or filled), but the percentile
    band is recomputed on the prepared values and they are clipped to it
    again; the second run returns an equal series exactly when every
    prepared value already lies inside the prepared series' own
    [1st, 99th] percentile band. *)
Theorem C8_prepare_twice (series : list (option Q)) (once : list Q) :
  _prepare_series series = inr once ->
  exists twice,
    _prepare_series (map Some once) = inr twice /\
    length twice = length once /\
    twice = map (clip (quantile (1 # 100) once) (quantile (99 # 100) once)) once /\
    (Forall2 Qeq twice once <->
     Forall (fun x => quantile (1 # 100) once <= x /\ x <= quantile (99 # 100) once)
            once).
Proof.
  intros H. apply prepare_inr in H. destruct H as [Hlen Honce].
  assert (Hl : length once = length (dropna series)).
  { rewrite Honce. apply length_map. }
  eexists. split.
  - rewrite prepare_ok; rewrite dropna_map_Some; [reflexivity | lia].
  - split; [apply length_map|]. split; [reflexivity|].
    assert (Hband : quantile (1 # 100) once <= quantile (99 # 100) once)
      by (apply quantile_mono; lra).
    revert Hband. generalize (quantile (1 # 100) once) (quantile (99 # 100) once).
    intros lo hi Hband. clear - Hband. split.
    + induction once as [|x l IH]; simpl; intros H; [constructor|].
      inversion H as [|? ? ? ? Hx Hl]; subst. constructor; [|by apply IH].
      destruct (clip_bounds lo hi x Hband) as [H1 H2]. lra.
    + intros Hall. induction Hall as [|x l [Hx1 Hx2] _ IH]; simpl; constructor.
      * by apply clip_id.
      * exact IH.
Qed.

Lemma C8_prepare_twice_witness :
  exists once twice,
    _prepare_series (map Some ramp) = inr once /\
    _prepare_series (map Some once) = inr twice /\
    length twice = length once.
Proof.
  assert (H : _prepare_series (map Some ramp) =
              inr (map (clip (quantile (1 # 100) (dropna (map Some ramp)))
                             (quantile (99 # 100) (dropna (map Some ramp))))
                       (dropna (map Some ramp)))) by reflexivity.
  destruct (C8_prepare_twice _ _ H) as [twice (H2 & H3 & _)].
  eexists. exists twice. split; [exact H|]. split; [exact H2 | exact H3].
Defined.

(** *** Strengths *)

(** The spec's reading of "clamped to [0,1]". *)
Definition clamp01 (x : Q) : Q := Qmax 0 (Qmin 1 x).

Lemma py_clamp_eq x : py_max 0 (py_min 1 x) == clamp01 x.
Proof.
  unfold py_max, py_min, clamp01.
  destruct (Qlt_bool x 1) eqn:E1.
  - apply Qlt_bool_iff in E1. rewrite (Q.min_r 1 x) by lra.
    destruct (Qlt_bool 0 x) eqn:E2.
    + apply Qlt_bool_iff in E2. rewrite Q.max_r by lra. reflexivity.
    + assert (~ 0 < x) by (rewrite <- Qlt_bool_iff; congruence).
      rewrite Q.max_l by lra. reflexivity.
  - assert (~ x < 1) by (rewrite <- Qlt_bool_iff; congruence).
    rewrite (Q.min_l 1 x) by lra.
    destruct (Qlt_bool 0 1) eqn:E2.
    + rewrite Q.max_r by lra. reflexivity.
    + assert (~ 0 < 1) by (rewrite <- Qlt_bool_iff; congruence). lra.
Qed.

Lemma py_clamp_bounds x : 0 <= py_max 0 (py_min 1 x) <= 1.
Proof.
  rewrite py_clamp_eq. unfold clamp01. split.
  - apply Q.le_max_l.
  - apply Q.max_lub; [lra | apply Q.le_min_l].
Qed.

Lemma strength_of_bounds cv rv : 0 <= strength_of cv rv <= 1.
Proof.
  unfold strength_of. destruct cv as [cv|], rv as [rv|];
    try apply py_clamp_bounds.
  destruct (Qeq_bool (cv + rv) 0); [lra | apply py_clamp_bounds].
Qed.

Lemma strength_of_defined cv rv :
  (cv + rv == 0 -> strength_of (Some cv) (Some rv) == 0) /\
  (~ cv + rv == 0 -> strength_of (Some cv) (Some rv) == clamp01 (cv / (cv + rv))).
Proof.
  unfold strength_of. destruct (Qeq_bool (cv + rv) 0) eqn:E.
  - apply Qeq_bool_iff in E. split; [reflexivity | tauto].
  - split.
    + intros H. apply Qeq_bool_iff in H. congruence.
    + intros _. apply py_clamp_eq.
Qed.

Lemma svariance_dropna l : svariance (map Some (dropna l)) = svariance l.
Proof. unfold svariance. rewrite dropna_map_Some. reflexivity. Qed.

Lemma strength_of_nan cv rv :
  cv = None \/ rv = None -> strength_of cv rv == 1.
Proof.
  intros H. destruct cv, rv, H; try discriminate; vm_compute; reflexivity.
Qed.

Lemma strength_of_zero_component cv rv :
  cv == 0 -> strength_of (Some cv) (Some rv) == 0.
Proof.
  intros Hcv. unfold strength_of.
  destruct (Qeq_bool (cv + rv) 0) eqn:E; [reflexivity|].
  assert (Hrv : ~ rv == 0).
  { intros Hrv. assert (H : cv + rv == 0) by (rewrite Hcv, Hrv; reflexivity).
    apply Qeq_bool_iff in H. congruence. }
  assert (Ex : cv / (cv + rv) == 0).
  { rewrite Hcv. field. lra. }
  rewrite py_clamp_eq. unfold clamp01. rewrite Ex.
  rewrite (Q.min_r 1 0) by lra. by rewrite Q.max_l by lra.
Qed.

Lemma imap_repeat_seq {A B} (f : nat -> A -> B) (c : A) n :
  imap f (repeat c n) = map (fun i => f i c) (seq 0 n).
Proof.
  assert (H : forall k (g : nat -> A -> B),
             imap (fun i => g (k + i)%nat) (repeat c n)
             = map (fun i => g i c) (seq k n)).
  { induction n as [|n IH]; intros k g; [reflexivity|].
    cbn [repeat seq map]. rewrite imap_cons. rewrite Nat.add_0_r. f_equal.
    rewrite <- (IH (S k) g). apply imap_ext. intros i x _. simpl.
    f_equal. lia. }
  apply (H 0%nat f).
Qed.

Lemma Qsum_map_ext (f g : Q -> Q) l :
  (forall x, f x == g x) -> Qsum (map f l) == Qsum (map g l).
Proof.
  intros H. induction l as [|x l IH]; [reflexivity|].
  simpl. rewrite IH, (H x). reflexivity.
Qed.

Lemma Qsum_map_shift c l :
  Qsum (map (fun r => c + r) l) == Qlen l * c + Qsum l.
Proof.
  unfold Qlen. induction l as [|x l IH].
  - simpl. change (inject_Z 0) with 0. ring.
  - cbn [map Qsum length]. rewrite IH, Nat2Z.inj_succ. unfold Z.succ.
    rewrite inject_Z_plus. change (inject_Z 1) with 1. ring.
Qed.

Lemma Qsum_map_opp l : Qsum (map Qopp l) == - Qsum l.
Proof. induction l as [|x l IH]; simpl; [reflexivity | rewrite IH; ring]. Qed.

Lemma sum_sq_dev_shift c l : sum_sq_dev (map (fun r => c + r) l) == sum_sq_dev l.
Proof.
  destruct l as [|y l]; [reflexivity|].
  set (L := y :: l).
  assert (Hn : 0 < Qlen L).
  { unfold Qlen. change 0 with (inject_Z 0). rewrite <- Zlt_Qlt. simpl. lia. }
  assert (Em : mean (map (fun r => c + r) L) == c + mean L).
  { assert (El : Qlen (map (fun r => c + r) L) = Qlen L)
      by (unfold Qlen; by rewrite length_map).
    unfold mean. rewrite Qsum_map_shift, El. field. lra. }
  unfold sum_sq_dev. rewrite map_map. apply Qsum_map_ext.
  intros x. rewrite Em. ring.
Qed.

Lemma sum_sq_dev_opp l : sum_sq_dev (map Qopp l) == sum_sq_dev l.
Proof.
  assert (Em : mean (map Qopp l) == - mean l).
  { unfold mean. rewrite Qsum_map_opp. unfold Qlen. rewrite length_map.
    unfold Qdiv. ring. }
  unfold sum_sq_dev. rewrite map_map. apply Qsum_map_ext.
  intros x. rewrite Em. ring.
Qed.

Lemma Qsum_ge_In l v :
  Forall (fun x => 0 <= x) l -> In v l -> v <= Qsum l.
Proof.
  induction 1 as [|x l Hx Hl IH]; [intros []|].
  pose proof (Qsum_nonneg l Hl). intros [->|Hv]; cbn [Qsum]; [lra|].
  specialize (IH Hv). lra.
Qed.

Lemma sum_sq_dev_pos l x y :
  In x l -> In y l -> ~ x == y -> 0 < sum_sq_dev l.
Proof.
  intros Hx Hy Hxy. unfold sum_sq_dev.
  generalize (mean l). intros m.
  assert (Hall : Forall (fun v => 0 <= v) (map (fun z => (z - m) * (z - m)) l)).
  { apply List.Forall_forall. intros v Hv. apply in_map_iff in Hv.
    destruct Hv as [z [<- _]]. generalize (z - m). intros d. nra. }
  pose proof (Qsum_ge_In _ ((x - m) * (x - m)) Hall
                (in_map (fun z => (z - m) * (z - m)) l x Hx)) as H1.
  pose proof (Qsum_ge_In _ ((y - m) * (y - m)) Hall
                (in_map (fun z => (z - m) * (z - m)) l y Hy)) as H2.
  set (S := Qsum _) in *.
  destruct (Qlt_le_dec 0 S) as [Hpos|Hle]; [exact Hpos|].
  exfalso. apply Hxy.
  assert (Hx0 : 0 <= (x - m) * (x - m)) by (generalize (x - m); intros d; nra).
  assert (Hy0 : 0 <= (y - m) * (y - m)) by (generalize (y - m); intros d; nra).
  assert (Ex : (x - m) * (x - m) == 0) by lra.
  assert (Ey : (y - m) * (y - m) == 0) by lra.
  assert (x - m == 0) by (destruct (Qmult_integral _ _ Ex); assumption).
  assert (y - m == 0) by (destruct (Qmult_integral _ _ Ey); assumption).
  lra.
Qed.

Lemma clamp01_id x : 0 <= x -> x <= 1 -> clamp01 x == x.
Proof.
  intros H0 H1. unfold clamp01. rewrite (Q.min_r 1 x) by exact H1.
  apply Q.max_r. exact H0.
Qed.

Lemma strength_of_equal tv rv :
  tv == rv -> 0 < tv -> strength_of (Some tv) (Some rv) == 1 # 2.
Proof.
  intros E Hpos.
  destruct (strength_of_defined tv rv) as [_ H]. rewrite H by lra.
  assert (Eh : tv / (tv + rv) == 1 # 2) by (rewrite <- E; field; lra).
  rewrite clamp01_id; rewrite Eh; lra.
Qed.

Lemma svariance_values l :
  (2 <= length l)%nat ->
  svariance (map Some l) = Some (sum_sq_dev l / (Qlen l - 1)).
Proof.
  intros H. unfold svariance. rewrite dropna_map_Some.
  destruct (Nat.ltb_spec (length l) 2); [lia | reflexivity].
Qed.

(** A decomposition method that returns the values as the trend, leaving
    at the first position a residue of 10^-13 which the residual
    compensates, as a floating-point method leaves rounding residue on a
    constant series. *)
Definition residue (i : nat) : Q :=
  if (i =? 0)%nat then 1 # 10000000000000 else 0.

Definition with_residue (clean_series : list Q) : Components :=
  {| trend := imap (fun i x => Some (x + residue i)) clean_series;
     seasonal := map (fun _ => Some 0) clean_series;
     residual := imap (fun i _ => Some (- residue i)) clean_series |}.

Lemma with_residue_strengths c n :
  (2 <= n)%nat ->
  _calculate_trend_strength (with_residue (repeat c n)) == 1 # 2 /\
  _calculate_seasonal_strength (with_residue (repeat c n)) == 0.
Proof.
  intros Hn.
  set (rho := map residue (seq 0 n)).
  assert (Hlen : length rho = n) by (unfold rho; by rewrite length_map, length_seq).
  assert (Et : trend (with_residue (repeat c n)) = map Some (map (fun r => c + r) rho)).
  { cbn [with_residue trend]. rewrite imap_repeat_seq. unfold rho.
    by rewrite !map_map. }
  assert (Er : residual (with_residue (repeat c n)) = map Some (map Qopp rho)).
  { cbn [with_residue residual]. rewrite imap_repeat_seq. unfold rho.
    by rewrite !map_map. }
  assert (Es : seasonal (with_residue (repeat c n)) = map Some (repeat 0 n)).
  { cbn [with_residue seasonal]. clear. induction n as [|n IH]; [reflexivity|].
    simpl. by rewrite IH. }
  assert (Hpos : 0 < sum_sq_dev rho).
  { apply (sum_sq_dev_pos rho (residue 0) (residue 1)).
    - unfold rho. apply in_map. apply in_seq. lia.
    - unfold rho. apply in_map. apply in_seq. lia.
    - vm_compute. discriminate. }
  assert (Hq : 0 < Qlen rho - 1).
  { unfold Qlen. rewrite Hlen.
    assert (2 <= inject_Z (Z.of_nat n)).
    { change 2 with (inject_Z 2). rewrite <- Zle_Qle. lia. }
    lra. }
  unfold _calculate_trend_strength, _calculate_seasonal_strength.
  rewrite Et, Er, Es, !dropna_map_Some.
  rewrite !svariance_values
    by (rewrite ?length_map, ?repeat_length; lia).
  assert (L1 : Qlen (map (fun r => c + r) rho) = Qlen rho)
    by (unfold Qlen; by rewrite length_map).
  assert (L2 : Qlen (map Qopp rho) = Qlen rho)
    by (unfold Qlen; by rewrite length_map).
  rewrite L1, L2.
  pose proof (sum_sq_dev_shift c rho) as S1.
  pose proof (sum_sq_dev_opp rho) as S2.
  split.
  - apply strength_of_equal.
    + rewrite S1, S2. reflexivity.
    + rewrite S1. apply Qlt_shift_div_l; lra.
  - apply strength_of_zero_component.
    rewrite sum_sq_dev_repeat. unfold Qdiv. ring.
Qed.

(** C5, as stated, fails in its example: a constant series of 120 values
    100, decomposed into components that add up to it but carry a
    rounding residue in trend and residual, has variances whose sum is
    not 0, and its trend strength is 1/2, not 0. *)
Lemma C5_counterexample :
  match decompose_series with_residue (map Some (repeat 100 120)) with
  | inr r =>
      trend_strength r == 1 # 2 /\ seasonal_strength r == 0 /\
      ~ trend_strength r == 0
  | inl _ => False
  end.
Proof.
  assert (P : _prepare_series (map Some (repeat 100 120)) = inr (repeat 100 120))
    by (vm_compute; reflexivity).
  unfold decompose_series. rewrite P.
  cbn [trend_strength seasonal_strength].
  destruct (with_residue_strengths 100 120 ltac:(lia)) as [Ht Hs].
  split; [exact Ht|]. split; [exact Hs|]. rewrite Ht. discriminate.
Qed.

(** C5 (amended): the strengths returned by a successful decomposition
    are those computed from the components the method returned for the
    prepared series; both lie in [0,1]; with both variances defined each
    is Var(component) / (Var(component) + Var(residual)) clamped to
    [0,1], and 0 when the two variances sum to 0; with an undefined
    (NaN) variance the strength is 1.  A constant series gives 0 only
    through components of zero variance. *)
Theorem C5_strength (method : list Q -> Components) (series : list (option Q))
    (r : DecompositionResult) :
  decompose_series method series = inr r ->
  _prepare_series series = inr (original r) /\
  components r = method (original r) /\
  seasonal_strength r = _calculate_seasonal_strength (components r) /\
  trend_strength r = _calculate_trend_strength (components r) /\
  0 <= seasonal_strength r <= 1 /\
  0 <= trend_strength r <= 1 /\
  (forall sv rv,
     svariance (seasonal (components r)) = Some sv ->
     svariance (residual (components r)) = Some rv ->
     (sv + rv == 0 -> seasonal_strength r == 0) /\
     (~ sv + rv == 0 -> seasonal_strength r == clamp01 (sv / (sv + rv)))) /\
  (forall tv rv,
     svariance (trend (components r)) = Some tv ->
     svariance (residual (components r)) = Some rv ->
     (tv + rv == 0 -> trend_strength r == 0) /\
     (~ tv + rv == 0 -> trend_strength r == clamp01 (tv / (tv + rv)))) /\
  (svariance (seasonal (components r)) = None \/
   svariance (residual (components r)) = None -> seasonal_strength r == 1) /\
  (svariance (trend (components r)) = None \/
   svariance (residual (components r)) = None -> trend_strength r == 1).
Proof.
  unfold decompose_series.
  destruct (_prepare_series series) as [e|clean]; [discriminate|].
  intros [= <-]. cbn [original components seasonal_strength trend_strength].
  unfold _calculate_seasonal_strength, _calculate_trend_strength.
  rewrite !svariance_dropna.
  split; [reflexivity|]. split; [reflexivity|].
  split; [reflexivity|]. split; [reflexivity|].
  split; [apply strength_of_bounds|]. split; [apply strength_of_bounds|].
  split; [|split; [|split]].
  - intros sv rv -> ->. apply strength_of_defined.
  - intros tv rv -> ->. apply strength_of_defined.
  - apply strength_of_nan.
  - apply strength_of_nan.
Qed.

(** A method that returns the values as the trend, with an alternating
    residual of size 1. *)
Definition trend_and_noise (clean_series : list Q) : Components :=
  {| trend := map Some clean_series;
     seasonal := map (fun _ => Some 0) clean_series;
     residual := imap (fun i _ => Some (if Nat.even i then 1 else -1)) clean_series |}.

Lemma C5_strength_witness :
  exists r,
    decompose_series trend_and_noise (map Some ramp) = inr r /\
    0 <= trend_strength r <= 1 /\
    trend_strength r = _calculate_trend_strength (components r).
Proof.
  eexists. split; [reflexivity|].
  destruct (C5_strength trend_and_noise (map Some ramp) _ eq_refl)
    as (_ & _ & _ & Ht & _ & Hb & _).
  split; [exact Hb | exact Ht].
Defined.

(** *** CUSUM level-shift detection *)

Lemma cusum_step_breaks mean_val std k st iv :
  breaks (cusum_step mean_val std k st iv) = breaks st \/
  (exists sig,
     breaks (cusum_step mean_val std k st iv) = breaks st ++ [(fst iv, sig)] /\
     cusum_pos (cusum_step mean_val std k st iv) = 0 /\
     cusum_neg (cusum_step mean_val std k st iv) = 0 /\
     (4 * std < py_max 0 (cusum_pos st + snd iv - mean_val - (1 # 2) * std) \/
      4 * std < py_max 0 (cusum_neg st - snd iv + mean_val - (1 # 2) * std)) /\
     (k <= fst iv)%nat).
Proof.
  destruct iv as [i v]. unfold cusum_step.
  destruct (_ && _ && _) eqn:E; simpl; [|by left].
  right. eexists. split; [reflexivity|]. split; [reflexivity|]. split; [reflexivity|].
  apply andb_prop in E. destruct E as [E _]. apply andb_prop in E.
  destruct E as [E1 E2]. split.
  - apply orb_prop in E1. destruct E1 as [E1|E1]; apply Qlt_bool_iff in E1; tauto.
  - by apply Nat.leb_le.
Qed.

(** 98 zeros with two consecutive ones at positions 50 and 51. *)
Definition two_jumps : list Q := repeat 0 50 ++ [1; 1] ++ repeat 0 48.

(** C6, the minimum-gap part, fails on the code: the gap test subtracts the
    last break's significance (the second component of the stored pair)
    instead of its index, so with [min_segment_length = 30] breaks are
    reported at the adjacent positions 50 and 51.  The series has standard
    deviation 7/50, survives preparation, and the same breaks are reported
    on the prepared values. *)
Theorem C6_cusum_gap_not_enforced :
  length two_jumps = 100%nat /\
  is_np_std two_jumps (7 # 50) /\
  map fst (_cusum_detection (7 # 50) two_jumps 30) = [50%nat; 51%nat] /\
  match _prepare_series (map Some two_jumps) with
  | inr clean =>
      Forall2 Qeq clean two_jumps /\
      map fst (_cusum_detection (7 # 50) clean 30) = [50%nat; 51%nat]
  | inl _ => False
  end.
Proof.
  split; [reflexivity|]. split.
  - split; [vm_compute; discriminate | vm_compute; reflexivity].
  - split; [vm_compute; reflexivity|].
    vm_compute. split; [|reflexivity].
    repeat (constructor; [reflexivity|]). constructor.
Qed.

(** *** Invariants of the CUSUM loop *)

Lemma cusum_step_cases mean_val std k st iv :
  let p := py_max 0 (cusum_pos st + snd iv - mean_val - (1 # 2) * std) in
  let n := py_max 0 (cusum_neg st - snd iv + mean_val - (1 # 2) * std) in
  (cusum_step mean_val std k st iv =
     {| cusum_pos := p; cusum_neg := n; breaks := breaks st |}) \/
  (cusum_step mean_val std k st iv =
     {| cusum_pos := 0; cusum_neg := 0;
        breaks := breaks st ++ [(fst iv, py_max p n / (4 * std))] |} /\
   (4 * std < p \/ 4 * std < n) /\ (k <= fst iv)%nat).
Proof.
  destruct iv as [i v]. unfold cusum_step. simpl.
  destruct (_ && _ && _) eqn:E; [|by left].
  right. split; [reflexivity|].
  apply andb_prop in E. destruct E as [E _]. apply andb_prop in E.
  destruct E as [E1 E2]. split.
  - apply orb_prop in E1. destruct E1 as [E1|E1]; apply Qlt_bool_iff in E1; tauto.
  - by apply Nat.leb_le.
Qed.

Lemma imap_fst {A} (g : nat -> nat) (l : list A) :
  map fst (imap (fun i v => (g i, v)) l) = map g (seq 0 (length l)).
Proof.
  revert g. induction l as [|x l IH]; intros g; [reflexivity|].
  simpl. f_equal. rewrite <- seq_shift, map_map. apply (IH (g ∘ S)).
Qed.

Lemma cusum_entries_indices (values : list Q) :
  map fst (tail (imap (fun i v => (i, v)) values)) = seq 1 (length values - 1).
Proof.
  destruct values as [|x l]; [reflexivity|].
  simpl. rewrite Nat.sub_0_r.
  etransitivity; [apply (imap_fst S l)|]. by rewrite seq_shift.
Qed.

(** The breaks reported on a prefix of the entries: positions taken from
    the entries, at least [k], with significance above 1 when [std > 0]. *)
Definition break_ok (std : Q) (k : nat) (positions : list nat) (b : nat * Q) : Prop :=
  In (fst b) positions /\ (k <= fst b)%nat /\ (0 < std -> 1 < snd b).

Lemma cusum_foldl_inv mean_val std k entries :
  StronglySorted lt (map fst entries) ->
  let st := foldl (cusum_step mean_val std k)
                  {| cusum_pos := 0; cusum_neg := 0; breaks := [] |} entries in
  Forall (break_ok std k (map fst entries)) (breaks st) /\
  StronglySorted lt (map fst (breaks st)).
Proof.
  induction entries as [|iv entries IH] using rev_ind; intros Hs; simpl.
  - split; constructor.
  - rewrite foldl_app. simpl. rewrite map_app in Hs. simpl in Hs.
    assert (Hs' : StronglySorted lt (map fst entries)).
    { clear - Hs. induction (map fst entries) as [|a l IHl]; [constructor|].
      simpl in Hs. inversion Hs as [|? ? Hl Ha]; subst.
      constructor; [by apply IHl|].
      rewrite List.Forall_forall in *. intros x Hx. apply Ha.
      apply in_or_app. by left. }
    assert (Hlast : forall j, In j (map fst entries) -> (j < fst iv)%nat).
    { clear - Hs. induction (map fst entries) as [|a l IHl]; [intros j []|].
      simpl in Hs. inversion Hs as [|? ? Hl Ha]; subst.
      intros j [<-|Hj]; [|by apply IHl].
      rewrite List.Forall_forall in Ha. apply Ha. apply in_or_app. right. by left. }
    specialize (IH Hs'). destruct IH as [IH1 IH2].
    set (st := foldl (cusum_step mean_val std k)
                 {| cusum_pos := 0; cusum_neg := 0; breaks := [] |} entries) in *.
    assert (Hweak : Forall (break_ok std k (map fst (entries ++ [iv]))) (breaks st)).
    { eapply List.Forall_impl; [|exact IH1]. intros b (Hb1 & Hb2 & Hb3).
      split; [|tauto]. rewrite map_app. apply in_or_app. by left. }
    destruct (cusum_step_cases mean_val std k st iv) as [E|(E & Hcross & Hk)];
      rewrite E; simpl.
    + split; assumption.
    + split.
      * apply Forall_app. split; [exact Hweak|]. constructor; [|constructor].
        split; [|split]; simpl.
        -- rewrite map_app. apply in_or_app. right. by left.
        -- exact Hk.
        -- intros Hstd.
           set (p := py_max 0 (cusum_pos st + snd iv - mean_val - (1 # 2) * std)) in *.
           set (n := py_max 0 (cusum_neg st - snd iv + mean_val - (1 # 2) * std)) in *.
           pose proof (py_max_ge p n) as [Hp Hn].
           apply Qlt_shift_div_l; lra.
      * rewrite map_app. simpl.
        clear - IH1 IH2 Hlast.
        induction (breaks st) as [|b l IHl]; simpl.
        -- constructor; constructor.
        -- inversion IH1 as [|? ? Hb Hl]; subst.
           simpl in IH2. inversion IH2 as [|? ? Hsl Hbl]; subst.
           constructor; [by apply IHl|].
           apply Forall_app. split; [exact Hbl|].
           constructor; [|constructor]. apply Hlast. by destruct Hb.
Qed.

Lemma seq_strongly_sorted a n : StronglySorted lt (seq a n).
Proof.
  revert a. induction n as [|n IH]; intros a; simpl; constructor; [apply IH|].
  apply List.Forall_forall. intros x Hx. apply in_seq in Hx. lia.
Qed.

(** X6: every level-shift break is reported at a position of the series
    that is at least [min_segment_length] (and at least 1), positions are
    strictly increasing, and with a positive standard deviation every
    significance is above 1. *)
Theorem X6_cusum_breaks (std : Q) (values : list Q) (min_segment_length : nat) :
  Forall (fun b => (1 <= fst b < length values)%nat /\
                   (min_segment_length <= fst b)%nat /\
                   (0 < std -> 1 < snd b))
         (_cusum_detection std values min_segment_length) /\
  StronglySorted lt (map fst (_cusum_detection std values min_segment_length)).
Proof.
  unfold _cusum_detection, cusum_run.
  pose proof (cusum_foldl_inv (mean values) std min_segment_length
                (tail (imap (fun i v => (i, v)) values))) as H.
  rewrite cusum_entries_indices in H.
  specialize (H (seq_strongly_sorted 1 _)). destruct H as [H1 H2].
  split; [|exact H2].
  eapply List.Forall_impl; [|exact H1]. intros b (Hb1 & Hb2 & Hb3).
  apply in_seq in Hb1. split; [lia | tauto].
Qed.

(** *** What preparation does to each value *)

(** X8: a successful preparation keeps the number and order of the clean
    observations; each value ends inside the [1st, 99th] percentile band
    of the clean series, unchanged if it was inside, moved to the nearer
    bound otherwise. *)
Theorem X8_prepare_winsorizes (series : list (option Q)) (clean : list Q) :
  _prepare_series series = inr clean ->
  let q01 := quantile (1 # 100) (dropna series) in
  let q99 := quantile (99 # 100) (dropna series) in
  (100 <= length clean)%nat /\
  length clean = length (dropna series) /\
  q01 <= q99 /\
  (forall (i : nat) x, dropna series !! i = Some x ->
     exists y, clean !! i = Some y /\
               q01 <= y /\ y <= q99 /\
               (q01 <= x -> x <= q99 -> y == x) /\
               (x < q01 -> y == q01) /\
               (q99 < x -> y == q99)).
Proof.
  intros H q01 q99. apply prepare_inr in H. destruct H as [Hlen ->].
  fold q01 q99.
  assert (Hband : q01 <= q99) by (apply quantile_mono; lra).
  rewrite length_map. split; [exact Hlen|]. split; [reflexivity|].
  split; [exact Hband|].
  intros i x Hx. exists (clip q01 q99 x).
  rewrite list_lookup_fmap, Hx. split; [reflexivity|].
  destruct (clip_bounds q01 q99 x Hband) as [H1 H2].
  split; [exact H1|]. split; [exact H2|]. split; [|split].
  - intros. by apply clip_id.
  - intros Hlt. unfold clip. rewrite Q.max_r by lra. apply Q.min_l. exact Hband.
  - intros Hgt. unfold clip. rewrite Q.max_l by lra. apply Q.min_r. lra.
Qed.

Lemma X8_prepare_winsorizes_witness :
  exists clean,
    _prepare_series (map Some ramp) = inr clean /\ length clean = 100%nat.
Proof.
  eexists. split; [reflexivity|].
  destruct (X8_prepare_winsorizes (map Some ramp) _ eq_refl) as (_ & H & _).
  rewrite H. reflexivity.
Defined.

(** *** The other decomposition methods *)

(** Sum and difference of two series on the same index; NaN propagates. *)
Definition add_series (a b : list (option Q)) : list (option Q) :=
  zip_with (fun x y => match x, y with
                       | Some u, Some v => Some (u + v)
                       | _, _ => None
                       end) a b.

Definition sub_series (a b : list (option Q)) : list (option Q) :=
  zip_with (fun x y => match x, y with
                       | Some u, Some v => Some (u - v)
                       | _, _ => None
                       end) a b.

(** [_advanced_decomposition] on the result of the STL step; the
    Savitzky-Golay filter is a library call. *)
Definition _advanced_decomposition
    (savgol_filter : list (option Q) -> list (option Q))
    (stl_result : Components) : Components :=
  let residual := residual stl_result in
  let smoothed_residual :=
    if (21 <? length residual)%nat then savgol_filter residual else residual in
  let enhanced_trend :=
    add_series (trend stl_result) (sub_series residual smoothed_residual) in
  {| trend := enhanced_trend;
     seasonal := seasonal stl_result;
     residual := smoothed_residual |}.

(** X9: the advanced decomposition moves the part of the residual removed
    by smoothing into the trend: wherever the components are finite, the
    sum trend + seasonal + residual of its result equals that of the STL
    result; for a residual of at most 21 points the residual is kept. *)
Theorem X9_advanced_keeps_sum
    (savgol_filter : list (option Q) -> list (option Q)) (stl_result : Components) :
  let result := _advanced_decomposition savgol_filter stl_result in
  (forall (i : nat) t sv r m,
     trend stl_result !! i = Some (Some t) ->
     seasonal stl_result !! i = Some (Some sv) ->
     residual stl_result !! i = Some (Some r) ->
     residual result !! i = Some (Some m) ->
     exists t', trend result !! i = Some (Some t') /\
                seasonal result !! i = Some (Some sv) /\
                t' + sv + m == t + sv + r) /\
  ((length (residual stl_result) <= 21)%nat ->
   residual result = residual stl_result).
Proof.
  intros result. subst result. unfold _advanced_decomposition. simpl. split.
  - intros i t sv r m Ht Hs Hr Hm.
    exists (t + (r - m)). split; [|split; [exact Hs | ring]].
    unfold add_series, sub_series.
    rewrite lookup_zip_with, Ht. simpl.
    rewrite lookup_zip_with, Hr. simpl. rewrite Hm. reflexivity.
  - intros Hlen. destruct (Nat.ltb_spec 21 (length (residual stl_result)));
      [lia | reflexivity].
Qed.

(** The default smoothing parameter of [_hp_filter_decomposition]. *)
Definition hp_lambda (series : list Q) (lamb : option Q) : Q :=
  match lamb with
  | Some l => l
  | None => if (365 <? length series)%nat then 129600 else 1600
  end.

(** [_hp_filter_decomposition]; [hpfilter] is the library filter: the
    first component of its result is stored as trend, the second as
    residual. *)
Definition _hp_filter_decomposition (hpfilter : list Q -> Q -> list Q * list Q)
    (series : list Q) (lamb : option Q) : Components :=
  let lamb := hp_lambda series lamb in
  let '(trend, residual) := hpfilter series lamb in
  {| trend := map Some trend;
     seasonal := repeat (Some 0) (length series);
     residual := map Some residual |}.

Lemma dropna_repeat_Some c n : dropna (repeat (Some c) n) = repeat c n.
Proof. induction n as [|n IH]; simpl; congruence. Qed.

(** X10: with the Hodrick-Prescott method (a filter that returns as many
    residuals as it was given values), [decompose_series] always reports a
    seasonal component of zeros and a seasonal strength of 0. *)
Theorem X10_hp_no_seasonality (hpfilter : list Q -> Q -> list Q * list Q)
    (lamb : option Q) (series : list (option Q)) (r : DecompositionResult) :
  (forall l lam, length (snd (hpfilter l lam)) = length l) ->
  decompose_series (fun s => _hp_filter_decomposition hpfilter s lamb) series = inr r ->
  seasonal (components r) = repeat (Some 0) (length (original r)) /\
  (100 <= length (original r))%nat /\
  seasonal_strength r == 0.
Proof.
  intros Hlen. unfold decompose_series.
  destruct (_prepare_series series) as [e|clean] eqn:Hp; [discriminate|].
  intros [= <-]. simpl.
  apply prepare_inr in Hp. destruct Hp as [Hn Hclean].
  assert (Hc : (100 <= length clean)%nat) by (rewrite Hclean, length_map; exact Hn).
  unfold _hp_filter_decomposition.
  specialize (Hlen clean (hp_lambda clean lamb)).
  destruct (hpfilter clean (hp_lambda clean lamb)) as [tr res]. simpl in *.
  split; [reflexivity|]. split; [exact Hc|].
  unfold _calculate_seasonal_strength. simpl.
  unfold svariance. rewrite dropna_repeat_Some, dropna_map_Some, repeat_length, Hlen.
  destruct (Nat.ltb_spec (length clean) 2); [lia|].
  apply strength_of_zero_component.
  rewrite sum_sq_dev_repeat. unfold Qdiv. ring.
Qed.

Lemma X10_hp_no_seasonality_witness :
  exists r,
    decompose_series
      (fun s => _hp_filter_decomposition (fun l _ => (l, map (fun x => x - 50) l)) s None)
      (map Some ramp) = inr r /\
    seasonal_strength r == 0.
Proof.
  eexists. split; [reflexivity|].
  refine (proj2 (proj2 (X10_hp_no_seasonality
                          (fun l _ => (l, map (fun x => x - 50) l)) None
                          (map Some ramp) _ _ eq_refl))).
  intros l lam. simpl. apply length_map.
Defined.

(** [series.rolling(window=w).mean()] *)
Definition rolling_mean (w : nat) (l : list Q) : list (option Q) :=
  map (fun i => if (i + 1 <? w)%nat then None
                else Some (mean (firstn w (skipn (i + 1 - w) l))))
      (seq 0 (length l)).

(** [Series.diff()] *)
Definition diff (l : list (option Q)) : list (option Q) :=
  match l with
  | [] => []
  | _ :: t =>
      None :: zip_with (fun a b => match a, b with
                                   | Some u, Some v => Some (v - u)
                                   | _, _ => None
                                   end) l t
  end.

Definition abs_series (l : list (option Q)) : list (option Q) :=
  map (option_map Qabs) l.

(** [Series.quantile(q)]: missing values are skipped, NaN when none is left. *)
Definition quantile_skipna (q : Q) (l : list (option Q)) : option Q :=
  match dropna l with
  | [] => None
  | xs => Some (quantile q xs)
  end.

(** [min(1.0, change_rate / threshold)]; a zero threshold makes the ratio
    infinite. *)
Definition significance (threshold change_rate : Q) : Q :=
  if Qeq_bool threshold 0 then 1 else py_min 1 (change_rate / threshold).

(** [_trend_change_detection]: positions and significances. *)
Definition _trend_change_detection (series : list Q) (min_segment_length : nat) :
    list (nat * Q) :=
  let window_size := Nat.max 30 min_segment_length in
  let rolling := rolling_mean window_size series in
  let trend_slope := diff rolling in
  let slope_change := abs_series (diff trend_slope) in
  match quantile_skipna (95 # 100) slope_change with
  | None => []
  | Some threshold =>
      flat_map (fun ic =>
                  match snd ic with
                  | Some change_rate =>
                      if Qlt_bool threshold change_rate
                      then [(fst ic, significance threshold change_rate)]
                      else []
                  | None => []
                  end)
               (imap (fun i c => (i, c)) slope_change)
  end.

Lemma diff_length l : length (diff l) = length l.
Proof.
  destruct l as [|x t]; [reflexivity|]. unfold diff. cbn [length].
  rewrite length_zip_with. cbn [length]. lia.
Qed.

Lemma dropna_In l x : In x (dropna l) -> In (Some x) l.
Proof.
  induction l as [|[y|] l IH]; simpl; [tauto| |].
  - intros [->|H]; [by left | right; by apply IH].
  - intros H. right. by apply IH.
Qed.

Lemma significance_above threshold change_rate :
  0 <= threshold -> threshold < change_rate ->
  significance threshold change_rate = 1.
Proof.
  intros H0 Hlt. unfold significance.
  destruct (Qeq_bool threshold 0) eqn:E; [reflexivity|].
  assert (Hpos : 0 < threshold).
  { destruct (Qlt_le_dec 0 threshold) as [H|H]; [exact H|].
    assert (Hz : threshold == 0) by lra. apply Qeq_bool_iff in Hz. congruence. }
  unfold py_min. destruct (Qlt_bool (change_rate / threshold) 1) eqn:E1; [|reflexivity].
  apply Qlt_bool_iff in E1.
  assert (1 < change_rate / threshold) by (apply Qlt_shift_div_l; lra). lra.
Qed.

(** X11: every trend-change break is at a position of the series and has
    significance exactly 1.0: a reported change exceeds the threshold, so
    the ratio capped by [min(1.0, .)] is always above 1. *)
Theorem X11_trend_change_significance (series : list Q) (min_segment_length : nat) :
  Forall (fun b => (fst b < length series)%nat /\ snd b = 1)
         (_trend_change_detection series min_segment_length).
Proof.
  unfold _trend_change_detection.
  set (change := abs_series (diff (diff (rolling_mean _ series)))).
  assert (Hlen : length change = length series).
  { unfold change, abs_series, rolling_mean.
    by rewrite length_map, !diff_length, length_map, length_seq. }
  unfold quantile_skipna.
  destruct (dropna change) as [|x0 xs] eqn:Hd; [constructor|].
  assert (Hthr : 0 <= quantile (95 # 100) (x0 :: xs)).
  { apply quantile_ge; [lra | lra | discriminate |].
    rewrite <- Hd. apply List.Forall_forall. intros x Hx.
    apply dropna_In in Hx. unfold change, abs_series in Hx.
    apply in_map_iff in Hx. destruct Hx as [[y|] [Hy _]]; [|discriminate].
    simpl in Hy. injection Hy as <-. apply Qabs_nonneg. }
  apply List.Forall_forall. intros b Hb. apply in_flat_map in Hb.
  destruct Hb as [[i oc] [Hin Hb]]. simpl in Hb.
  destruct oc as [c|]; [|inversion Hb].
  destruct (Qlt_bool (quantile (95 # 100) (x0 :: xs)) c) eqn:E; [|inversion Hb].
  destruct Hb as [<-|[]]. simpl. apply Qlt_bool_iff in E. split.
  - apply list_elem_of_In, elem_of_lookup_imap in Hin.
    destruct Hin as (j & y & Heq & Hj). injection Heq as Hi Hy. subst j y.
    apply lookup_lt_Some in Hj. lia.
  - by apply significance_above.
Qed.

(** *** All structural breaks together *)

Inductive BreakKind :=
  | level_shift
  | variance_change
  | trend_change.

(** A break: the position of its date in the (date-ordered) index, its
    kind and its significance. *)
Definition Break : Type := nat * BreakKind * Q.

Definition break_date (b : Break) : nat := fst (fst b).

Fixpoint insert_break (b : Break) (l : list Break) : list Break :=
  match l with
  | [] => [b]
  | y :: t =>
      if (break_date b <=? break_date y)%nat then b :: l
      else y :: insert_break b t
  end.

(** [breaks.sort(key=lambda x: x[0])]: a stable sort by date. *)
Definition sort_breaks (l : list Break) : list Break :=
  foldr insert_break [] l.

Section StructuralBreaks.

(** [np.std] of the prepared values and the variance-change detector
    (rolling standard deviations) are parameters. *)
Variable np_std : list Q -> Q.
Variable _variance_change_detection : list Q -> nat -> list (nat * Q).

Definition detect_structural_breaks (series : list (option Q))
    (min_segment_length : nat) : Exception + list Break :=
  match _prepare_series series with
  | inl e => inl e
  | inr clean_series =>
      let cusum_breaks :=
        _cusum_detection (np_std clean_series) clean_series min_segment_length in
      let variance_breaks :=
        _variance_change_detection clean_series min_segment_length in
      let trend_breaks := _trend_change_detection clean_series min_segment_length in
      inr (sort_breaks
             (map (fun b => (fst b, level_shift, snd b)) cusum_breaks ++
              map (fun b => (fst b, variance_change, snd b)) variance_breaks ++
              map (fun b => (fst b, trend_change, snd b)) trend_breaks))
  end.

End StructuralBreaks.

Lemma insert_break_perm b l : Permutation (insert_break b l) (b :: l).
Proof.
  induction l as [|y l IH]; simpl; [reflexivity|].
  destruct (break_date b <=? break_date y)%nat; [reflexivity|].
  rewrite IH. apply perm_swap.
Qed.

Lemma sort_breaks_perm l : Permutation (sort_breaks l) l.
Proof.
  induction l as [|b l IH]; simpl; [reflexivity|].
  rewrite insert_break_perm. by constructor.
Qed.

Lemma insert_break_sorted b l :
  StronglySorted le (map break_date l) ->
  StronglySorted le (map break_date (insert_break b l)).
Proof.
  induction l as [|y l IH]; simpl; intros Hs.
  - constructor; constructor.
  - inversion Hs as [|? ? Hl Hy]; subst.
    destruct (Nat.leb_spec (break_date b) (break_date y)); simpl.
    + constructor; [exact Hs|]. constructor; [lia|].
      eapply List.Forall_impl; [|exact Hy]. simpl. intros; lia.
    + constructor; [by apply IH|].
      apply List.Forall_forall. intros d Hd. apply in_map_iff in Hd.
      destruct Hd as [x [<- Hx]].
      apply (Permutation_in _ (insert_break_perm b l)) in Hx.
      destruct Hx as [<-|Hx]; [lia|].
      rewrite List.Forall_forall in Hy. apply Hy. by apply in_map.
Qed.

Lemma sort_breaks_sorted l : StronglySorted le (map break_date (sort_breaks l)).
Proof.
  induction l as [|b l IH]; simpl; [constructor | by apply insert_break_sorted].
Qed.

(** X12: structural-break detection fails with the too-short error on
    fewer than 100 clean observations; otherwise it returns every break of
    the three detectors (no break is dropped or merged), ordered by date. *)
Theorem X12_structural_breaks (np_std : list Q -> Q)
    (variance_detection : list Q -> nat -> list (nat * Q))
    (series : list (option Q)) (min_segment_length : nat) :
  ((length (dropna series) < 100)%nat ->
   detect_structural_breaks np_std variance_detection series min_segment_length =
   inl (ValueError (length (dropna series)))) /\
  (forall result,
     detect_structural_breaks np_std variance_detection series min_segment_length =
     inr result ->
     exists clean,
       _prepare_series series = inr clean /\
       StronglySorted le (map break_date result) /\
       Permutation result
         (map (fun b => (fst b, level_shift, snd b))
              (_cusum_detection (np_std clean) clean min_segment_length) ++
          map (fun b => (fst b, variance_change, snd b))
              (variance_detection clean min_segment_length) ++
          map (fun b => (fst b, trend_change, snd b))
              (_trend_change_detection clean min_segment_length)) /\
       length result =
         (length (_cusum_detection (np_std clean) clean min_segment_length)
          + length (variance_detection clean min_segment_length)
          + length (_trend_change_detection clean min_segment_length))%nat).
Proof.
  unfold detect_structural_breaks. split.
  - intros Hlen. unfold _prepare_series, MIN_LENGTH.
    destruct (Nat.ltb_spec (length (dropna series)) 100); [reflexivity | lia].
  - intros result. destruct (_prepare_series series) as [e|clean]; [discriminate|].
    intros [= <-]. exists clean. split; [reflexivity|].
    split; [apply sort_breaks_sorted|]. split; [apply sort_breaks_perm|].
    rewrite (Permutation_length (sort_breaks_perm _)).
    rewrite !length_app, !length_map. lia.
Qed.

(** *** The seasonality score *)

(** What [series.autocorr(lag)] does: it raises, returns NaN, or returns
    a correlation. *)
Inductive Autocorr :=
  | AcRaises
  | AcNaN
  | AcValue (r : Q).

(** The loop over the seasonal lags: [None] when a call raised, else the
    list [autocorr_scores]. *)
Fixpoint autocorr_scores (autocorr : nat -> Autocorr) (n : nat)
    (seasonal_lags : list nat) : option (list Q) :=
  match seasonal_lags with
  | [] => Some []
  | lag :: rest =>
      if (lag <? n)%nat then
        match autocorr lag with
        | AcRaises => None
        | AcNaN => autocorr_scores autocorr n rest
        | AcValue r =>
            match autocorr_scores autocorr n rest with
            | Some scores => Some (Qabs r :: scores)
            | None => None
            end
        end
      else autocorr_scores autocorr n rest
  end.

(** [_calculate_seasonality_score] for a series of [n] observations. *)
Definition _calculate_seasonality_score (autocorr : nat -> Autocorr) (n : nat) : Q :=
  let max_lag := Nat.min 365 (n / 4) in
  let seasonal_lags :=
    List.filter (fun lag => (lag <? max_lag)%nat) [7; 30; 91; 182; 365]%nat in
  match autocorr_scores autocorr n seasonal_lags with
  | Some [] => 0
  | Some scores => mean scores
  | None => 0
  end.

Lemma autocorr_scores_ext ac ac' n lags :
  (forall lag, In lag lags -> ac lag = ac' lag) ->
  autocorr_scores ac n lags = autocorr_scores ac' n lags.
Proof.
  induction lags as [|lag rest IH]; intros H; [reflexivity|]. simpl.
  rewrite <- (H lag (or_introl eq_refl)).
  rewrite IH by (intros l Hl; apply H; by right). reflexivity.
Qed.

Lemma autocorr_scores_bounds ac n lags scores :
  autocorr_scores ac n lags = Some scores ->
  Forall (fun x => 0 <= x) scores /\
  ((forall lag r, ac lag = AcValue r -> Qabs r <= 1) ->
   Forall (fun x => x <= 1) scores).
Proof.
  revert scores. induction lags as [|lag rest IH]; intros scores; simpl.
  - intros [= <-]. split; [constructor | intros _; constructor].
  - destruct (lag <? n)%nat; [|apply IH].
    destruct (ac lag) as [| |r] eqn:E; [discriminate | apply IH |].
    destruct (autocorr_scores ac n rest) as [rest_scores|]; [|discriminate].
    intros [= <-]. destruct (IH rest_scores eq_refl) as [H1 H2].
    split; [constructor; [apply Qabs_nonneg | exact H1]|].
    intros Hr. constructor; [by apply (Hr lag) | by apply H2].
Qed.

Lemma mean_between lo hi l :
  l <> [] -> Forall (fun x => lo <= x) l -> Forall (fun x => x <= hi) l ->
  lo <= mean l /\ mean l <= hi.
Proof.
  intros Hne Hlo Hhi. unfold mean, Qlen.
  assert (Hn : 0 < inject_Z (Z.of_nat (length l))).
  { change 0 with (inject_Z 0). rewrite <- Zlt_Qlt. destruct l; [congruence | simpl; lia]. }
  assert (H : inject_Z (Z.of_nat (length l)) * lo <= Qsum l /\
              Qsum l <= inject_Z (Z.of_nat (length l)) * hi).
  { clear Hne Hn. induction l as [|x l IH].
    - cbn [Qsum length]. change (inject_Z (Z.of_nat 0)) with 0. split; lra.
    - apply List.Forall_cons_iff in Hlo. apply List.Forall_cons_iff in Hhi.
      destruct Hlo as [Hx1 Hlo], Hhi as [Hx2 Hhi].
      destruct (IH Hlo Hhi) as [H1 H2]. simpl Qsum. simpl length.
      rewrite Nat2Z.inj_succ. unfold Z.succ. rewrite inject_Z_plus.
      change (inject_Z 1) with 1. split; lra. }
  destruct H as [H1 H2]. set (k := inject_Z (Z.of_nat (length l))) in *.
  split.
  - apply Qle_shift_div_l; [exact Hn | lra].
  - apply Qle_shift_div_r; [exact Hn | lra].
Qed.

(** X23: the seasonality score is never negative, and at most 1 when the
    autocorrelations are correlations (absolute value at most 1); it is 0
    for a series of fewer than 32 observations; and it depends only on the
    autocorrelations at lags below both 365 and a quarter of the series
    length, so the yearly lag 365 is never used however long the series
    is. *)
Theorem X23_seasonality_score (autocorr : nat -> Autocorr) (n : nat) :
  0 <= _calculate_seasonality_score autocorr n /\
  ((forall lag r, autocorr lag = AcValue r -> Qabs r <= 1) ->
   _calculate_seasonality_score autocorr n <= 1) /\
  ((n < 32)%nat -> _calculate_seasonality_score autocorr n = 0) /\
  (forall autocorr' : nat -> Autocorr,
     (forall lag, (lag < 365)%nat -> (lag < n / 4)%nat ->
                  autocorr lag = autocorr' lag) ->
     _calculate_seasonality_score autocorr n =
     _calculate_seasonality_score autocorr' n).
Proof.
  unfold _calculate_seasonality_score.
  set (lags := List.filter _ _).
  split; [|split; [|split]].
  - destruct (autocorr_scores autocorr n lags) as [[|x scores]|] eqn:E; try lra.
    destruct (autocorr_scores_bounds _ _ _ _ E) as [H _].
    pose proof (Qsum_nonneg _ H) as Hs. unfold mean.
    apply Qle_shift_div_l; [|lra].
    unfold Qlen. change 0 with (inject_Z 0). rewrite <- Zlt_Qlt. simpl. lia.
  - intros Hr.
    destruct (autocorr_scores autocorr n lags) as [[|x scores]|] eqn:E; try lra.
    destruct (autocorr_scores_bounds _ _ _ _ E) as [H0 H1].
    apply (mean_between 0 1); [discriminate | exact H0 | by apply H1].
  - intros Hn.
    assert (Hq : (n / 4 < 8)%nat) by (apply Nat.Div0.div_lt_upper_bound; lia).
    assert (El : lags = []).
    { subst lags. assert (Hm : (Nat.min 365 (n / 4) <= 7)%nat) by lia.
      revert Hm. generalize (Nat.min 365 (n / 4)). intros m Hm.
      cbn [List.filter].
      repeat match goal with
             | |- context [(?k <? m)%nat] => destruct (Nat.ltb_spec k m); [lia|]
             end.
      reflexivity. }
    rewrite El. reflexivity.
  - intros ac' Hag.
    rewrite (autocorr_scores_ext autocorr ac' n lags); [reflexivity|].
    intros lag Hl. unfold lags in Hl. apply filter_In in Hl. destruct Hl as [_ Hl].
    apply Nat.ltb_lt in Hl. apply Hag; lia.
Qed.

End Decomposition.

(** ** forecasting/models/arima_model.py : [forecast] *)
Module Arima.
Import Num.

(** What the fitted library model's [forecast] call produced: a bare
    array of point forecasts, a pair of point forecasts and native
    confidence bounds, or an exception. *)
Inductive ModelForecast :=
  | PointOnly (values : list Q)
  | WithBounds (values : list Q) (conf_int : list (Q * Q))
  | Raises.

Inductive ArimaException :=
  | NotFitted
  | ModelError
  | LengthMismatch.

(** The forecaster's state; dates are day ordinals, [last_date] is
    [model.data.orig_endog.index[-1]]. *)
Record ARIMAForecaster := {
  is_fitted : bool;
  model_forecast : nat -> Q -> ModelForecast;
  residuals : list Q;
  last_date : Z
}.

Record ARIMAForecastResult := {
  forecast_values : list Q;
  confidence_intervals : list (Q * Q);
  forecast_dates : list Z
}.

(** [pd.date_range(start, periods, freq='D')] *)
Definition date_range (start : Z) (periods : nat) : list Z :=
  map (fun i => (start + Z.of_nat i)%Z) (seq 0 periods).

Section Forecast.

(** [Series.std()] of the residuals (a square root) is a parameter. *)
Variable pd_std : list Q -> Q.

Definition forecast (self : ARIMAForecaster) (steps : nat) (alpha : Q) :
    ArimaException + ARIMAForecastResult :=
  if negb (is_fitted self) then inl NotFitted
  else
    let forecast_dates := date_range (last_date self + 1) steps in
    match model_forecast self steps alpha with
    | Raises => inl ModelError
    | WithBounds values conf_int =>
        if negb (length values =? steps)%nat || negb (length conf_int =? steps)%nat
        then inl LengthMismatch
        else inr {| forecast_values := values;
                    confidence_intervals := conf_int;
                    forecast_dates := forecast_dates |}
    | PointOnly values =>
        if negb (length values =? steps)%nat then inl LengthMismatch
        else
          let residual_std := pd_std (residuals self) in
          inr {| forecast_values := values;
                 confidence_intervals :=
                   map (fun v => (v - (196 # 100) * residual_std,
                                  v + (196 # 100) * residual_std)) values;
                 forecast_dates := forecast_dates |}
    end.





End Forecast.



(** *** Preparing the series *)

(** [_prepare_data]: as the decomposition's [_prepare_series], with a
    minimum of 50 clean observations. *)
Definition _prepare_data (series : list (option Q)) :
    Decomposition.Exception + list Q :=
  let clean_series := dropna series in
  if (length clean_series <? 50)%nat then
    inl (Decomposition.ValueError (length clean_series))
  else
    let q99 := quantile (99 # 100) clean_series in
    let q01 := quantile (1 # 100) clean_series in
    inr (map (clip q01 q99) clean_series).

(** X20: the ARIMA preparation rejects exactly the series with fewer than
    50 clean observations, reporting their number; whenever the
    decomposition's preparation accepts a series the ARIMA preparation
    accepts it too, with the same prepared series; and a series with 50 to
    99 clean observations is accepted for ARIMA but rejected for
    decomposition. *)
Theorem X20_prepare_data (series : list (option Q)) :
  let n := length (dropna series) in
  ((n < 50)%nat <-> _prepare_data series = inl (Decomposition.ValueError n)) /\
  ((50 <= n)%nat <-> exists clean, _prepare_data series = inr clean /\ length clean = n) /\
  (forall clean, Decomposition._prepare_series series = inr clean ->
                 _prepare_data series = inr clean) /\
  ((50 <= n < 100)%nat ->
     Decomposition._prepare_series series = inl (Decomposition.ValueError n) /\
     exists clean, _prepare_data series = inr clean).
Proof.
  intros n. unfold _prepare_data, Decomposition._prepare_series,
    Decomposition.MIN_LENGTH. fold n.
  destruct (Nat.ltb_spec n 50) as [H50|H50];
    destruct (Nat.ltb_spec n 100) as [H100|H100]; try lia.
  - split; [split; [reflexivity | intros _; exact H50]|].
    split; [split; [lia | intros [clean [Hc _]]; discriminate]|].
    split; [intros clean Hc; discriminate | lia].
  - split; [split; [lia | discriminate]|].
    split; [split; [|intros _; exact H50]|].
    + intros _. eexists. split; [reflexivity|]. by rewrite length_map.
    + split; [intros clean Hc; discriminate|].
      intros _. split; [reflexivity | by eexists].
  - split; [split; [lia | discriminate]|].
    split; [split; [|intros _; exact H50]|].
    + intros _. eexists. split; [reflexivity|]. by rewrite length_map.
    + split; [intros clean Hc; exact Hc | lia].
Qed.

(** *** Order selection by grid search *)

Abbreviation Order := (nat * nat * nat)%type.

(** The fields of [ARIMAConfig] that [_manual_order_selection] reads. *)
Record ARIMAConfig := {
  max_p : nat;
  max_d : nat;
  max_q : nat;
  information_criterion : string
}.

(** The orders in the sequence the three nested loops visit them. *)
Definition order_grid (config : ARIMAConfig) : list Order :=
  flat_map (fun p =>
    flat_map (fun d =>
      map (fun q => (p, d, q)) (seq 0 (max_q config + 1)))
      (seq 0 (max_d config + 1)))
    (seq 0 (max_p config + 1)).

(** The four loop variables. *)
Record Selection := {
  best_aic : ext;
  best_bic : ext;
  best_order_aic : Order;
  best_order_bic : Order
}.

(** One pass of the loop body; [fit order] is [Some (aic, bic)] of the
    fitted library model, [None] when constructing or fitting it raised. *)
Definition select_step (fit : Order -> option (Q * Q)) (st : Selection)
    (order : Order) : Selection :=
  match fit order with
  | None => st
  | Some (aic, bic) =>
      let st1 :=
        if ext_gt (best_aic st) aic then
          {| best_aic := Fin aic; best_bic := best_bic st;
             best_order_aic := order; best_order_bic := best_order_bic st |}
        else st in
      if ext_gt (best_bic st1) bic then
        {| best_aic := best_aic st1; best_bic := Fin bic;
           best_order_aic := best_order_aic st1; best_order_bic := order |}
      else st1
  end.

Definition select_init : Selection :=
  {| best_aic := Inf; best_bic := Inf;
     best_order_aic := (1, 1, 1)%nat; best_order_bic := (1, 1, 1)%nat |}.

(** [_manual_order_selection]. *)
Definition _manual_order_selection (config : ARIMAConfig)
    (fit : Order -> option (Q * Q)) : Order :=
  let st := foldl (select_step fit) select_init (order_grid config) in
  if String.eqb (information_criterion config) "aic" then best_order_aic st
  else best_order_bic st.

(** The criterion the configuration selects. *)
Definition criterion (config : ARIMAConfig) (v : Q * Q) : Q :=
  if String.eqb (information_criterion config) "aic" then fst v else snd v.

Lemma order_grid_In config p d q :
  In (p, d, q) (order_grid config) <->
  (p <= max_p config /\ d <= max_d config /\ q <= max_q config)%nat.
Proof.
  unfold order_grid. rewrite in_flat_map. split.
  - intros [p' [Hp H]]. apply in_flat_map in H. destruct H as [d' [Hd H]].
    apply in_map_iff in H. destruct H as [q' [[= -> -> ->] Hq]].
    apply in_seq in Hp, Hd, Hq. lia.
  - intros (Hp & Hd & Hq). exists p. split; [apply in_seq; lia|].
    apply in_flat_map. exists d. split; [apply in_seq; lia|].
    apply in_map_iff. exists q. split; [reflexivity | apply in_seq; lia].
Qed.

(** What the loop has established for one criterion after visiting the
    orders of [l]. *)
Definition tracked (fit : Order -> option (Q * Q)) (crit : Q * Q -> Q)
    (l : list Order) (best : ext) (order : Order) : Prop :=
  (best = Inf /\ order = (1, 1, 1)%nat /\ forall o, In o l -> fit o = None) \/
  (exists v, best = Fin (crit v) /\ In order l /\ fit order = Some v /\
             forall o w, In o l -> fit o = Some w -> crit v <= crit w).

Lemma tracked_skip fit crit l best order o :
  tracked fit crit l best order ->
  (fit o = None \/ exists w, fit o = Some w /\ ext_gt best (crit w) = false) ->
  tracked fit crit (l ++ [o]) best order.
Proof.
  intros [(Hb & Ho & Hnone) | (v & Hb & Hin & Hfit & Hmin)] Hskip.
  - left. split; [exact Hb|]. split; [exact Ho|].
    intros o' Ho'. apply in_app_or in Ho'. destruct Ho' as [Ho' | [<- | []]];
      [by apply Hnone|].
    destruct Hskip as [Hn | (w & _ & Hgt)]; [exact Hn|].
    subst best. discriminate.
  - right. exists v. split; [exact Hb|]. split; [apply in_or_app; by left|].
    split; [exact Hfit|].
    intros o' w' Ho' Hw'. apply in_app_or in Ho'.
    destruct Ho' as [Ho' | [<- | []]]; [by eapply Hmin|].
    destruct Hskip as [Hn | (w & Hw & Hgt)]; [congruence|].
    assert (w' = w) by congruence. subst w' best. cbn [ext_gt] in Hgt.
    apply Qnot_lt_le. intros Hlt. apply Qlt_bool_iff in Hlt. congruence.
Qed.

Lemma tracked_take fit crit l best order o w :
  tracked fit crit l best order ->
  fit o = Some w -> ext_gt best (crit w) = true ->
  tracked fit crit (l ++ [o]) (Fin (crit w)) o.
Proof.
  intros Ht Hw Hgt. right. exists w. split; [reflexivity|].
  split; [apply in_or_app; right; by left|]. split; [exact Hw|].
  intros o' w' Ho' Hw'. apply in_app_or in Ho'.
  destruct Ho' as [Ho' | [<- | []]].
  - destruct Ht as [(_ & _ & Hnone) | (v & Hb & _ & _ & Hmin)].
    + rewrite (Hnone o' Ho') in Hw'. discriminate.
    + subst best. cbn [ext_gt] in Hgt. apply Qlt_bool_iff in Hgt.
      pose proof (Hmin o' w' Ho' Hw'). lra.
  - assert (w' = w) by congruence. subst w'. lra.
Qed.

Lemma select_inv fit l :
  let st := foldl (select_step fit) select_init l in
  tracked fit fst l (best_aic st) (best_order_aic st) /\
  tracked fit snd l (best_bic st) (best_order_bic st).
Proof.
  induction l as [|o l IH] using rev_ind.
  - simpl. split; left; repeat split; intros o [].
  - rewrite foldl_app. cbn [foldl]. cbv zeta in IH.
    destruct IH as [Ha Hb].
    set (st := foldl (select_step fit) select_init l) in *.
    unfold select_step. destruct (fit o) as [[aic bic]|] eqn:Hfit.
    + assert (Ta : forall b, ext_gt (best_aic st) aic = b ->
                tracked fit fst (l ++ [o])
                  (if b then Fin aic else best_aic st)
                  (if b then o else best_order_aic st)).
      { intros [|] E.
        - exact (tracked_take fit fst l _ _ o (aic, bic) Ha Hfit E).
        - apply tracked_skip; [exact Ha|]. right. by exists (aic, bic). }
      assert (Tb : forall b, ext_gt (best_bic st) bic = b ->
                tracked fit snd (l ++ [o])
                  (if b then Fin bic else best_bic st)
                  (if b then o else best_order_bic st)).
      { intros [|] E.
        - exact (tracked_take fit snd l _ _ o (aic, bic) Hb Hfit E).
        - apply tracked_skip; [exact Hb|]. right. by exists (aic, bic). }
      specialize (Ta _ eq_refl). specialize (Tb _ eq_refl).
      destruct (ext_gt (best_aic st) aic);
        cbn [best_aic best_bic best_order_aic best_order_bic];
        destruct (ext_gt (best_bic st) bic);
        cbn [best_aic best_bic best_order_aic best_order_bic];
        split; assumption.
    + split; apply tracked_skip; try assumption; by left.
Qed.

(** X21: the grid search returns (1, 1, 1) when no order of the grid could
    be fitted; otherwise it returns an order of the grid that was fitted
    and whose criterion value (AIC when the configuration says 'aic', BIC
    for every other setting) is the smallest among all fitted orders of
    the grid. *)
Theorem X21_manual_order_selection (config : ARIMAConfig)
    (fit : Order -> option (Q * Q)) :
  let order := _manual_order_selection config fit in
  ((forall p d q, (p <= max_p config)%nat -> (d <= max_d config)%nat ->
                  (q <= max_q config)%nat -> fit (p, d, q) = None) ->
   order = (1, 1, 1)%nat) /\
  (forall p d q w, (p <= max_p config)%nat -> (d <= max_d config)%nat ->
                   (q <= max_q config)%nat -> fit (p, d, q) = Some w ->
     In order (order_grid config) /\
     exists v, fit order = Some v /\ criterion config v <= criterion config w).
Proof.
  intros order.
  assert (H : tracked fit (criterion config) (order_grid config)
                (if String.eqb (information_criterion config) "aic"
                 then best_aic (foldl (select_step fit) select_init (order_grid config))
                 else best_bic (foldl (select_step fit) select_init (order_grid config)))
                order).
  { destruct (select_inv fit (order_grid config)) as [Ha Hb].
    unfold order, _manual_order_selection, criterion.
    destruct (String.eqb (information_criterion config) "aic"); assumption. }
  split.
  - intros Hnone. destruct H as [(_ & Ho & _) | (v & _ & Hin & Hfit & _)];
      [exact Ho|].
    destruct order as [[p d] q]. apply order_grid_In in Hin.
    destruct Hin as (Hp & Hd & Hq). rewrite (Hnone p d q Hp Hd Hq) in Hfit.
    discriminate.
  - intros p d q w Hp Hd Hq Hw.
    assert (Hin : In (p, d, q) (order_grid config)) by (by apply order_grid_In).
    destruct H as [(_ & _ & Hnone) | (v & _ & Hin' & Hfit & Hmin)].
    + rewrite (Hnone _ Hin) in Hw. discriminate.
    + split; [exact Hin'|]. exists v. split; [exact Hfit|].
      by apply (Hmin (p, d, q) w).
Qed.

End Arima.

(** ** backend/app/models/improved_seven_day_forecaster.py *)
Module SevenDay.
Import Num.

(** *** Floats that may not be finite *)

(** A floating-point value that may be NaN or an infinity.  Divisors that
    are zero are positive zeros (the prices are read from JSON numbers). *)
Inductive xfloat :=
  | XNaN
  | XInf (negative : bool)
  | XFin (x : Q).

Definition xadd (a b : xfloat) : xfloat :=
  match a, b with
  | XNaN, _ | _, XNaN => XNaN
  | XInf s, XInf s' => if Bool.eqb s s' then XInf s else XNaN
  | XInf s, XFin _ | XFin _, XInf s => XInf s
  | XFin x, XFin y => XFin (x + y)
  end.

(** [a * k] for a finite [k]. *)
Definition xscale (a : xfloat) (k : Q) : xfloat :=
  match a with
  | XNaN => XNaN
  | XInf s => if Qeq_bool k 0 then XNaN else XInf (xorb s (Qlt_bool k 0))
  | XFin x => XFin (x * k)
  end.

Definition xsum (l : list xfloat) : xfloat := foldr xadd (XFin 0) l.

Definition is_nan (a : xfloat) : bool :=
  match a with
  | XNaN => true
  | _ => false
  end.

(** [np.mean] of a list of floats: NaN propagates. *)
Definition xmean (l : list xfloat) : xfloat :=
  match l with
  | [] => XNaN
  | _ => xscale (xsum l) (1 / inject_Z (Z.of_nat (length l)))
  end.

(** [Series.mean()]: NaN entries are skipped. *)
Definition xmean_skipna (l : list xfloat) : xfloat :=
  xmean (List.filter (fun a => negb (is_nan a)) l).

(** [np.clip(a, lo, hi)]: NaN passes through, an infinity is cut to the
    limit on its side. *)
Definition xclip (lo hi : Q) (a : xfloat) : option Q :=
  match a with
  | XNaN => None
  | XInf false => Some (clip lo hi hi)
  | XInf true => Some (clip lo hi lo)
  | XFin x => Some (clip lo hi x)
  end.

(** [num / den]: dividing by zero gives an infinity of the sign of
    [num], or NaN when [num] is zero too. *)
Definition xdiv (num den : Q) : xfloat :=
  if Qeq_bool den 0 then
    if Qeq_bool num 0 then XNaN else XInf (Qlt_bool num 0)
  else XFin (num / den).

(** [cur / prev - 1] *)
Definition pct (prev cur : Q) : xfloat := xadd (xdiv cur prev) (XFin (- (1))).

Fixpoint pct_changes_from (prev : Q) (l : list Q) : list xfloat :=
  match l with
  | [] => []
  | x :: t => pct prev x :: pct_changes_from x t
  end.

(** *** Rounding *)

(** Round half to even. *)
Definition round_half_even (x : Q) : Z :=
  let f := Qfloor x in
  let r := x - inject_Z f in
  if Qlt_bool r (1 # 2) then f
  else if Qlt_bool (1 # 2) r then (f + 1)%Z
  else if Z.even f then f else (f + 1)%Z.

(** An exact rounding to two decimals.  The source's [round(x, 2)] acts
    on the binary double and is a parameter [round2] of the functions
    below; this rounding is one instance of it. *)
Definition decimal_round2 (x : Q) : Q := inject_Z (round_half_even (x * 100)) / 100.

(** [round(x, 2)] of a value that may not be finite. *)
Definition xround2 (round2 : Q -> Q) (a : xfloat) : xfloat :=
  match a with
  | XFin x => XFin (round2 x)
  | other => other
  end.

(** *** Loading the price history *)

Inductive Fuel := gasoline | diesel.

(** A record of [regional_data['data']]: its date (a day number) and the
    Seoul entries of its 'gasoline' and 'diesel' tables, [None] when the
    table has no 'seoul' key. *)
Record RegionalRecord := {
  record_date : Z;
  gasoline_seoul : option Q;
  diesel_seoul : option Q
}.

(** A row of the frame. *)
Record Row := { date : Z; price_gasoline : Q; price_diesel : Q }.

(** [record['gasoline'].get('seoul', 0)] and its diesel counterpart. *)
Definition seoul_row (record : RegionalRecord) : Row :=
  {| date := record_date record;
     price_gasoline := default 0 (gasoline_seoul record);
     price_diesel := default 0 (diesel_seoul record) |}.

Definition column (fuel_type : Fuel) (r : Row) : Q :=
  match fuel_type with
  | gasoline => price_gasoline r
  | diesel => price_diesel r
  end.

Fixpoint insert_by_date (r : Row) (l : list Row) : list Row :=
  match l with
  | [] => [r]
  | y :: t => if (date r <=? date y)%Z then r :: l else y :: insert_by_date r t
  end.

(** [df.sort_values('date')]; rows of one date keep the order in which
    they are met here (the source's sort promises none). *)
Fixpoint sort_by_date (l : list Row) : list Row :=
  match l with
  | [] => []
  | r :: t => insert_by_date r (sort_by_date t)
  end.

(** [load_historical_data] on the records of the file: only records with
    a positive Seoul gasoline price are kept (the diesel price is taken as
    it comes), sorted by date and cut to the 730 days before [now], an
    instant in days with its time of day; a record date is the midnight
    of its day.  Without any kept record the frame has no 'date' column
    and the [KeyError] is turned into [None]. *)
Definition load_historical_data (now : Q) (regional_data : list RegionalRecord) :
    option (list Row) :=
  let seoul_data :=
    List.filter (fun r => Qlt_bool 0 (price_gasoline r)) (map seoul_row regional_data) in
  match seoul_data with
  | [] => None
  | _ =>
      let df := sort_by_date seoul_data in
      let cutoff_date := now - 730 in
      Some (List.filter (fun r => Qle_bool cutoff_date (inject_Z (date r))) df)
  end.

(** *** The components of the forecast *)

(** [calculate_realistic_confidence]; [price_volatility] is a finite
    value here (a NaN volatility passes through [max] unchanged). *)
Definition calculate_realistic_confidence (day_ahead : nat)
    (price_volatility prediction_error : Q) : Q :=
  let base := 75 # 100 in
  let time_decay := (25 # 1000) * inject_Z (Z.of_nat day_ahead) in
  let volatility_penalty := price_volatility * (4 # 10) in
  let error_penalty := prediction_error * (1 # 2) in
  let confidence := base - time_decay - volatility_penalty - error_penalty in
  py_max confidence (45 # 100).

(** [date.weekday()]: Monday is 0. *)
Inductive Weekday := Mon | Tue | Wed | Thu | Fri | Sat | Sun.

(** [MARKET_DYNAMICS['weekday_effect']] *)
Definition weekday_effect (w : Weekday) : Q :=
  match w with
  | Mon => 102 # 100
  | Tue => 1
  | Wed => 98 # 100
  | Thu => 99 # 100
  | Fri => 101 # 100
  | Sat => 103 # 100
  | Sun => 102 # 100
  end.

(** [monthly_factors.get(month, 0)] for the table of the fuel. *)
Definition monthly_factor (fuel_type : Fuel) (month : nat) : Q :=
  match fuel_type with
  | gasoline =>
      match month with
      | 1%nat => -3 # 10 | 2%nat => -5 # 10 | 3%nat => -1 # 10 | 4%nat => 1 # 10
      | 5%nat => 3 # 10 | 6%nat => 5 # 10 | 7%nat => 8 # 10 | 8%nat => 6 # 10
      | 9%nat => 3 # 10 | 10%nat => 0 | 11%nat => -2 # 10 | 12%nat => -3 # 10
      | _ => 0
      end
  | diesel =>
      match month with
      | 1%nat => 5 # 10 | 2%nat => 3 # 10 | 3%nat => 1 # 10 | 4%nat => -1 # 10
      | 5%nat => -3 # 10 | 6%nat => -5 # 10 | 7%nat => -7 # 10 | 8%nat => -5 # 10
      | 9%nat => -2 # 10 | 10%nat => 1 # 10 | 11%nat => 3 # 10 | 12%nat => 5 # 10
      | _ => 0
      end
  end.

(** [calculate_seven_day_seasonality] on the month and weekday of the date. *)
Definition calculate_seven_day_seasonality (month : nat) (weekday : Weekday)
    (fuel_type : Fuel) : Q :=
  let weekday_factor := weekday_effect weekday in
  let seasonal_impact := monthly_factor fuel_type month * (3 # 1000) in
  let weekday_impact := (weekday_factor - 1) * (2 # 1000) in
  (seasonal_impact + weekday_impact) * (1 # 2).

(** The external factor frames: the price column of each frame that was
    loaded, in row order. *)
Record Factors := {
  dubai_oil : option (list Q);
  exchange_rate : option (list Q)
}.

(** [tail(7)[column].pct_change().mean()]: the mean of the changes between
    the last seven values; the leading NaN and the NaN of a change from
    zero to zero are skipped, a change from zero to a non-zero price is
    infinite. *)
Definition recent_change (column : list Q) : xfloat :=
  match skipn (length column - 7) column with
  | [] => XNaN
  | x :: t => xmean_skipna (pct_changes_from x t)
  end.

(** [calculate_external_impact]; [None] is NaN. *)
Definition calculate_external_impact (factors : Factors) (days_ahead : nat) :
    option Q :=
  let total_impact := XFin 0 in
  let total_impact :=
    match dubai_oil factors with
    | Some column =>
        if (7 <=? length column)%nat then
          let oil_change := recent_change column in
          let time_lag_factor :=
            py_max (3 # 10) (1 - inject_Z (Z.of_nat days_ahead) * (1 # 10)) in
          xadd total_impact (xscale (xscale oil_change (15 # 100)) time_lag_factor)
        else total_impact
    | None => total_impact
    end in
  let total_impact :=
    match exchange_rate factors with
    | Some column =>
        if (7 <=? length column)%nat then
          let rate_change := recent_change column in
          xadd total_impact (xscale (xscale rate_change (20 # 100)) (8 # 10))
        else total_impact
    | None => total_impact
    end in
  let total_impact := xscale total_impact (7 # 10) in
  xclip (-15 # 1000) (15 # 1000) total_impact.

(** The slope of the least-squares line through [(0, y0), (1, y1), ...]
    ([LinearRegression().fit(X, y).coef_[0]] for [X = arange(len(y))]). *)
Definition ols_slope (y : list Q) : Q :=
  let xs := map (fun i => inject_Z (Z.of_nat i)) (seq 0 (length y)) in
  let xbar := mean xs in
  let ybar := mean y in
  Qsum (zip_with (fun x v => (x - xbar) * (v - ybar)) xs y) /
  Qsum (map (fun x => (x - xbar) * (x - xbar)) xs).

(** [calculate_improved_trend] for a [window] of at least 1 (the source
    only uses its default, 14); [None] is NaN.  The volatility adjustment
    the source computes is never used.  When the mean of the recent prices
    is zero the mean reversion is a division by zero: NaN for a zero
    numerator, otherwise an infinity, which the final [np.clip] cuts to
    its limit. *)
Definition calculate_improved_trend (prices : list Q) (window : nat) : option Q :=
  if (length prices <? window)%nat then Some 0
  else
    let recent_prices := skipn (length prices - window) prices in
    let linear_trend := ols_slope recent_prices in
    let mean_price := mean recent_prices in
    let current_price := List.last recent_prices 0 in
    let momentum_factor := (85 # 100) ^ 7 in
    let mean_reversion :=
      xdiv (- (3 # 100) * (current_price - mean_price)) mean_price in
    let adjusted_trend := xscale (xadd (XFin linear_trend) mean_reversion) momentum_factor in
    xclip (-5 # 1000) (5 # 1000) adjusted_trend.

(** *** The forecast loop *)

(** One entry of 'forecasts': [price] is the returned price ([None] is
    NaN), [unrounded] the clipped price before [round(., 2)]. *)
Record DayForecast := {
  day_ahead : nat;
  forecast_date : Z;
  price : option Q;
  unrounded : option Q
}.

(** The body of the loop of [forecast_seven_days_seoul] for one [day];
    [trend] is the value of [calculate_improved_trend], the calendar
    ([month_of], [weekday_of]) is a parameter. *)
Definition forecast_day (round2 : Q -> Q) (month_of : Z -> nat)
    (weekday_of : Z -> Weekday) (trend : option Q) (external_factors : Factors)
    (fuel_type : Fuel) (current_price : Q) (base_date : Z) (day : nat) :
    DayForecast :=
  let d := inject_Z (Z.of_nat day) in
  let forecast_date := (base_date + Z.of_nat day)%Z in
  let seasonal_factor :=
    calculate_seven_day_seasonality (month_of forecast_date)
      (weekday_of forecast_date) fuel_type in
  let seasonal_component := current_price * seasonal_factor in
  let seoul_premium := ((108 # 100) - 1) * current_price * (1 # 10) in
  let daily_limit := current_price * (2 # 100) * d in
  let forecast_price :=
    match trend, calculate_external_impact external_factors day with
    | Some trend, Some external_impact =>
        let trend_component := trend * current_price * d in
        let external_component := current_price * external_impact in
        let forecast_price :=
          current_price + trend_component + seasonal_component
          + external_component + seoul_premium in
        Some (clip (current_price - daily_limit) (current_price + daily_limit)
                   forecast_price)
    | _, _ => None
    end in
  {| day_ahead := day;
     forecast_date := forecast_date;
     price := option_map round2 forecast_price;
     unrounded := forecast_price |}.

(** One day of the forecast from a price series. *)
Definition seoul_forecast_day (round2 : Q -> Q) (month_of : Z -> nat)
    (weekday_of : Z -> Weekday) (price_series : list Q)
    (external_factors : Factors) (fuel_type : Fuel) (current_price : Q)
    (base_date : Z) (day : nat) : DayForecast :=
  forecast_day round2 month_of weekday_of
    (calculate_improved_trend price_series 14)
    external_factors fuel_type current_price base_date day.


(** *** Back-testing the seventh day *)

(** One simulated forecast: the entries appended to [actual_7day],
    [predicted_7day] ([None] is NaN) and [confidence_7day]. *)
Record Sample := {
  actual_price : Q;
  predicted_price : option Q;
  sample_confidence : Q
}.

(** The body of the simulation loop for one [i]; [gasoline] is the price
    column of the loaded frame, [pct_std l] the value of
    [l.pct_change().std()]. *)
Definition simulate (pct_std : list Q -> Q) (gasoline : list Q)
    (historical_days i : nat) : option Sample :=
  let end_idx := (length gasoline - historical_days + i)%nat in
  let past_data := firstn end_idx gasoline in
  let actual_idx := (end_idx + 7)%nat in
  if (actual_idx <? length gasoline)%nat then
    let current_price := List.last past_data 0 in
    let trend := calculate_improved_trend past_data 14 in
    let volatility := pct_std past_data in
    Some {| actual_price := nth actual_idx gasoline 0;
            predicted_price :=
              option_map (fun trend => current_price + trend * current_price * 7)
                         trend;
            sample_confidence :=
              calculate_realistic_confidence 7 volatility (3 # 100) |}
  else None.

Definition high_confidence (s : Sample) : bool :=
  Qlt_bool (6 # 10) (sample_confidence s).

(** [abs((a - p) / a) * 100] *)
Definition absolute_percentage_error (s : Sample) : xfloat :=
  match predicted_price s with
  | None => XNaN
  | Some p =>
      if Qeq_bool (actual_price s) 0 then
        if Qeq_bool (actual_price s - p) 0 then XNaN else XInf false
      else XFin (Qabs ((actual_price s - p) / actual_price s) * 100)
  end.

(** The keys 'sample_size', 'high_confidence_samples' and
    'high_confidence_mape' of the returned dictionary. *)
Record Validation := {
  sample_size : nat;
  high_confidence_samples : nat;
  high_confidence_mape : xfloat
}.

(** [validate_seven_day_accuracy] on the gasoline column of the loaded
    frame; [None] is the empty dictionary. *)
Definition validate_seven_day_accuracy (round2 : Q -> Q) (pct_std : list Q -> Q)
    (gasoline : list Q) (historical_days : nat) : option Validation :=
  if (length gasoline <? historical_days + 7)%nat then None
  else
    match omap (simulate pct_std gasoline historical_days)
               (seq 0 historical_days) with
    | [] => None
    | samples =>
        Some {| sample_size := length samples;
                high_confidence_samples :=
                  length (List.filter high_confidence samples);
                high_confidence_mape :=
                  if existsb high_confidence samples then
                    xround2 round2
                      (xmean (map absolute_percentage_error
                                  (List.filter high_confidence samples)))
                  else XFin 0 |}
    end.

(** *** Rounding and loading *)



Lemma day_nonneg (day : nat) : 0 <= inject_Z (Z.of_nat day).
Proof. change 0 with (inject_Z 0). rewrite <- Zle_Qle. lia. Qed.


Lemma insert_by_date_In r x l : In x (insert_by_date r l) -> x = r \/ In x l.
Proof.
  induction l as [|y l IH]; simpl.
  - intros [<-|[]]. by left.
  - destruct (date r <=? date y)%Z; simpl.
    + intros [<-|H]; [by left | by right].
    + intros [<-|H]; [right; by left|].
      destruct (IH H) as [->|H']; [by left | right; by right].
Qed.

Lemma sort_by_date_In x l : In x (sort_by_date l) -> In x l.
Proof.
  induction l as [|r l IH]; simpl; [tauto|].
  intros H. apply insert_by_date_In in H. destruct H as [->|H]; [by left|].
  right. by apply IH.
Qed.

(** Every row of the loaded frame has a positive gasoline price and lies
    in the 730 days before [now]. *)
Lemma loaded_rows now regional_data historical_df r :
  load_historical_data now regional_data = Some historical_df ->
  In r historical_df ->
  0 < price_gasoline r /\ now - 730 <= inject_Z (date r).
Proof.
  unfold load_historical_data.
  set (seoul_data := List.filter _ (map seoul_row regional_data)).
  assert (Hs : forall x, In x seoul_data -> 0 < price_gasoline x).
  { intros x Hx. apply filter_In in Hx. destruct Hx as [_ Hx].
    by apply Qlt_bool_iff. }
  clearbody seoul_data. destruct seoul_data as [|r0 l]; [discriminate|].
  intros [= <-] H. apply filter_In in H. destruct H as [H Hc].
  change (In r (sort_by_date (r0 :: l))) in H.
  apply sort_by_date_In in H.
  split; [by apply Hs | by apply Qle_bool_iff].
Qed.

(** *** Finite and non-finite values *)

Lemma xclip_bounds lo hi a v :
  lo <= hi -> xclip lo hi a = Some v -> lo <= v /\ v <= hi.
Proof.
  intros H. destruct a as [|[|]|x]; simpl; [discriminate | | |];
    intros [= <-]; by apply clip_bounds.
Qed.

Definition finite (a : xfloat) : Prop := exists x, a = XFin x.

Lemma xclip_finite lo hi a : finite a -> exists v, xclip lo hi a = Some v.
Proof. intros [x ->]. by eexists. Qed.

Lemma xscale_finite a k : finite a -> finite (xscale a k).
Proof. intros [x ->]. by eexists. Qed.

Lemma xadd_finite a b : finite a -> finite b -> finite (xadd a b).
Proof. intros [x ->] [y ->]. by eexists. Qed.

Lemma xsum_finite l : Forall finite l -> finite (xsum l).
Proof.
  induction 1 as [|a l Ha _ IH]; [by eexists|].
  simpl. by apply xadd_finite.
Qed.

Lemma xmean_skipna_finite l : l <> [] -> Forall finite l -> finite (xmean_skipna l).
Proof.
  intros Hne Hall. unfold xmean_skipna.
  assert (E : List.filter (fun a => negb (is_nan a)) l = l).
  { clear Hne. induction Hall as [|a l [x ->] _ IH]; [reflexivity|].
    simpl. by rewrite IH. }
  rewrite E. unfold xmean. destruct l as [|a l]; [congruence|].
  apply xscale_finite. by apply xsum_finite.
Qed.

Lemma xdiv_finite num den : ~ den == 0 -> xdiv num den = XFin (num / den).
Proof.
  intros H. unfold xdiv. destruct (Qeq_bool den 0) eqn:E; [|reflexivity].
  apply Qeq_bool_iff in E. contradiction.
Qed.

Lemma pct_finite prev cur : ~ prev == 0 -> finite (pct prev cur).
Proof. intros H. unfold pct. rewrite xdiv_finite by exact H. by eexists. Qed.

Lemma pct_changes_finite l : forall prev,
  ~ prev == 0 -> Forall (fun p => ~ p == 0) l ->
  Forall finite (pct_changes_from prev l).
Proof.
  induction l as [|x l IH]; intros prev Hp Hl; [constructor|].
  apply List.Forall_cons_iff in Hl. destruct Hl as [Hx Hl].
  simpl. constructor; [by apply pct_finite | by apply IH].
Qed.

Lemma skipn_In {A} (k : nat) (l : list A) x : In x (skipn k l) -> In x l.
Proof.
  intros H. rewrite <- (firstn_skipn k l). apply in_or_app. by right.
Qed.

Lemma recent_change_finite column :
  (7 <= length column)%nat -> Forall (fun p => ~ p == 0) column ->
  finite (recent_change column).
Proof.
  intros Hlen Hnz. unfold recent_change.
  assert (Hl : length (skipn (length column - 7) column) = 7%nat)
    by (rewrite length_skipn; lia).
  assert (Hs : Forall (fun p => ~ p == 0) (skipn (length column - 7) column)).
  { rewrite List.Forall_forall in *. intros x Hx. apply Hnz. by eapply skipn_In. }
  destruct (skipn (length column - 7) column) as [|x t]; [discriminate|].
  apply List.Forall_cons_iff in Hs. destruct Hs as [Hx Ht].
  apply xmean_skipna_finite; [|by apply pct_changes_finite].
  destruct t; [discriminate | discriminate].
Qed.

(** *** Confidence, seasonality, external impact *)

Lemma py_max_cases a b :
  (a < b /\ py_max a b = b) \/ (b <= a /\ py_max a b = a).
Proof.
  unfold py_max. destruct (Qlt_bool a b) eqn:E.
  - left. split; [by apply Qlt_bool_iff | reflexivity].
  - right. split; [|reflexivity].
    assert (~ a < b) by (rewrite <- Qlt_bool_iff; congruence). lra.
Qed.

(** X1: the confidence is never below 0.45; for non-negative volatility
    and prediction error it is at most 0.75; and it does not increase when
    the horizon, the volatility or the prediction error grows. *)
Theorem X1_confidence_bounds (d d' : nat) (v v' e e' : Q) :
  45 # 100 <= calculate_realistic_confidence d v e /\
  (0 <= v -> 0 <= e -> calculate_realistic_confidence d v e <= 75 # 100) /\
  ((d <= d')%nat -> v <= v' -> e <= e' ->
   calculate_realistic_confidence d' v' e' <= calculate_realistic_confidence d v e).
Proof.
  unfold calculate_realistic_confidence.
  pose proof (day_nonneg d) as Hd.
  set (D := inject_Z (Z.of_nat d)) in *.
  set (D' := inject_Z (Z.of_nat d')).
  destruct (py_max_cases ((75 # 100) - (25 # 1000) * D - v * (4 # 10) - e * (1 # 2))
              (45 # 100)) as [[H1 ->]|[H1 ->]];
  destruct (py_max_cases ((75 # 100) - (25 # 1000) * D' - v' * (4 # 10) - e' * (1 # 2))
              (45 # 100)) as [[H2 ->]|[H2 ->]];
  (split; [lra|]; split; [intros; lra|]; intros Hdd Hv He;
   assert (HD : D <= D') by (unfold D, D'; rewrite <- Zle_Qle; lia); lra).
Qed.

Lemma seasonality_abs_bound month weekday fuel_type :
  Qabs (calculate_seven_day_seasonality month weekday fuel_type) <= 123 # 100000.
Proof.
  do 13 (try destruct month as [|month]); destruct weekday, fuel_type;
    vm_compute; discriminate.
Qed.

Lemma external_impact_bounds factors days_ahead v :
  calculate_external_impact factors days_ahead = Some v ->
  - (15 # 1000) <= v /\ v <= 15 # 1000.
Proof. unfold calculate_external_impact. apply xclip_bounds. lra. Qed.

(** X2: the seasonal factor is at most 0.123% in magnitude for every
    month number, weekday and fuel, and for a number that is not a month
    only the weekday effect (at most 0.003%) remains. *)
Theorem X2_seasonality_bound (month : nat) (weekday : Weekday) (fuel_type : Fuel) :
  Qabs (calculate_seven_day_seasonality month weekday fuel_type) <= 123 # 100000 /\
  ((month = 0 \/ 13 <= month)%nat ->
   Qabs (calculate_seven_day_seasonality month weekday fuel_type) <= 3 # 100000).
Proof.
  split.
  - apply seasonality_abs_bound.
  - intros [->|H].
    + destruct weekday, fuel_type; vm_compute; discriminate.
    + do 13 (destruct month as [|month]; [lia|]).
      destruct weekday, fuel_type; vm_compute; discriminate.
Qed.

(** X3: the external impact is NaN or lies within -/+ 1.5%; it is zero
    when neither factor frame has at least seven rows; and it is finite
    when no price of the factor frames is zero. *)
Theorem X3_external_impact (factors : Factors) (days_ahead : nat) :
  (forall v, calculate_external_impact factors days_ahead = Some v ->
             - (15 # 1000) <= v /\ v <= 15 # 1000) /\
  ((forall c, dubai_oil factors = Some c -> (length c < 7)%nat) ->
   (forall c, exchange_rate factors = Some c -> (length c < 7)%nat) ->
   exists v, calculate_external_impact factors days_ahead = Some v /\ v == 0) /\
  ((forall c, dubai_oil factors = Some c -> Forall (fun p => ~ p == 0) c) ->
   (forall c, exchange_rate factors = Some c -> Forall (fun p => ~ p == 0) c) ->
   exists v, calculate_external_impact factors days_ahead = Some v).
Proof.
  split; [|split].
  - intros v. apply external_impact_bounds.
  - intros Ho Hr. unfold calculate_external_impact.
    assert (E1 : match dubai_oil factors with
                 | Some column =>
                     if (7 <=? length column)%nat
                     then xadd (XFin 0)
                            (xscale (xscale (recent_change column) (15 # 100))
                               (py_max (3 # 10)
                                  (1 - inject_Z (Z.of_nat days_ahead) * (1 # 10))))
                     else XFin 0
                 | None => XFin 0
                 end = XFin 0).
    { destruct (dubai_oil factors) as [c|]; [|reflexivity].
      specialize (Ho c eq_refl).
      destruct (Nat.leb_spec 7 (length c)); [lia | reflexivity]. }
    rewrite E1.
    assert (E2 : match exchange_rate factors with
                 | Some column =>
                     if (7 <=? length column)%nat
                     then xadd (XFin 0)
                            (xscale (xscale (recent_change column) (20 # 100)) (8 # 10))
                     else XFin 0
                 | None => XFin 0
                 end = XFin 0).
    { destruct (exchange_rate factors) as [c|]; [|reflexivity].
      specialize (Hr c eq_refl).
      destruct (Nat.leb_spec 7 (length c)); [lia | reflexivity]. }
    rewrite E2. eexists. split; [reflexivity|]. rewrite clip_id; lra.
  - intros Ho Hr. unfold calculate_external_impact.
    apply xclip_finite, xscale_finite.
    assert (F1 : finite
                   match dubai_oil factors with
                   | Some column =>
                       if (7 <=? length column)%nat
                       then xadd (XFin 0)
                              (xscale (xscale (recent_change column) (15 # 100))
                                 (py_max (3 # 10)
                                    (1 - inject_Z (Z.of_nat days_ahead) * (1 # 10))))
                       else XFin 0
                   | None => XFin 0
                   end).
    { destruct (dubai_oil factors) as [c|]; [|by eexists].
      specialize (Ho c eq_refl).
      destruct (Nat.leb_spec 7 (length c)); [|by eexists].
      apply xadd_finite; [by eexists|].
      by apply xscale_finite, xscale_finite, recent_change_finite. }
    destruct F1 as [x ->].
    destruct (exchange_rate factors) as [c|]; [|by eexists].
    specialize (Hr c eq_refl).
    destruct (Nat.leb_spec 7 (length c)); [|by eexists].
    apply xadd_finite; [by eexists|].
    by apply xscale_finite, xscale_finite, recent_change_finite.
Qed.

(** *** The daily trend *)

Lemma improved_trend_bounds prices window t :
  calculate_improved_trend prices window = Some t ->
  - (5 # 1000) <= t /\ t <= 5 # 1000.
Proof.
  unfold calculate_improved_trend. destruct (_ <? _)%nat.
  - intros [= <-]. lra.
  - apply xclip_bounds. lra.
Qed.

Lemma skipn_nonempty {A} (l : list A) (window : nat) :
  (1 <= window)%nat -> (window <= length l)%nat ->
  skipn (length l - window) l <> [].
Proof.
  intros H1 H2 E. apply (f_equal (@length A)) in E.
  rewrite length_skipn in E. simpl in E. lia.
Qed.

Lemma mean_positive l : l <> [] -> Forall (fun x => 0 < x) l -> 0 < mean l.
Proof.
  intros Hne Hall. unfold mean, Qlen.
  pose proof (Ensemble.Qsum_pos l Hne Hall) as Hs.
  apply Qlt_shift_div_l; [|lra].
  change 0 with (inject_Z 0). rewrite <- Zlt_Qlt.
  destruct l; [congruence | simpl; lia].
Qed.

(** On positive prices the trend is finite. *)
Lemma improved_trend_finite prices window :
  (1 <= window)%nat -> Forall (fun p => 0 < p) prices ->
  exists t, calculate_improved_trend prices window = Some t.
Proof.
  intros Hw Hpos. unfold calculate_improved_trend.
  destruct (Nat.ltb_spec (length prices) window); [by eexists|].
  set (recent := skipn (length prices - window) prices).
  assert (Hm : 0 < mean recent).
  { apply mean_positive; [by apply skipn_nonempty|].
    rewrite List.Forall_forall in *. intros x Hx. apply Hpos. by eapply skipn_In. }
  rewrite xdiv_finite by lra. by eexists.
Qed.

Lemma last_repeat (c : Q) n : (0 < n)%nat -> List.last (repeat c n) 0 = c.
Proof.
  intros Hn. destruct n as [|n]; [lia|]. clear Hn.
  induction n as [|n IH]; [reflexivity|].
  change (List.last (c :: repeat c (S n)) 0 = c). simpl repeat in *. exact IH.
Qed.

Lemma ols_slope_constant c n : ols_slope (repeat c n) == 0.
Proof.
  unfold ols_slope. rewrite repeat_length.
  set (xs := map (fun i => inject_Z (Z.of_nat i)) (seq 0 n)).
  assert (E : Qsum (zip_with (fun x v => (x - mean xs) * (v - mean (repeat c n)))
                      xs (repeat c n)) == 0).
  { destruct n as [|n]; [reflexivity|].
    replace (repeat c (S n)) with (repeat c (length xs)) at 1
      by (unfold xs; by rewrite length_map, length_seq).
    rewrite zip_with_repeat_r.
    apply Qsum_zeros. apply List.Forall_forall. intros t Ht.
    apply in_map_iff in Ht. destruct Ht as [x [<- _]].
    rewrite mean_repeat by lia. ring. }
  rewrite E. unfold Qdiv. ring.
Qed.

(** X4: for a window of at least 1, the daily trend is 0 for fewer than
    [window] prices; it is NaN or lies within -/+ 0.5%; it is NaN exactly
    when the mean of the last [window] prices and the last price are both
    zero; it is 0 for a flat non-zero price history, NaN for a history of
    zeros, and finite for positive prices. *)
Theorem X4_improved_trend (prices : list Q) (window : nat) :
  (1 <= window)%nat ->
  ((length prices < window)%nat -> calculate_improved_trend prices window = Some 0) /\
  (forall t, calculate_improved_trend prices window = Some t ->
             - (5 # 1000) <= t /\ t <= 5 # 1000) /\
  (calculate_improved_trend prices window = None <->
   (window <= length prices)%nat /\
   mean (skipn (length prices - window) prices) == 0 /\
   List.last (skipn (length prices - window) prices) 0 == 0) /\
  (forall c n, (window <= n)%nat -> ~ c == 0 ->
     exists t, calculate_improved_trend (repeat c n) window = Some t /\ t == 0) /\
  (forall n, (window <= n)%nat ->
     calculate_improved_trend (repeat 0 n) window = None) /\
  (Forall (fun p => 0 < p) prices ->
   exists t, calculate_improved_trend prices window = Some t).
Proof.
  intros Hw.
  split; [|split; [|split; [|split; [|split]]]].
  - intros H. unfold calculate_improved_trend.
    destruct (Nat.ltb_spec (length prices) window); [reflexivity | lia].
  - intros t. apply improved_trend_bounds.
  - unfold calculate_improved_trend.
    destruct (Nat.ltb_spec (length prices) window) as [Hlt|Hge].
    { split; [discriminate | lia]. }
    set (recent := skipn (length prices - window) prices).
    unfold xdiv.
    destruct (Qeq_bool (mean recent) 0) eqn:Em.
    + apply Qeq_bool_iff in Em.
      destruct (Qeq_bool (- (3 # 100) * (List.last recent 0 - mean recent)) 0) eqn:El.
      * apply Qeq_bool_iff in El. split; [intros _|reflexivity].
        split; [lia|]. split; [exact Em | lra].
      * assert (~ - (3 # 100) * (List.last recent 0 - mean recent) == 0)
          by (rewrite <- Qeq_bool_iff; congruence).
        split; [|intros (_ & _ & Hl); lra].
        cbn [xscale xadd xclip]. change (Qeq_bool ((85 # 100) ^ 7) 0) with false.
        cbv iota. destruct (xorb _ _); discriminate.
    + assert (~ mean recent == 0) by (rewrite <- Qeq_bool_iff; congruence).
      split; [discriminate | tauto].
  - intros c n Hn Hc. unfold calculate_improved_trend.
    rewrite repeat_length.
    destruct (Nat.ltb_spec n window); [lia|].
    assert (Er : skipn (n - window) (repeat c n) = repeat c window).
    { rewrite skipn_repeat. f_equal. lia. }
    rewrite Er, last_repeat by lia.
    pose proof (mean_repeat c window ltac:(lia)) as Em.
    pose proof (ols_slope_constant c window) as Es.
    rewrite xdiv_finite by (rewrite Em; exact Hc).
    cbn [xadd xscale xclip]. eexists. split; [reflexivity|].
    assert (E0 : (ols_slope (repeat c window) +
                  - (3 # 100) * (c - mean (repeat c window)) / mean (repeat c window))
                 * (85 # 100) ^ 7 == 0).
    { rewrite Es, Em. field. exact Hc. }
    rewrite (clip_id _ _ _); rewrite E0; [reflexivity | lra | lra].
  - intros n Hn. unfold calculate_improved_trend.
    rewrite repeat_length.
    destruct (Nat.ltb_spec n window); [lia|].
    assert (Er : skipn (n - window) (repeat 0 n) = repeat 0 window).
    { rewrite skipn_repeat. f_equal. lia. }
    rewrite Er, last_repeat by lia.
    pose proof (mean_repeat 0 window ltac:(lia)) as Em.
    unfold xdiv.
    assert (E : Qeq_bool (mean (repeat 0 window)) 0 = true) by (by apply Qeq_bool_iff).
    assert (E' : Qeq_bool (- (3 # 100) * (0 - mean (repeat 0 window))) 0 = true).
    { apply Qeq_bool_iff. rewrite Em. reflexivity. }
    rewrite E, E'. reflexivity.
  - by apply improved_trend_finite.
Qed.

Lemma X4_improved_trend_witness :
  (1 <= 14)%nat /\ calculate_improved_trend (repeat 0 14) 14 = None.
Proof.
  assert (H : (1 <= 14)%nat) by lia.
  split; [exact H|].
  apply (proj1 (proj2 (proj2 (proj2 (proj2 (X4_improved_trend (repeat 0 14) 14 H)))))).
  lia.
Defined.

(** *** The forecast *)

(** X5: when the trend and the external impact are finite and the
    current price is not negative, the lower limit of the daily clipping
    never binds from day 1 on, and from day 2 on the upper limit never
    binds either: the forecast is then exactly
    current_price * (1 + trend * day + seasonal + external + 0.008). *)
Theorem X5_clipping_inactive (round2 : Q -> Q) (month_of : Z -> nat)
    (weekday_of : Z -> Weekday) (price_series : list Q) (external_factors : Factors)
    (fuel_type : Fuel) (current_price : Q) (base_date : Z) (day : nat)
    (trend external : Q) :
  0 <= current_price ->
  calculate_improved_trend price_series 14 = Some trend ->
  calculate_external_impact external_factors day = Some external ->
  let d := inject_Z (Z.of_nat day) in
  let unclipped :=
    current_price *
    (1 + trend * d
     + calculate_seven_day_seasonality (month_of (base_date + Z.of_nat day)%Z)
         (weekday_of (base_date + Z.of_nat day)%Z) fuel_type
     + external + (8 # 1000)) in
  let f := seoul_forecast_day round2 month_of weekday_of price_series
             external_factors fuel_type current_price base_date day in
  exists u,
    unrounded f = Some u /\ price f = Some (round2 u) /\
    ((1 <= day)%nat ->
     u == Qmin unclipped (current_price + current_price * (2 # 100) * d)) /\
    ((2 <= day)%nat -> u == unclipped).
Proof.
  intros Hcp Etrend Eext d unclipped f.
  pose proof (improved_trend_bounds _ _ _ Etrend) as Ht.
  pose proof (seasonality_abs_bound (month_of (base_date + Z.of_nat day)%Z)
                (weekday_of (base_date + Z.of_nat day)%Z) fuel_type) as Hs.
  pose proof (external_impact_bounds _ _ _ Eext) as He.
  apply Qabs_Qle_condition in Hs.
  subst f unclipped. unfold seoul_forecast_day, forecast_day.
  rewrite Etrend, Eext. cbn [unrounded price option_map]. fold d.
  set (t := trend) in *.
  set (sv := calculate_seven_day_seasonality _ _ _) in *.
  set (e := external) in *.
  set (cp := current_price) in *.
  eexists. split; [reflexivity|]. split; [reflexivity|].
  assert (EU : cp + t * cp * d + cp * sv + cp * e + ((108 # 100) - 1) * cp * (1 # 10)
               == cp * (1 + t * d + sv + e + (8 # 1000))) by ring.
  assert (Hlow : (1 <= day)%nat ->
                 cp - cp * (2 # 100) * d <= cp * (1 + t * d + sv + e + (8 # 1000))).
  { intros Hday.
    assert (Hd : 1 <= d).
    { unfold d. change 1 with (inject_Z 1). rewrite <- Zle_Qle. lia. }
    assert (Hx : - (5 # 1000) * d <= t * d) by nra.
    assert (Hy : 0 <= (2 # 100) * d + t * d + sv + e + (8 # 1000)) by lra.
    pose proof (Qmult_le_0_compat _ _ Hcp Hy) as Hp.
    assert (E : cp * (1 + t * d + sv + e + (8 # 1000)) ==
                cp - cp * (2 # 100) * d
                + cp * ((2 # 100) * d + t * d + sv + e + (8 # 1000))) by ring.
    rewrite E. lra. }
  split.
  - intros Hday. unfold clip. rewrite Q.max_l; [rewrite EU; reflexivity|].
    rewrite EU. by apply Hlow.
  - intros Hday.
    assert (Hd : 2 <= d).
    { unfold d. change 2 with (inject_Z 2). rewrite <- Zle_Qle. lia. }
    rewrite clip_id; [exact EU | rewrite EU; apply Hlow; lia |].
    rewrite EU.
    assert (Hx : t * d <= (5 # 1000) * d) by nra.
    assert (Hy : 0 <= (2 # 100) * d - (t * d + sv + e + (8 # 1000))) by lra.
    pose proof (Qmult_le_0_compat _ _ Hcp Hy) as Hp.
    assert (E : cp + cp * (2 # 100) * d ==
                cp * (1 + t * d + sv + e + (8 # 1000))
                + cp * ((2 # 100) * d - (t * d + sv + e + (8 # 1000)))) by ring.
    rewrite E. lra.
Qed.

Definition no_factors : Factors := {| dubai_oil := None; exchange_rate := None |}.

Lemma X5_clipping_inactive_witness :
  exists t e u,
    calculate_improved_trend (repeat 1650 20) 14 = Some t /\
    calculate_external_impact no_factors 3 = Some e /\
    unrounded (seoul_forecast_day decimal_round2 (fun _ => 7%nat) (fun _ => Sat)
                 (repeat 1650 20) no_factors gasoline 1650 20000 3) = Some u /\
    u == 1650 * (1 + t * 3 + calculate_seven_day_seasonality 7 Sat gasoline
                 + e + (8 # 1000)).
Proof.
  assert (Hcp : 0 <= 1650) by (vm_compute; discriminate).
  destruct (calculate_improved_trend (repeat 1650 20) 14) as [t|] eqn:Et;
    [|vm_compute in Et; discriminate].
  destruct (calculate_external_impact no_factors 3) as [e|] eqn:Ee;
    [|vm_compute in Ee; discriminate].
  destruct (X5_clipping_inactive decimal_round2 (fun _ => 7%nat) (fun _ => Sat)
              (repeat 1650 20) no_factors gasoline 1650 20000 3 t e Hcp Et Ee)
    as (u & Hu & _ & _ & H2).
  exists t, e, u. split; [reflexivity|]. split; [reflexivity|].
  split; [exact Hu|]. apply H2. lia.
Defined.









(** *** Back-testing *)

Lemma omap_all_none {A B} (f : A -> option B) l :
  (forall x, In x l -> f x = None) -> omap f l = [].
Proof.
  induction l as [|x l IH]; intros H; [reflexivity|]. simpl.
  rewrite (H x (or_introl eq_refl)). apply IH. intros y Hy. apply H. by right.
Qed.

Lemma omap_all_some_length {A B} (f : A -> option B) l :
  (forall x, In x l -> is_Some (f x)) -> length (omap f l) = length l.
Proof.
  induction l as [|x l IH]; intros H; [reflexivity|]. simpl.
  destruct (H x (or_introl eq_refl)) as [y ->]. simpl. f_equal.
  apply IH. intros z Hz. apply H. by right.
Qed.

Lemma omap_In {A B} (f : A -> option B) l y :
  In y (omap f l) -> exists x, In x l /\ f x = Some y.
Proof.
  induction l as [|x l IH]; [intros []|]. simpl.
  destruct (f x) as [z|] eqn:E.
  - intros [<- | H]; [exists x; split; [by left | exact E]|].
    destruct (IH H) as [x' [Hx' Hf]]. exists x'. split; [by right | exact Hf].
  - intros H. destruct (IH H) as [x' [Hx' Hf]]. exists x'. split; [by right | exact Hf].
Qed.

Lemma seventh_day_confidence v :
  0 <= v ->
  45 # 100 <= calculate_realistic_confidence 7 v (3 # 100) /\
  calculate_realistic_confidence 7 v (3 # 100) <= 56 # 100.
Proof.
  intros Hv. unfold calculate_realistic_confidence.
  change (inject_Z (Z.of_nat 7)) with 7.
  destruct (py_max_cases ((75 # 100) - (25 # 1000) * 7 - v * (4 # 10)
                          - (3 # 100) * (1 # 2)) (45 # 100))
    as [[H ->]|[H ->]]; lra.
Qed.

Lemma simulate_Some pct_std gasoline H i s :
  simulate pct_std gasoline H i = Some s ->
  (length gasoline - H + i + 7 < length gasoline)%nat /\
  s = {| actual_price := nth (length gasoline - H + i + 7) gasoline 0;
         predicted_price :=
           option_map
             (fun trend =>
                List.last (firstn (length gasoline - H + i) gasoline) 0
                + trend * List.last (firstn (length gasoline - H + i) gasoline) 0 * 7)
             (calculate_improved_trend (firstn (length gasoline - H + i) gasoline) 14);
         sample_confidence :=
           calculate_realistic_confidence 7
             (pct_std (firstn (length gasoline - H + i) gasoline)) (3 # 100) |}.
Proof.
  unfold simulate.
  destruct (Nat.ltb_spec (length gasoline - H + i + 7) (length gasoline));
    [|discriminate].
  intros [= <-]. split; [assumption | reflexivity].
Qed.

Lemma no_high_confidence (samples : list Sample) :
  Forall (fun s => sample_confidence s <= 56 # 100) samples ->
  List.filter high_confidence samples = [] /\
  existsb high_confidence samples = false.
Proof.
  induction 1 as [|s l Hs _ [IH1 IH2]]; [by split|].
  assert (E : high_confidence s = false).
  { unfold high_confidence. destruct (Qlt_bool (6 # 10) (sample_confidence s)) eqn:E;
      [|reflexivity].
    apply Qlt_bool_iff in E. lra. }
  simpl. rewrite E. by split.
Qed.

Lemma firstn_In {A} (k : nat) (l : list A) x : In x (firstn k l) -> In x l.
Proof.
  intros H. rewrite <- (firstn_skipn k l). apply in_or_app. by left.
Qed.

(** X22: with a non-negative volatility estimate, the back-test returns
    the empty dictionary when the frame has fewer than
    [historical_days + 7] rows or [historical_days] is at most 7;
    otherwise it evaluates exactly [historical_days - 7] forecasts.  Each
    simulated seventh-day confidence lies between 0.45 and 0.56, so no
    sample ever counts as high-confidence (above 0.6) and the
    high-confidence MAPE is always reported as 0; each predicted price is
    NaN exactly when the trend is, and otherwise within 3.5% of a
    non-negative price it starts from; on the positive gasoline prices
    that the loader keeps every predicted price is finite. *)
Theorem X22_validation (round2 : Q -> Q) (pct_std : list Q -> Q)
    (gasoline : list Q) (historical_days : nat) :
  (forall l, 0 <= pct_std l) ->
  (((length gasoline < historical_days + 7)%nat \/ (historical_days <= 7)%nat) ->
   validate_seven_day_accuracy round2 pct_std gasoline historical_days = None) /\
  ((historical_days + 7 <= length gasoline)%nat -> (7 < historical_days)%nat ->
   exists report,
     validate_seven_day_accuracy round2 pct_std gasoline historical_days
       = Some report /\
     sample_size report = (historical_days - 7)%nat /\
     high_confidence_samples report = 0%nat /\
     high_confidence_mape report = XFin 0) /\
  (forall i s, simulate pct_std gasoline historical_days i = Some s ->
     45 # 100 <= sample_confidence s /\ sample_confidence s <= 56 # 100 /\
     let past_data := firstn (length gasoline - historical_days + i) gasoline in
     let current_price := List.last past_data 0 in
     (predicted_price s = None <-> calculate_improved_trend past_data 14 = None) /\
     (0 <= current_price ->
      forall p, predicted_price s = Some p ->
        (965 # 1000) * current_price <= p /\ p <= (1035 # 1000) * current_price) /\
     (Forall (fun p => 0 < p) gasoline -> exists p, predicted_price s = Some p)) /\
  (forall now regional_data historical_df,
     load_historical_data now regional_data = Some historical_df ->
     Forall (fun p => 0 < p) (map price_gasoline historical_df)).
Proof.
  intros Hstd.
  assert (Hsample : forall i s, simulate pct_std gasoline historical_days i = Some s ->
     45 # 100 <= sample_confidence s /\ sample_confidence s <= 56 # 100 /\
     let past_data := firstn (length gasoline - historical_days + i) gasoline in
     let current_price := List.last past_data 0 in
     (predicted_price s = None <-> calculate_improved_trend past_data 14 = None) /\
     (0 <= current_price ->
      forall p, predicted_price s = Some p ->
        (965 # 1000) * current_price <= p /\ p <= (1035 # 1000) * current_price) /\
     (Forall (fun p => 0 < p) gasoline -> exists p, predicted_price s = Some p)).
  { intros i s Hs. apply simulate_Some in Hs. destruct Hs as [_ ->].
    cbn [sample_confidence predicted_price].
    destruct (seventh_day_confidence
                (pct_std (firstn (length gasoline - historical_days + i) gasoline))
                (Hstd _)) as [H1 H2].
    split; [exact H1|]. split; [exact H2|]. cbv zeta.
    set (past := firstn (length gasoline - historical_days + i) gasoline).
    set (cp := List.last past 0).
    destruct (calculate_improved_trend past 14) as [t|] eqn:Et; cbn [option_map].
    - split; [split; discriminate|]. split.
      + intros Hcp p [= <-].
        destruct (improved_trend_bounds _ _ _ Et) as [Ht1 Ht2].
        assert (E1 : 0 <= (t + (5 # 1000)) * cp) by (apply Qmult_le_0_compat; lra).
        assert (E2 : 0 <= ((5 # 1000) - t) * cp) by (apply Qmult_le_0_compat; lra).
        split; lra.
      + intros _. by eexists.
    - split; [split; reflexivity|]. split; [intros _ p; discriminate|].
      intros Hpos.
      assert (Hp : Forall (fun p => 0 < p) past).
      { rewrite List.Forall_forall in *. intros x Hx. apply Hpos.
        by eapply firstn_In. }
      destruct (improved_trend_finite past 14 ltac:(lia) Hp) as [t Ht].
      congruence. }
  split; [|split; [|split; [exact Hsample|]]].
  - intros Hcase. unfold validate_seven_day_accuracy.
    destruct (Nat.ltb_spec (length gasoline) (historical_days + 7));
      [reflexivity|].
    destruct Hcase as [Hc | Hc]; [lia|].
    rewrite omap_all_none; [reflexivity|].
    intros i Hi. apply in_seq in Hi. unfold simulate.
    destruct (Nat.ltb_spec (length gasoline - historical_days + i + 7)
                (length gasoline)); [lia | reflexivity].
  - intros Hlen Hh. unfold validate_seven_day_accuracy.
    destruct (Nat.ltb_spec (length gasoline) (historical_days + 7)); [lia|].
    set (f := simulate pct_std gasoline historical_days).
    assert (Hl : length (omap f (seq 0 historical_days)) = (historical_days - 7)%nat).
    { replace historical_days with ((historical_days - 7) + 7)%nat at 1 by lia.
      rewrite seq_app, omap_app, length_app.
      rewrite (omap_all_none f (seq _ 7)).
      - rewrite omap_all_some_length; [rewrite length_seq; simpl; lia|].
        intros i Hi. apply in_seq in Hi. unfold f, simulate.
        destruct (Nat.ltb_spec (length gasoline - historical_days + i + 7)
                    (length gasoline)); [by eexists | lia].
      - intros i Hi. apply in_seq in Hi. unfold f, simulate.
        destruct (Nat.ltb_spec (length gasoline - historical_days + i + 7)
                    (length gasoline)); [lia | reflexivity]. }
    assert (Hc : Forall (fun s => sample_confidence s <= 56 # 100)
                   (omap f (seq 0 historical_days))).
    { apply List.Forall_forall. intros s Hs. apply omap_In in Hs.
      destruct Hs as [i [_ Hi]]. by destruct (Hsample i s Hi) as (_ & H2 & _). }
    destruct (no_high_confidence _ Hc) as [Hf He].
    destruct (omap f (seq 0 historical_days)) as [|s0 samples] eqn:Esamples.
    { simpl in Hl. lia. }
    eexists. split; [reflexivity|].
    cbn [sample_size high_confidence_samples high_confidence_mape].
    rewrite Hf, He. split; [exact Hl|]. split; reflexivity.
  - intros now regional_data df Hdf. apply List.Forall_forall.
    intros p Hp. apply in_map_iff in Hp. destruct Hp as [r [<- Hr]].
    by apply (loaded_rows now regional_data df r Hdf).
Qed.

Lemma X22_validation_witness :
  exists report,
    validate_seven_day_accuracy decimal_round2 (fun _ => 0) (repeat 1650 100) 90
      = Some report /\
    sample_size report = 83%nat /\ high_confidence_samples report = 0%nat.
Proof.
  assert (Hstd : forall l : list Q, 0 <= (fun _ : list Q => 0) l)
    by (intros; vm_compute; discriminate).
  destruct (proj1 (proj2 (X22_validation decimal_round2 (fun _ => 0)
                            (repeat 1650 100) 90 Hstd))
              ltac:(rewrite repeat_length; lia) ltac:(lia))
    as (report & H1 & H2 & H3 & _).
  exists report. split; [exact H1|]. split; [exact H2 | exact H3].
Defined.

End SevenDay.

(** ** forecasting/analysis/outlier_detector.py *)
Module Outlier.
Import Num.

Record OutlierResult := {
  outlier_indices : list nat;
  outlier_scores : list ext;
  outlier_types : list string;
  total_outliers : nat;
  detection_method : string;
  threshold : Q
}.

Definition _empty_result (method : string) (threshold : Q) : OutlierResult :=
  {| outlier_indices := [];
     outlier_scores := [];
     outlier_types := [];
     total_outliers := 0;
     detection_method := method;
     threshold := threshold |}.

(** [self.domain_thresholds] *)
Definition daily_change_limit : Q := 10 # 100.
Definition weekly_volatility_limit : Q := 15 # 100.
Definition supply_disruption_threshold : Q := 20 # 100.

(** *** Statistical method *)

(** [|z| > t] for the z-score of [x], decided on squares:
    [|x - mean| / std > t] with [std > 0] holds when [t < 0] or
    [(x - mean)^2 > t^2 * var]; a zero [std] makes every z-score NaN. *)
Definition z_exceeds (values : list Q) (t x : Q) : bool :=
  let v := pvariance values in
  if Qeq_bool v 0 then false
  else if Qlt_bool t 0 then true
  else Qlt_bool (t * t * v) ((x - mean values) * (x - mean values)).

(** [|0.6745 * (x - median) / mad| > 3.5]; a zero [mad] gives an infinite
    score away from the median and NaN at it. *)
Definition modified_z_exceeds (values : list Q) (x : Q) : bool :=
  let med := median values in
  let mad := median (map (fun y => Qabs (y - med)) values) in
  if Qeq_bool mad 0 then negb (Qeq_bool x med)
  else Qlt_bool (35 # 10) (Qabs ((6745 # 10000) * (x - med) / mad)).

Definition iqr_outside (values : list Q) (x : Q) : bool :=
  let Q1 := quantile (25 # 100) values in
  let Q3 := quantile (75 # 100) values in
  let IQR := Q3 - Q1 in
  let iqr_lower := Q1 - (15 # 10) * IQR in
  let iqr_upper := Q3 + (15 # 10) * IQR in
  Qlt_bool x iqr_lower || Qlt_bool iqr_upper x.

Definition statistical_mask (values : list Q) (z_threshold : Q) : list bool :=
  map (fun x => z_exceeds values z_threshold x
                || modified_z_exceeds values x
                || iqr_outside values x) values.

Section Detector.

(** The floating-point square root, used only for reported scores. *)
Variable sqrtQ : Q -> Q.

(** The anomaly scores ([score_samples]) of the isolation forest fitted on
    the features of a series; with the fixed [random_state] they do not
    depend on [contamination].  [None] stands for an exception raised
    while building the features or fitting. *)
Variable score_samples : list Q -> option (list Q).

(** The peak of a run of consecutive large changes,
    [start_idx + changes.iloc[start_idx:end_idx].idxmax()] with the change
    read there; it is computed from index labels, and [None] stands for the
    exception it raises on labels that are not positions. *)
Variable peak_of_run : list ext -> nat -> nat -> option (nat * ext).

(** [np.abs(stats.zscore(values))] at value [x]. *)
Definition abs_zscore (values : list Q) (x : Q) : ext :=
  if Qeq_bool (pvariance values) 0 then NaN
  else Fin (Qabs (x - mean values) / sqrtQ (pvariance values)).

Definition _statistical_detection (series : list Q) (z_threshold : Q) :
    OutlierResult :=
  let outlier_indices := np_where (statistical_mask series z_threshold) in
  {| outlier_indices := outlier_indices;
     outlier_scores :=
       map (fun i => abs_zscore series (nth i series 0)) outlier_indices;
     outlier_types := repeat "statistical"%string (length outlier_indices);
     total_outliers := length outlier_indices;
     detection_method := "statistical";
     threshold := z_threshold |}.

(** *** Isolation forest *)

(** Modelled from the spec: the isolation forest is library code; it
    "returns the fraction contamination of lowest-scoring points": the
    offset is the [100 * contamination] percentile of the scores and a
    point is an outlier when its score is below the offset.  The library
    rejects a contamination outside (0, 0.5], and the detector turns the
    exception into an empty result. *)
Definition _isolation_forest_detection (series : list Q) (contamination : Q) :
    OutlierResult :=
  if negb (Qlt_bool 0 contamination && Qle_bool contamination (1 # 2)) then
    _empty_result "isolation_forest" contamination
  else
    match score_samples series with
    | None => _empty_result "isolation_forest" contamination
    | Some scores =>
        let offset := quantile contamination scores in
        let outlier_indices := np_where (map (fun sc => Qlt_bool sc offset) scores) in
        {| outlier_indices := outlier_indices;
           outlier_scores := map (fun i => Fin (nth i scores 0)) outlier_indices;
           outlier_types := repeat "isolation_forest"%string (length outlier_indices);
           total_outliers := length outlier_indices;
           detection_method := "isolation_forest";
           threshold := contamination |}
    end.

(** *** Domain rules *)

(** [_detect_consecutive_changes]: the loop over [enumerate(changes)]. *)
Fixpoint consecutive_loop (changes : list ext) (n : nat)
    (rest : list (nat * ext)) (consecutive_count : nat)
    (acc : list (nat * ext)) : option (list (nat * ext)) :=
  match rest with
  | [] => Some acc
  | (i, change) :: rest' =>
      match change with
      | NaN => consecutive_loop changes n rest' consecutive_count acc
      | _ =>
          if ext_gt change supply_disruption_threshold then
            consecutive_loop changes n rest' (S consecutive_count) acc
          else if (3 <=? consecutive_count)%nat then
            match peak_of_run changes (i - consecutive_count) (Nat.min n i) with
            | Some p => consecutive_loop changes n rest' 0 (acc ++ [p])
            | None => None
            end
          else consecutive_loop changes n rest' 0 acc
      end
  end.

Definition _detect_consecutive_changes (series : list Q) :
    option (list (nat * ext)) :=
  let changes := pct_change_abs series in
  consecutive_loop changes (length series) (imap (fun i c => (i, c)) changes) 0 [].

(** An entry of the three parallel lists being built. *)
Definition add_if_absent (acc : list (nat * ext * string))
    (e : nat * ext * string) : list (nat * ext * string) :=
  if bool_decide (fst (fst e) ∈ map (fun x => fst (fst x)) acc) then acc
  else acc ++ [e].

Definition weekly_outlier (series : list Q) (i : nat) : bool :=
  match rolling_svar 7 series i, svariance (map Some series) with
  | Some w, Some sv =>
      Qlt_bool (weekly_volatility_limit * weekly_volatility_limit * sv) w
  | _, _ => false
  end.

Definition weekly_score (series : list Q) (i : nat) : ext :=
  match rolling_svar 7 series i with
  | Some w => Fin (sqrtQ w)
  | None => NaN
  end.

Definition _domain_based_detection (series : list Q) : OutlierResult :=
  let daily_changes := pct_change_abs series in
  let daily :=
    map (fun i => (i, nth i daily_changes NaN, "daily_spike"%string))
        (np_where (map (fun c => ext_gt c daily_change_limit) daily_changes)) in
  let weekly :=
    map (fun i => (i, weekly_score series i, "volatility_spike"%string))
        (np_where (map (weekly_outlier series) (seq 0 (length series)))) in
  let with_weekly := foldl add_if_absent daily weekly in
  match _detect_consecutive_changes series with
  | None => _empty_result "domain_based" (1 # 10)
  | Some consecutive_changes =>
      let entries :=
        foldl add_if_absent with_weekly
              (map (fun ps => (fst ps, snd ps, "supply_disruption"%string))
                   consecutive_changes) in
      {| outlier_indices := map (fun e => fst (fst e)) entries;
         outlier_scores := map (fun e => snd (fst e)) entries;
         outlier_types := map snd entries;
         total_outliers := length entries;
         detection_method := "domain_based";
         threshold := daily_change_limit |}
  end.

(** *** Ensemble by vote *)

Record Tally := {
  all_indices : gset nat;
  vote_counts : gmap nat nat;
  score_sums : gmap nat ext;
  type_info : gmap nat (list string)
}.

Definition empty_tally : Tally :=
  {| all_indices := ∅; vote_counts := ∅; score_sums := ∅; type_info := ∅ |}.

(** A vote: the flagged index, its score and its "method:type" tag. *)
Definition Vote : Type := nat * ext * string.

(** The body of the inner loop of [_ensemble_detection]. *)
Definition tally_vote (t : Tally) (v : Vote) : Tally :=
  let '(idx, score, tag) := v in
  {| all_indices := {[idx]} ∪ all_indices t;
     vote_counts := <[idx := (default 0 (vote_counts t !! idx) + 1)%nat]> (vote_counts t);
     score_sums :=
       <[idx := ext_plus (default (Fin 0) (score_sums t !! idx)) score]> (score_sums t);
     type_info := <[idx := default [] (type_info t !! idx) ++ [tag]]> (type_info t) |}.

(** The votes one method casts, in the order of its result lists;
    [None] when [outlier_scores[i]] or [outlier_types[i]] would raise
    [IndexError]. *)
Definition votes_of (result : OutlierResult) (method : string) : option (list Vote) :=
  if (length (outlier_indices result) <=? length (outlier_scores result))%nat
     && (length (outlier_indices result) <=? length (outlier_types result))%nat
  then Some (zip_with (fun idx st => (idx, fst st, (method ++ ":" ++ snd st)%string))
                      (outlier_indices result)
                      (zip (outlier_scores result) (outlier_types result)))
  else None.

(** The voting part of [_ensemble_detection] on the three results. *)
Definition combine (iso_result stat_result domain_result : OutlierResult)
    (contamination : Q) (min_votes : nat) : OutlierResult :=
  match votes_of iso_result "iso", votes_of stat_result "stat",
        votes_of domain_result "domain" with
  | Some vi, Some vs, Some vd =>
      let t := foldl tally_vote empty_tally (vi ++ vs ++ vd) in
      let final_outliers :=
        List.filter (fun idx => (min_votes <=? default 0 (vote_counts t !! idx))%nat)
                    (elements (all_indices t)) in
      {| outlier_indices := final_outliers;
         outlier_scores :=
           map (fun idx => ext_div_nat (default (Fin 0) (score_sums t !! idx))
                                       (default 0%nat (vote_counts t !! idx)))
               final_outliers;
         outlier_types :=
           map (fun idx => String.concat "," (default [] (type_info t !! idx)))
               final_outliers;
         total_outliers := length final_outliers;
         detection_method := "ensemble";
         threshold := inject_Z (Z.of_nat min_votes) |}
  | _, _, _ => _empty_result "ensemble" contamination
  end.

Definition _ensemble_detection (series : list Q) (contamination : Q)
    (min_votes : nat) : OutlierResult :=
  combine (_isolation_forest_detection series contamination)
          (_statistical_detection series 3)
          (_domain_based_detection series)
          contamination min_votes.

Inductive Method :=
  | isolation_forest
  | statistical
  | domain_based
  | ensemble.

(** [detect_outliers]; [z_threshold] and [min_votes] are the keyword
    arguments forwarded to the selected method (defaults 3.0 and 2). *)
Definition detect_outliers (series : list (option Q)) (method : Method)
    (contamination z_threshold : Q) (min_votes : nat) : OutlierResult :=
  let clean_series := dropna series in
  if (length clean_series <? 30)%nat then
    _empty_result (match method with
                   | isolation_forest => "isolation_forest"
                   | statistical => "statistical"
                   | domain_based => "domain_based"
                   | ensemble => "ensemble"
                   end) 0
  else
    match method with
    | isolation_forest => _isolation_forest_detection clean_series contamination
    | statistical => _statistical_detection clean_series z_threshold
    | domain_based => _domain_based_detection clean_series
    | ensemble => _ensemble_detection clean_series contamination min_votes
    end.

(** *** The vote tally *)

Definition vote_index (v : Vote) : nat := fst (fst v).
Definition vote_score (v : Vote) : ext := snd (fst v).
Definition vote_tag (v : Vote) : string := snd v.

(** The votes cast for index [idx], in casting order. *)
Definition votes_for (idx : nat) (vs : list Vote) : list Vote :=
  List.filter (fun v => Nat.eqb (vote_index v) idx) vs.

(** The mean of the scores of a list of votes, summed from 0 in order. *)
Definition mean_score (vs : list Vote) : ext :=
  ext_div_nat (foldl ext_plus (Fin 0) (map vote_score vs)) (length vs).

Definition if_voted {B} (vs : list Vote) (b : B) : option B :=
  match vs with
  | [] => None
  | _ => Some b
  end.

Lemma if_voted_snoc {B} vs v (b : B) : if_voted (vs ++ [v]) b = Some b.
Proof. by destruct vs. Qed.

Lemma votes_for_snoc idx vs v :
  votes_for idx (vs ++ [v]) =
  votes_for idx vs ++ (if Nat.eqb (vote_index v) idx then [v] else []).
Proof. unfold votes_for. rewrite List.filter_app. simpl. by destruct (Nat.eqb _ _). Qed.

Lemma tally_spec vs idx :
  let t := foldl tally_vote empty_tally vs in
  let mine := votes_for idx vs in
  (idx ∈ all_indices t <-> mine <> []) /\
  vote_counts t !! idx = if_voted mine (length mine) /\
  score_sums t !! idx =
    if_voted mine (foldl ext_plus (Fin 0) (map vote_score mine)) /\
  type_info t !! idx = if_voted mine (map vote_tag mine).
Proof.
  induction vs as [|v vs IH] using rev_ind; simpl.
  - split; [|by rewrite !lookup_empty].
    split; [intros H; by apply not_elem_of_empty in H | congruence].
  - rewrite foldl_app, votes_for_snoc. simpl.
    destruct IH as (IH1 & IH2 & IH3 & IH4).
    set (t := foldl tally_vote empty_tally vs) in *.
    set (mine := votes_for idx vs) in *.
    destruct v as [[i sc] tag]. unfold vote_index. simpl.
    destruct (Nat.eqb_spec i idx) as [->|Hne]; simpl.
    + rewrite !lookup_insert_eq, !if_voted_snoc, IH2, IH3, IH4.
      split; [|split; [|split]].
      * split; [intros _; by destruct mine|].
        intros _. apply elem_of_union. left. by apply elem_of_singleton.
      * f_equal. rewrite length_app. simpl. by destruct mine.
      * f_equal. rewrite map_app, foldl_app. simpl. by destruct mine.
      * f_equal. rewrite map_app. simpl. by destruct mine.
    + rewrite !lookup_insert_ne by done. rewrite app_nil_r.
      split; [|tauto]. rewrite <- IH1, elem_of_union, elem_of_singleton.
      split; [intros [Heq|H]; [congruence | exact H] | by right].
Qed.

Lemma votes_of_index r m vs :
  votes_of r m = Some vs -> map vote_index vs = outlier_indices r.
Proof.
  unfold votes_of. destruct (_ && _) eqn:E; [|discriminate]. intros [= <-].
  apply andb_prop in E. destruct E as [E1 E2].
  apply Nat.leb_le in E1. apply Nat.leb_le in E2.
  revert E1 E2. generalize (outlier_scores r) (outlier_types r).
  induction (outlier_indices r) as [|i l IH]; intros scs tys H1 H2; [reflexivity|].
  destruct scs as [|sc scs]; [simpl in H1; lia|].
  destruct tys as [|ty tys]; [simpl in H2; lia|].
  simpl in *. f_equal. apply IH; lia.
Qed.

Lemma votes_of_wf r m :
  length (outlier_scores r) = length (outlier_indices r) ->
  length (outlier_types r) = length (outlier_indices r) ->
  exists vs, votes_of r m = Some vs.
Proof.
  intros H1 H2. unfold votes_of. rewrite H1, H2, Nat.leb_refl. simpl. eauto.
Qed.



(** What [combine] returns on three well-formed results. *)
Lemma combine_spec iso stat dom contamination min_votes vi vs vd :
  votes_of iso "iso" = Some vi ->
  votes_of stat "stat" = Some vs ->
  votes_of dom "domain" = Some vd ->
  let r := combine iso stat dom contamination min_votes in
  let cast := vi ++ vs ++ vd in
  NoDup (outlier_indices r) /\
  (forall idx, In idx (outlier_indices r) <->
               (1 <= length (votes_for idx cast))%nat /\
               (min_votes <= length (votes_for idx cast))%nat) /\
  (forall (j : nat) idx,
     outlier_indices r !! j = Some idx ->
     outlier_scores r !! j = Some (mean_score (votes_for idx cast)) /\
     outlier_types r !! j =
       Some (String.concat "," (map vote_tag (votes_for idx cast)))).
Proof.
  intros Hi Hs Hd. unfold combine. rewrite Hi, Hs, Hd. simpl.
  set (cast := vi ++ vs ++ vd).
  set (t := foldl tally_vote empty_tally cast).
  assert (Hcount : forall idx,
            default 0%nat (vote_counts t !! idx) = length (votes_for idx cast)).
  { intros idx. destruct (tally_spec cast idx) as (_ & H2 & _). fold t in H2.
    rewrite H2. by destruct (votes_for idx cast). }
  assert (Hmem : forall idx,
            In idx (List.filter
                      (fun idx => (min_votes <=? default 0%nat (vote_counts t !! idx))%nat)
                      (elements (all_indices t))) <->
            (1 <= length (votes_for idx cast))%nat /\
            (min_votes <= length (votes_for idx cast))%nat).
  { intros idx. rewrite filter_In, Hcount, Nat.leb_le.
    rewrite <- list_elem_of_In, elem_of_elements.
    destruct (tally_spec cast idx) as (H1 & _). fold t in H1. rewrite H1.
    destruct (votes_for idx cast); simpl; split; intros [H3 H4];
      (split; [congruence || lia | lia]). }
  split; [|split].
  - apply NoDup_ListNoDup. apply List.NoDup_filter.
    apply NoDup_ListNoDup. apply NoDup_elements.
  - exact Hmem.
  - intros j idx Hj.
    assert (Hin : (1 <= length (votes_for idx cast))%nat).
    { apply Hmem. apply list_elem_of_In. by eapply list_elem_of_lookup_2. }
    rewrite !list_lookup_fmap, Hj. simpl.
    destruct (tally_spec cast idx) as (_ & H2 & H3 & H4). fold t in H2, H3, H4.
    rewrite H2, H3, H4.
    destruct (votes_for idx cast) eqn:E; [simpl in Hin; lia|]. simpl. done.
Qed.

(** *** The injected-spike scenario *)

(** A flat series of [n] values 100 whose point at position [k] is 200. *)
Definition spike (n k : nat) : list Q :=
  repeat 100 k ++ 200 :: repeat 100 (n - k - 1).

Lemma spike_length n k : (k < n)%nat -> length (spike n k) = n.
Proof.
  intros H. unfold spike. rewrite length_app, repeat_length. simpl.
  rewrite repeat_length. lia.
Qed.

Lemma spike_lookup n k : spike n k !! k = Some 200.
Proof.
  unfold spike. rewrite lookup_app_r by (rewrite repeat_length; lia).
  rewrite repeat_length, Nat.sub_diag. reflexivity.
Qed.

Lemma inject_nat_succ j :
  inject_Z (Z.of_nat (S j)) == inject_Z (Z.of_nat j) + 1.
Proof. rewrite Nat2Z.inj_succ. unfold Z.succ. rewrite inject_Z_plus. reflexivity. Qed.

Lemma Qsum_map_repeat (f : Q -> Q) x j :
  Qsum (map f (repeat x j)) == inject_Z (Z.of_nat j) * f x.
Proof.
  induction j as [|j IH]; [simpl; change (inject_Z 0) with 0; ring|].
  change (f x + Qsum (map f (repeat x j)) == inject_Z (Z.of_nat (S j)) * f x).
  rewrite IH, inject_nat_succ. ring.
Qed.

Lemma Qsum_map_spike (f : Q -> Q) n k :
  (k < n)%nat ->
  Qsum (map f (spike n k)) == (inject_Z (Z.of_nat n) - 1) * f 100 + f 200.
Proof.
  intros H. unfold spike. rewrite map_app, Qsum_app. simpl.
  rewrite !Qsum_map_repeat.
  assert (E : inject_Z (Z.of_nat n) ==
              inject_Z (Z.of_nat k) + inject_Z (Z.of_nat (n - k - 1)) + 1).
  { change 1 with (inject_Z 1). rewrite <- !inject_Z_plus.
    apply inject_Z_injective. lia. }
  rewrite E. ring.
Qed.

Lemma spike_algebra (N m S v : Q) :
  11 <= N -> m * N == 100 * N + 100 ->
  S == (N - 1) * ((100 - m) * (100 - m)) + (200 - m) * (200 - m) ->
  v * N == S ->
  ~ v == 0 /\ 3 * 3 * v < (200 - m) * (200 - m).
Proof.
  intros HN Hm HS Hv.
  assert (Ha : (m - 100) * N == 100) by lra.
  set (a := m - 100) in *.
  assert (Hm' : m == 100 + a) by (unfold a; lra).
  assert (Hapos : 0 < a) by nra.
  assert (Hb : 100 - a == a * (N - 1)) by lra.
  assert (HS' : S == (N - 1) * (a * a) + (a * (N - 1)) * (a * (N - 1))).
  { rewrite HS. rewrite <- Hb. rewrite Hm'. ring. }
  assert (HR : (200 - m) * (200 - m) == (a * (N - 1)) * (a * (N - 1))).
  { rewrite <- Hb. rewrite Hm'. ring. }
  rewrite HR.
  assert (Hv' : v == a * a * (N - 1)).
  { assert (E : v * N == (a * a * (N - 1)) * N) by (rewrite Hv, HS'; ring).
    apply Qmult_inj_r in E; [exact E | lra]. }
  rewrite Hv'.
  assert (Haa : 0 < a * a) by nra.
  assert (HP : 0 < a * a * (N - 1)) by nra.
  split; [lra|].
  assert (E2 : a * (N - 1) * (a * (N - 1)) == a * a * (N - 1) * (N - 1)) by ring.
  rewrite E2. nra.
Qed.

(** The z-score of the spike exceeds 3 as soon as the series has more than
    ten points (it is the square root of [n - 1]). *)
Lemma z_exceeds_spike n k :
  (11 <= n)%nat -> (k < n)%nat -> z_exceeds (spike n k) 3 200 = true.
Proof.
  intros Hn Hk.
  set (N := inject_Z (Z.of_nat n)).
  assert (HN : 11 <= N).
  { unfold N. change 11 with (inject_Z 11). rewrite <- Zle_Qle. lia. }
  assert (Hlen : Qlen (spike n k) = N).
  { unfold Qlen, N. by rewrite spike_length. }
  assert (Hmean : mean (spike n k) * N == 100 * N + 100).
  { unfold mean. rewrite Hlen.
    rewrite <- (map_id (spike n k)) at 1.
    rewrite (Qsum_map_spike (fun x => x) n k Hk). fold N. field. lra. }
  assert (Hss : sum_sq_dev (spike n k) ==
                (N - 1) * ((100 - mean (spike n k)) * (100 - mean (spike n k)))
                + (200 - mean (spike n k)) * (200 - mean (spike n k))).
  { unfold sum_sq_dev.
    rewrite (Qsum_map_spike
               (fun x => (x - mean (spike n k)) * (x - mean (spike n k))) n k Hk).
    fold N. reflexivity. }
  assert (Hvar : pvariance (spike n k) * N == sum_sq_dev (spike n k)).
  { unfold pvariance. rewrite Hlen. field. lra. }
  destruct (spike_algebra N (mean (spike n k)) (sum_sq_dev (spike n k))
              (pvariance (spike n k)) HN Hmean Hss Hvar) as [Hnz Hlt].
  unfold z_exceeds.
  destruct (Qeq_bool (pvariance (spike n k)) 0) eqn:E.
  { apply Qeq_bool_iff in E. contradiction. }
  assert (E3 : Qlt_bool 3 0 = false) by reflexivity.
  rewrite E3. apply Qlt_bool_iff. exact Hlt.
Qed.

Lemma statistical_flags_spike n k :
  (11 <= n)%nat -> (k < n)%nat ->
  In k (outlier_indices (_statistical_detection (spike n k) 3)).
Proof.
  intros Hn Hk. simpl. apply np_where_In. unfold statistical_mask.
  rewrite list_lookup_fmap, spike_lookup. simpl.
  by rewrite z_exceeds_spike.
Qed.







(** Changes above a limit, counted. *)
Definition count_gt (t : Q) (changes : list ext) : nat :=
  length (List.filter (fun c => ext_gt c t) changes).

Lemma consecutive_loop_few changes n rest : forall count acc,
  (count + count_gt supply_disruption_threshold (map snd rest) < 3)%nat ->
  consecutive_loop changes n rest count acc = Some acc.
Proof.
  induction rest as [|[i c] rest IH]; intros count acc H; [reflexivity|].
  unfold count_gt in *. simpl in *.
  destruct c as [| |x]; simpl in *.
  - by apply IH.
  - apply IH. lia.
  - destruct (Qlt_bool supply_disruption_threshold x); simpl in *.
    + apply IH. lia.
    + destruct count as [|[|[|count]]]; [apply IH; lia ..| lia].
Qed.

Lemma imap_snd (l : list ext) : map snd (imap (fun i c => (i, c)) l) = l.
Proof.
  assert (H : forall (g : nat -> nat),
             map snd (imap (fun i c => (g i, c)) l) = l).
  { induction l as [|c l IH]; intros g; [reflexivity|].
    simpl. f_equal. apply (IH (g ∘ S)). }
  apply (H (fun i => i)).
Qed.










(** *** The three results always cast well-formed votes *)

Lemma isolation_votes series c :
  exists vs, votes_of (_isolation_forest_detection series c) "iso" = Some vs.
Proof.
  unfold _isolation_forest_detection.
  destruct (negb _); [|destruct (score_samples series)]; apply votes_of_wf; simpl;
    try reflexivity; [by rewrite length_map | by rewrite repeat_length].
Qed.

Lemma statistical_votes series t :
  exists vs, votes_of (_statistical_detection series t) "stat" = Some vs.
Proof.
  apply votes_of_wf; simpl; [by rewrite length_map | by rewrite repeat_length].
Qed.

Lemma domain_votes series :
  exists vs, votes_of (_domain_based_detection series) "domain" = Some vs.
Proof.
  unfold _domain_based_detection.
  destruct (_detect_consecutive_changes series); apply votes_of_wf; simpl;
    try reflexivity; by rewrite !length_map.
Qed.


(** *** Monotonicity in the detection parameters *)

Lemma z_exceeds_antitone values t1 t2 x :
  t1 <= t2 -> z_exceeds values t2 x = true -> z_exceeds values t1 x = true.
Proof.
  intros Ht. unfold z_exceeds.
  pose proof (pvariance_nonneg values) as Hv.
  destruct (Qeq_bool (pvariance values) 0); [done|].
  destruct (Qlt_bool t2 0) eqn:E2.
  - apply Qlt_bool_iff in E2. intros _.
    assert (E1 : Qlt_bool t1 0 = true) by (apply Qlt_bool_iff; lra).
    by rewrite E1.
  - assert (~ t2 < 0) by (rewrite <- Qlt_bool_iff; congruence).
    intros H2. apply Qlt_bool_iff in H2.
    destruct (Qlt_bool t1 0) eqn:E1; [reflexivity|].
    assert (~ t1 < 0) by (rewrite <- Qlt_bool_iff; congruence).
    apply Qlt_bool_iff.
    set (v := pvariance values) in *.
    set (d := (x - mean values) * (x - mean values)) in *.
    assert (t1 * t1 <= t2 * t2) by nra.
    assert (t1 * t1 * v <= t2 * t2 * v) by nra. lra.
Qed.

Lemma statistical_count_antitone series t1 t2 :
  t1 <= t2 ->
  (total_outliers (_statistical_detection series t2) <=
   total_outliers (_statistical_detection series t1))%nat.
Proof.
  intros Ht. simpl. unfold statistical_mask. apply mask_map_le.
  intros x Hx. apply orb_prop in Hx. destruct Hx as [Hx|Hx].
  - apply orb_prop in Hx. destruct Hx as [Hx|Hx].
    + rewrite (z_exceeds_antitone series t1 t2 x Ht Hx). reflexivity.
    + rewrite Hx. by rewrite orb_true_r.
  - rewrite Hx. by rewrite orb_true_r.
Qed.

Lemma isolation_count_monotone series c1 c2 :
  0 < c1 -> c1 <= c2 -> c2 <= 1 # 2 ->
  (total_outliers (_isolation_forest_detection series c1) <=
   total_outliers (_isolation_forest_detection series c2))%nat.
Proof.
  intros H0 H12 H2. unfold _isolation_forest_detection.
  assert (V1 : Qlt_bool 0 c1 && Qle_bool c1 (1 # 2) = true).
  { apply andb_true_intro. split; [apply Qlt_bool_iff | apply Qle_bool_iff]; lra. }
  assert (V2 : Qlt_bool 0 c2 && Qle_bool c2 (1 # 2) = true).
  { apply andb_true_intro. split; [apply Qlt_bool_iff | apply Qle_bool_iff]; lra. }
  rewrite V1, V2. simpl.
  destruct (score_samples series) as [scores|]; [|reflexivity].
  simpl. apply mask_map_le.
  intros sc Hsc. apply Qlt_bool_iff in Hsc. apply Qlt_bool_iff.
  assert (quantile c1 scores <= quantile c2 scores)
    by (apply quantile_mono; lra).
  lra.
Qed.

End Detector.



(** Twenty values -2, nineteen values 2 and one value 7: the last point
    has a z-score between 3 and 4 and passes the two robust rules. *)
Definition bimodal : list Q := repeat (-2) 20 ++ repeat 2 19 ++ [7].

(** C7, as stated, fails for the statistical method: raising the z-score
    threshold from 3 to 4 lowers the reported count from 1 to 0 (the
    count does not depend on the score parameters). *)
Lemma C7_counterexample :
  total_outliers (detect_outliers (fun x => x) Some (fun _ _ _ => None)
                    (map Some bimodal) statistical (1 # 10) 3 2) = 1%nat /\
  total_outliers (detect_outliers (fun x => x) Some (fun _ _ _ => None)
                    (map Some bimodal) statistical (1 # 10) 4 2) = 0%nat /\
  (3 : Q) <= 4.
Proof. split; [|split]; vm_compute; (reflexivity || discriminate). Qed.

(** C7 (amended): for the isolation-forest method, increasing the
    contamination within its admissible range (0, 0.5] never decreases the
    number of reported outliers; for the statistical method, increasing the
    z-score threshold never increases it (lowering the threshold never
    decreases it). *)
Theorem C7_monotonicity (sqrtQ : Q -> Q)
    (score_samples : list Q -> option (list Q))
    (series : list Q) (c1 c2 t1 t2 : Q) :
  0 < c1 -> c1 <= c2 -> c2 <= 1 # 2 -> t1 <= t2 ->
  (total_outliers (_isolation_forest_detection score_samples series c1) <=
   total_outliers (_isolation_forest_detection score_samples series c2))%nat /\
  (total_outliers (_statistical_detection sqrtQ series t2) <=
   total_outliers (_statistical_detection sqrtQ series t1))%nat.
Proof.
  intros H0 H12 H2 Ht. split.
  - by apply isolation_count_monotone.
  - by apply statistical_count_antitone.
Qed.

Lemma C7_monotonicity_witness :
  0 < 1 # 10 /\ 1 # 10 <= 3 # 10 /\ 3 # 10 <= 1 # 2 /\ 3 <= 4 /\
  (total_outliers (_isolation_forest_detection Some bimodal (1 # 10)) <=
   total_outliers (_isolation_forest_detection Some bimodal (3 # 10)))%nat.
Proof.
  assert (H1 : 0 < 1 # 10) by (vm_compute; reflexivity).
  assert (H2 : 1 # 10 <= 3 # 10) by (vm_compute; discriminate).
  assert (H3 : 3 # 10 <= 1 # 2) by (vm_compute; discriminate).
  assert (H4 : 3 <= 4) by (vm_compute; discriminate).
  repeat (split; [assumption|]).
  exact (proj1 (C7_monotonicity (fun x => x) Some bimodal
                  (1 # 10) (3 # 10) 3 4 H1 H2 H3 H4)).
Defined.

(** *** Shape of every result *)

(** The three parallel lists of a result have the length it reports. *)
Definition well_formed (r : OutlierResult) : Prop :=
  length (outlier_scores r) = length (outlier_indices r) /\
  length (outlier_types r) = length (outlier_indices r) /\
  total_outliers r = length (outlier_indices r).

Lemma combine_well_formed iso stat dom c mv : well_formed (combine iso stat dom c mv).
Proof.
  unfold combine, well_formed.
  destruct (votes_of iso "iso"), (votes_of stat "stat"), (votes_of dom "domain");
    simpl; rewrite ?length_map; auto.
Qed.

Lemma ensemble_default_well_formed sqrtQ score_samples peak series (contamination z : Q) :
  well_formed (detect_outliers sqrtQ score_samples peak series ensemble
                 contamination z 2).
Proof.
  unfold detect_outliers. destruct (_ <? _)%nat; [done|]. apply combine_well_formed.
Qed.

(** X13: whatever the method and the input, the indices, scores and types
    returned by [detect_outliers] have the same length, which is the
    reported total. *)
Theorem X13_parallel_lists (sqrtQ : Q -> Q) (score_samples : list Q -> option (list Q))
    (peak : list ext -> nat -> nat -> option (nat * ext))
    (series : list (option Q)) (method : Method) (contamination z_threshold : Q)
    (min_votes : nat) :
  well_formed (detect_outliers sqrtQ score_samples peak series method
                 contamination z_threshold min_votes).
Proof.
  unfold detect_outliers. destruct (_ <? _)%nat; [by destruct method|].
  destruct method.
  - unfold _isolation_forest_detection.
    destruct (negb _); [done|]. destruct (score_samples _); [|done].
    unfold well_formed. simpl. by rewrite length_map, repeat_length.
  - unfold well_formed. simpl. by rewrite length_map, repeat_length.
  - unfold _domain_based_detection.
    destruct (_detect_consecutive_changes _ _); [|done].
    unfold well_formed. simpl. by rewrite !length_map.
  - apply combine_well_formed.
Qed.

Lemma votes_for_index_In idx vs :
  (1 <= length (votes_for idx vs))%nat -> In idx (map vote_index vs).
Proof.
  intros H. destruct (votes_for idx vs) as [|v l] eqn:E; [simpl in H; lia|].
  assert (Hv : In v (votes_for idx vs)) by (rewrite E; by left).
  unfold votes_for in Hv. apply filter_In in Hv. destruct Hv as [Hin Heq].
  apply Nat.eqb_eq in Heq. subst idx. by apply in_map.
Qed.

(** X14: an index kept by the ensemble was reported by at least one of
    the three methods, and raising [min_votes] never adds an index. *)
Theorem X14_ensemble_votes (sqrtQ : Q -> Q) (score_samples : list Q -> option (list Q))
    (peak : list ext -> nat -> nat -> option (nat * ext))
    (series : list Q) (contamination : Q) (m1 m2 : nat) (idx : nat) :
  (In idx (outlier_indices
             (_ensemble_detection sqrtQ score_samples peak series contamination m1)) ->
   In idx (outlier_indices
             (_isolation_forest_detection score_samples series contamination)) \/
   In idx (outlier_indices (_statistical_detection sqrtQ series 3)) \/
   In idx (outlier_indices (_domain_based_detection sqrtQ peak series))) /\
  ((m1 <= m2)%nat ->
   In idx (outlier_indices
             (_ensemble_detection sqrtQ score_samples peak series contamination m2)) ->
   In idx (outlier_indices
             (_ensemble_detection sqrtQ score_samples peak series contamination m1))).
Proof.
  unfold _ensemble_detection.
  destruct (isolation_votes score_samples series contamination) as [vi Hvi].
  destruct (statistical_votes sqrtQ series 3) as [vs Hvs].
  destruct (domain_votes sqrtQ peak series) as [vd Hvd].
  destruct (combine_spec _ _ _ contamination m1 vi vs vd Hvi Hvs Hvd) as (_ & Hm1 & _).
  destruct (combine_spec _ _ _ contamination m2 vi vs vd Hvi Hvs Hvd) as (_ & Hm2 & _).
  split.
  - intros H. apply Hm1 in H. destruct H as [H _].
    apply votes_for_index_In in H. rewrite !map_app in H.
    rewrite (votes_of_index _ _ _ Hvi), (votes_of_index _ _ _ Hvs),
      (votes_of_index _ _ _ Hvd) in H.
    apply in_app_or in H. destruct H as [H|H]; [by left|].
    apply in_app_or in H. destruct H as [H|H]; [right; by left | right; by right].
  - intros Hle H. apply Hm2 in H. apply Hm1. lia.
Qed.

(** *** A constant series *)

Lemma quantile_repeat q c n :
  0 <= q -> q <= 1 -> (0 < n)%nat -> quantile q (repeat c n) == c.
Proof.
  intros H0 H1 Hn.
  destruct (quantile_bounds q (repeat c n) c c H0 H1) as [Ha Hb].
  - destruct n; [lia | discriminate].
  - apply List.Forall_forall. intros x Hx. apply repeat_spec in Hx. subst x. lra.
  - lra.
Qed.

Lemma map_repeat {A B} (f : A -> B) x n : map f (repeat x n) = repeat (f x) n.
Proof. induction n as [|n IH]; simpl; congruence. Qed.

Lemma where_from_all_false i mask :
  Forall (fun b => b = false) mask -> where_from i mask = [].
Proof.
  intros H. revert i. induction H as [|b l -> _ IH]; intros i; simpl; [reflexivity|].
  apply IH.
Qed.

Lemma np_where_map_false {A} (f : A -> bool) l :
  (forall x, In x l -> f x = false) -> np_where (map f l) = [].
Proof.
  intros H. apply where_from_all_false. apply List.Forall_forall.
  intros b Hb. apply in_map_iff in Hb. destruct Hb as [x [<- Hx]]. by apply H.
Qed.

Lemma statistical_constant c n t x :
  In x (repeat c n) ->
  z_exceeds (repeat c n) t x || modified_z_exceeds (repeat c n) x
  || iqr_outside (repeat c n) x = false.
Proof.
  intros Hx. destruct n as [|n]; [inversion Hx|].
  apply repeat_spec in Hx. subst x.
  assert (Hq : forall q, 0 <= q -> q <= 1 -> quantile q (repeat c (S n)) == c)
    by (intros; apply quantile_repeat; [assumption | assumption | lia]).
  assert (Ez : z_exceeds (repeat c (S n)) t c = false).
  { unfold z_exceeds.
    assert (E : Qeq_bool (pvariance (repeat c (S n))) 0 = true)
      by (apply Qeq_bool_iff, pvariance_repeat).
    by rewrite E. }
  assert (Em : modified_z_exceeds (repeat c (S n)) c = false).
  { unfold modified_z_exceeds, median.
    assert (Hmed : quantile (1 # 2) (repeat c (S n)) == c) by (apply Hq; lra).
    rewrite map_repeat.
    assert (Hmad : quantile (1 # 2)
                     (repeat (Qabs (c - quantile (1 # 2) (repeat c (S n)))) (S n)) == 0).
    { rewrite quantile_repeat by (lra || lia).
      assert (E0 : c - quantile (1 # 2) (repeat c (S n)) == 0) by lra.
      pose proof (Qabs_wd _ _ E0) as EA. change (Qabs 0) with 0 in EA. exact EA. }
    apply Qeq_bool_iff in Hmad. rewrite Hmad.
    assert (E : Qeq_bool c (quantile (1 # 2) (repeat c (S n))) = true)
      by (apply Qeq_bool_iff; lra).
    by rewrite E. }
  assert (Ei : iqr_outside (repeat c (S n)) c = false).
  { unfold iqr_outside.
    pose proof (Hq (25 # 100) ltac:(lra) ltac:(lra)) as H1.
    pose proof (Hq (75 # 100) ltac:(lra) ltac:(lra)) as H3.
    apply orb_false_intro.
    - destruct (Qlt_bool c _) eqn:E; [|reflexivity].
      apply Qlt_bool_iff in E. lra.
    - destruct (Qlt_bool _ c) eqn:E; [|reflexivity].
      apply Qlt_bool_iff in E. lra. }
  by rewrite Ez, Em, Ei.
Qed.

Lemma ext_gt_flat c t : 0 <= t -> ext_gt (pct_abs c c) t = false.
Proof.
  intros Ht. unfold pct_abs. destruct (Qeq_bool c 0) eqn:E; [reflexivity|].
  cbn [ext_gt]. destruct (Qlt_bool t _) eqn:E1; [|reflexivity].
  apply Qlt_bool_iff in E1.
  assert (Hc : ~ c == 0) by (intros H; apply Qeq_bool_iff in H; congruence).
  assert (E0 : c / c - 1 == 0) by (field; exact Hc).
  pose proof (Qabs_wd _ _ E0) as EA. change (Qabs 0) with 0 in EA.
  revert E1 EA. generalize (Qabs (c / c - 1)). intros a E1 EA. lra.
Qed.

Lemma pct_from_repeat c n : pct_from c (repeat c n) = repeat (pct_abs c c) n.
Proof. induction n as [|n IH]; simpl; congruence. Qed.

Lemma pct_change_constant c n t x :
  0 <= t -> In x (pct_change_abs (repeat c n)) -> ext_gt x t = false.
Proof.
  intros Ht Hx. destruct n as [|n]; [inversion Hx|].
  simpl in Hx. destruct Hx as [<-|Hx]; [reflexivity|].
  rewrite pct_from_repeat in Hx. apply repeat_spec in Hx. subst x.
  by apply ext_gt_flat.
Qed.

Lemma firstn_repeat (c : Q) k n : firstn k (repeat c n) = repeat c (Nat.min k n).
Proof.
  revert n. induction k as [|k IH]; intros [|n]; simpl; try reflexivity.
  by rewrite IH.
Qed.

Lemma svariance_repeat c n v :
  svariance (map Some (repeat c n)) = Some v -> v == 0.
Proof.
  unfold svariance. rewrite dropna_map_Some.
  destruct (_ <? _)%nat; [discriminate|]. intros [= <-].
  rewrite sum_sq_dev_repeat. unfold Qdiv. ring.
Qed.

Lemma weekly_constant c n i : weekly_outlier (repeat c n) i = false.
Proof.
  unfold weekly_outlier, rolling_svar.
  destruct (_ <? _)%nat; [reflexivity|].
  rewrite skipn_repeat, firstn_repeat.
  destruct (svariance (map Some (repeat c (Nat.min 7 _)))) as [w|] eqn:Ew;
    [|reflexivity].
  destruct (svariance (map Some (repeat c n))) as [sv|] eqn:Es; [|reflexivity].
  apply svariance_repeat in Ew. apply svariance_repeat in Es.
  destruct (Qlt_bool _ w) eqn:E; [|reflexivity].
  apply Qlt_bool_iff in E. rewrite Ew, Es in E. unfold weekly_volatility_limit in E. lra.
Qed.

Lemma where_from_increasing mask : forall i,
  StronglySorted lt (where_from i mask).
Proof.
  induction mask as [|b t IH]; intros i; simpl; [constructor|].
  destruct b; [|apply IH]. constructor; [apply IH|].
  apply List.Forall_forall. intros k Hk. apply where_from_In in Hk. lia.
Qed.

Lemma sorted_lt_NoDup l : StronglySorted lt l -> List.NoDup l.
Proof.
  induction 1 as [|a l Hl IH Ha]; constructor; [|exact IH].
  intros Hin. rewrite List.Forall_forall in Ha. specialize (Ha a Hin). lia.
Qed.

Lemma votes_for_NoDup idx vs :
  List.NoDup (map vote_index vs) -> (length (votes_for idx vs) <= 1)%nat.
Proof.
  induction vs as [|v vs IH]; simpl; intros Hnd; [lia|].
  inversion Hnd as [|? ? Hv Hvs]; subst. specialize (IH Hvs).
  destruct (Nat.eqb_spec (vote_index v) idx) as [E|E]; [|exact IH].
  simpl. destruct (votes_for idx vs) as [|w l] eqn:Ew; [simpl; lia|].
  exfalso. apply Hv.
  assert (Hw : In w (votes_for idx vs)) by (rewrite Ew; by left).
  unfold votes_for in Hw. apply filter_In in Hw. destruct Hw as [Hin Heq].
  apply Nat.eqb_eq in Heq. rewrite E, <- Heq. by apply in_map.
Qed.

Lemma isolation_indices_NoDup score_samples series contamination :
  List.NoDup (outlier_indices
                (_isolation_forest_detection score_samples series contamination)).
Proof.
  unfold _isolation_forest_detection.
  destruct (negb _); [constructor|]. destruct (score_samples series); [|constructor].
  simpl. apply sorted_lt_NoDup, where_from_increasing.
Qed.

Lemma statistical_constant_empty sqrtQ c n t :
  outlier_indices (_statistical_detection sqrtQ (repeat c n) t) = [].
Proof.
  simpl. unfold statistical_mask. apply np_where_map_false.
  intros x Hx. by apply statistical_constant.
Qed.

Lemma domain_constant_empty sqrtQ peak c n :
  outlier_indices (_domain_based_detection sqrtQ peak (repeat c n)) = [].
Proof.
  unfold _domain_based_detection.
  assert (Ec : _detect_consecutive_changes peak (repeat c n) = Some []).
  { unfold _detect_consecutive_changes. apply consecutive_loop_few.
    rewrite imap_snd. unfold count_gt.
    assert (E : List.filter (fun x => ext_gt x supply_disruption_threshold)
                  (pct_change_abs (repeat c n)) = []).
    { assert (Ht : 0 <= supply_disruption_threshold)
        by (unfold supply_disruption_threshold; lra).
      generalize (fun x => pct_change_constant c n supply_disruption_threshold x Ht).
      induction (pct_change_abs (repeat c n)) as [|x l IH]; intros H; [reflexivity|].
      simpl. rewrite (H x) by (by left).
      apply IH. intros y Hy. apply H. by right. }
    rewrite E. simpl. lia. }
  rewrite Ec.
  assert (Ed : np_where (map (fun x => ext_gt x daily_change_limit)
                            (pct_change_abs (repeat c n))) = []).
  { apply np_where_map_false. intros x Hx.
    apply (pct_change_constant c n); [unfold daily_change_limit; lra | exact Hx]. }
  assert (Ew : np_where (map (weekly_outlier (repeat c n))
                            (seq 0 (length (repeat c n)))) = []).
  { apply np_where_map_false. intros i _. apply weekly_constant. }
  rewrite Ed, Ew. reflexivity.
Qed.

(** X15: on a constant series the statistical rules and the domain rules
    flag nothing, and the ensemble (two votes) flags nothing whatever
    scores the isolation forest assigns, since it gives an index at most
    one vote. *)
Theorem X15_constant_series (sqrtQ : Q -> Q) (score_samples : list Q -> option (list Q))
    (peak : list ext -> nat -> nat -> option (nat * ext))
    (c : Q) (n : nat) (contamination z_threshold : Q) :
  outlier_indices (_statistical_detection sqrtQ (repeat c n) z_threshold) = [] /\
  outlier_indices (_domain_based_detection sqrtQ peak (repeat c n)) = [] /\
  outlier_indices
    (_ensemble_detection sqrtQ score_samples peak (repeat c n) contamination 2) = [] /\
  total_outliers
    (detect_outliers sqrtQ score_samples peak (map Some (repeat c n)) ensemble
       contamination z_threshold 2) = 0%nat.
Proof.
  assert (Hs := statistical_constant_empty sqrtQ c n).
  assert (Hd := domain_constant_empty sqrtQ peak c n).
  assert (He : outlier_indices
                 (_ensemble_detection sqrtQ score_samples peak (repeat c n)
                    contamination 2) = []).
  { unfold _ensemble_detection.
    destruct (isolation_votes score_samples (repeat c n) contamination) as [vi Hvi].
    destruct (statistical_votes sqrtQ (repeat c n) 3) as [vs Hvs].
    destruct (domain_votes sqrtQ peak (repeat c n)) as [vd Hvd].
    destruct (combine_spec _ _ _ contamination 2%nat vi vs vd Hvi Hvs Hvd)
      as (_ & Hmem & _).
    pose proof (votes_of_index _ _ _ Hvi) as Ei.
    pose proof (votes_of_index _ _ _ Hvs) as Es. rewrite Hs in Es.
    pose proof (votes_of_index _ _ _ Hvd) as Ed. rewrite Hd in Ed.
    apply map_eq_nil in Es. apply map_eq_nil in Ed. subst vs vd.
    destruct (outlier_indices (combine _ _ _ _ _)) as [|idx l]; [reflexivity|].
    exfalso. destruct (Hmem idx) as [Hin _].
    specialize (Hin (or_introl eq_refl)). destruct Hin as [_ Hin].
    rewrite !app_nil_r in Hin.
    pose proof (votes_for_NoDup idx vi) as Hle. rewrite Ei in Hle.
    specialize (Hle (isolation_indices_NoDup _ _ _)). lia. }
  split; [apply Hs|]. split; [exact Hd|]. split; [exact He|].
  pose proof (ensemble_default_well_formed sqrtQ score_samples peak (map Some (repeat c n))
                contamination z_threshold) as Hwf.
  unfold detect_outliers in *. rewrite dropna_map_Some in *.
  destruct (_ <? _)%nat; [reflexivity|].
  destruct Hwf as (_ & _ & ->). by rewrite He.
Qed.

(** *** Anomaly patterns: supply disruptions *)

(** [_detect_supply_disruptions] on the daily changes: the position of the
    reported date and the cumulative rise of the seven changes before it. *)
Definition _detect_supply_disruptions (price_changes : list Q) : list (nat * Q) :=
  flat_map (fun i =>
              let week_changes := firstn 7 (skipn (i - 7) price_changes) in
              if (5 <=? length (List.filter (fun c => Qlt_bool 0 c) week_changes))%nat
              then
                let cumulative_increase := Qsum week_changes in
                if Qlt_bool (5 # 100) cumulative_increase
                then [(i, cumulative_increase)]
                else []
              else [])
           (seq 7 (length price_changes - 7)).

(** X16: no supply disruption is reported for seven changes or fewer, nor
    when no change is positive; a reported one is dated at a position of
    at least 7 and its severity, above 5%, is the sum of the seven changes
    before that date (the change of the date itself is not part of it). *)
Theorem X16_supply_disruptions (price_changes : list Q) :
  ((length price_changes <= 7)%nat -> _detect_supply_disruptions price_changes = []) /\
  (Forall (fun c => c <= 0) price_changes ->
   _detect_supply_disruptions price_changes = []) /\
  Forall (fun e => (7 <= fst e < length price_changes)%nat /\
                   5 # 100 < snd e /\
                   snd e = Qsum (firstn 7 (skipn (fst e - 7) price_changes)))
         (_detect_supply_disruptions price_changes).
Proof.
  unfold _detect_supply_disruptions. split; [|split].
  - intros H. replace (length price_changes - 7)%nat with 0%nat by lia. reflexivity.
  - intros Hall.
    assert (Hweek : forall i, List.filter (fun c => Qlt_bool 0 c)
                                (firstn 7 (skipn (i - 7) price_changes)) = []).
    { intros i.
      assert (Hsub : Forall (fun c => c <= 0) (firstn 7 (skipn (i - 7) price_changes))).
      { apply List.Forall_forall. intros c Hc.
        rewrite List.Forall_forall in Hall. apply Hall.
        rewrite <- (firstn_skipn (i - 7) price_changes). apply in_or_app. right.
        rewrite <- (firstn_skipn 7 (skipn (i - 7) price_changes)).
        apply in_or_app. by left. }
      induction Hsub as [|c l Hc _ IH]; [reflexivity|].
      simpl. destruct (Qlt_bool 0 c) eqn:E; [|exact IH].
      apply Qlt_bool_iff in E. lra. }
    induction (seq 7 (length price_changes - 7)) as [|i l IH]; [reflexivity|].
    simpl. rewrite Hweek. simpl. exact IH.
  - apply List.Forall_forall. intros e He. apply in_flat_map in He.
    destruct He as [i [Hi He]]. apply in_seq in Hi.
    destruct (5 <=? _)%nat; [|inversion He].
    destruct (Qlt_bool _ _) eqn:E; [|inversion He].
    destruct He as [<-|[]]. simpl. apply Qlt_bool_iff in E.
    split; [lia|]. split; [exact E | reflexivity].
Qed.

End Outlier.
